(** * Chain storage accessors (core/rawdb/accessors_chain.go)

    A shallow embedding of the accessor layer that reads and writes headers,
    bodies, receipts, total difficulties, canonical hashes and bad blocks over
    a two-tier store: an append-only ancient store (the freezer) and a live
    key/value store.  Every accessor is a program over the store interface
    (ethdb.Reader, ethdb.KeyValueStore); programs are run against a store
    state while a background process (the freezer) may modify the store
    between any two store calls. *)

From Stdlib Require Import String DecimalString ZArith List Bool Lia Sorted Permutation.
From Stdlib.Strings Require Import Byte.
Import ListNotations.
Open Scope Z_scope.

(** ** Bytes, hashes and block-number keys *)

Definition bytes := list byte.

Definition bytes_eq_dec : forall a b : bytes, {a = b} + {a <> b} :=
  list_eq_dec Byte.byte_eq_dec.

Definition bytes_eqb (a b : bytes) : bool :=
  if bytes_eq_dec a b then true else false.

(** Go's [len] on a slice. *)
Definition len {A : Type} (l : list A) : Z := Z.of_nat (length l).

(** common.Hash is a [32]byte array; it is kept as the list of its bytes. *)
Definition Hash := bytes.
Definition HashLength : nat := 32.

(** common.Hash{} *)
Definition zeroHash : Hash := repeat "000"%byte HashLength.

(** common.BytesToHash: a longer input is cropped from the left, a shorter one
    is left-padded with zero bytes. *)
Definition BytesToHash (b : bytes) : Hash :=
  let b' := if (HashLength <? length b)%nat
            then skipn (length b - HashLength) b else b in
  repeat "000"%byte (HashLength - length b') ++ b'.

Definition wrap64 (z : Z) : Z := z mod 2 ^ 64.

(** big.Int.Uint64: the low 64 bits of the absolute value. *)
Definition big_Uint64 (x : Z) : Z := Z.abs x mod 2 ^ 64.

Definition byte_of_Z (z : Z) : byte :=
  match Byte.of_N (Z.to_N (z mod 256)) with
  | Some b => b
  | None => "000"%byte
  end.

Definition Z_of_byte (b : byte) : Z := Z.of_N (Byte.to_N b).

(** binary.BigEndian: the [n] low-order bytes of [z], most significant first. *)
Fixpoint be_encode (n : nat) (z : Z) : bytes :=
  match n with
  | O => []
  | S n' => byte_of_Z (Z.shiftr z (8 * Z.of_nat n')) :: be_encode n' z
  end.

Definition be_decode (b : bytes) : Z :=
  fold_left (fun acc x => acc * 256 + Z_of_byte x) b 0.

(** Modelled from the spec: encodeBlockNumber of schema.go, "the big-endian
    encoding of the block number (8 bytes)". *)
Definition encodeBlockNumber (number : Z) : bytes := be_encode 8 number.

(** binary.BigEndian.Uint64 on an 8-byte slice. *)
Definition BigEndian_Uint64 (b : bytes) : Z := be_decode (firstn 8 b).

(** Go's slice expression [b[lo:hi]] and [b[lo:]], for indexes in range. *)
Definition slice (b : bytes) (lo hi : nat) : bytes := firstn (hi - lo) (skipn lo b).
Definition slice_from (b : bytes) (lo : nat) : bytes := skipn lo b.

(** bytes.Compare: lexicographic order on unsigned byte values. *)
Fixpoint bytes_compare (a b : bytes) : comparison :=
  match a, b with
  | [], [] => Eq
  | [], _ :: _ => Lt
  | _ :: _, [] => Gt
  | x :: a', y :: b' =>
      match Z.compare (Z_of_byte x) (Z_of_byte y) with
      | Eq => bytes_compare a' b'
      | c => c
      end
  end.

(** bytes.HasPrefix *)
Fixpoint HasPrefix (s prefix : bytes) : bool :=
  match prefix, s with
  | [], _ => true
  | _ :: _, [] => false
  | p :: prefix', x :: s' => Byte.eqb p x && HasPrefix s' prefix'
  end.

(** ** The key schema (schema.go)

    The prefix constants of schema.go are not part of the sources at hand;
    they are parameters of the development. *)
Class Schema : Type := {
  headerPrefix : bytes;        (* headerPrefix + num + hash -> header *)
  headerTDSuffix : bytes;      (* headerPrefix + num + hash + headerTDSuffix -> td *)
  headerHashSuffix : bytes;    (* headerPrefix + num + headerHashSuffix -> hash *)
  headerNumberPrefix : bytes;  (* headerNumberPrefix + hash -> num *)
  blockBodyPrefix : bytes;     (* blockBodyPrefix + num + hash -> body *)
  blockReceiptsPrefix : bytes; (* blockReceiptsPrefix + num + hash -> receipts *)
  badBlockKey : bytes
}.

Section Keys.
Context {schema : Schema}.

(** Modelled from the spec: the key builders of schema.go,
    "headerPrefix(8-byte number)+hash(32)", "headerPrefix+number+suffix",
    "number+hash under their own prefixes". *)
Definition headerKeyPrefix (number : Z) : bytes :=
  headerPrefix ++ encodeBlockNumber number.
Definition headerKey (number : Z) (hash : Hash) : bytes :=
  headerPrefix ++ encodeBlockNumber number ++ hash.
Definition headerTDKey (number : Z) (hash : Hash) : bytes :=
  headerKey number hash ++ headerTDSuffix.
Definition headerHashKey (number : Z) : bytes :=
  headerPrefix ++ encodeBlockNumber number ++ headerHashSuffix.
Definition headerNumberKey (hash : Hash) : bytes :=
  headerNumberPrefix ++ hash.
Definition blockBodyKey (number : Z) (hash : Hash) : bytes :=
  blockBodyPrefix ++ encodeBlockNumber number ++ hash.
Definition blockReceiptsKey (number : Z) (hash : Hash) : bytes :=
  blockReceiptsPrefix ++ encodeBlockNumber number ++ hash.
End Keys.

(** ** The store interface and programs over it *)

(** The freezer tables (freezerHashTable, ... of schema.go). *)
Inductive Table : Type :=
| freezerHashTable
| freezerHeaderTable
| freezerBodiesTable
| freezerReceiptTable
| freezerDifficultyTable.

Definition Table_eqb (a b : Table) : bool :=
  match a, b with
  | freezerHashTable, freezerHashTable
  | freezerHeaderTable, freezerHeaderTable
  | freezerBodiesTable, freezerBodiesTable
  | freezerReceiptTable, freezerReceiptTable
  | freezerDifficultyTable, freezerDifficultyTable => true
  | _, _ => false
  end.

(** A Go [error] value: [None] is nil. *)
Definition error := option string.

(** How a run ends without returning: log.Crit exits the process, a run-time
    panic unwinds it. *)
Inductive Failure : Type :=
| LogCrit (msg : string)
| RuntimePanic (msg : string).

(** One call on the store, as it appears in a trace. *)
Inductive Call : Type :=
| CallAncient (kind : Table) (number : Z)
| CallGet (key : bytes)
| CallHas (key : bytes)
| CallNewIterator (prefix start : bytes)
| CallPut (key value : bytes)
| CallDelete (key : bytes).

(** An accessor is a program that calls the store and continues with the
    answer.  log.Error, log.Warn and log.Info only write to the log and are
    not represented. *)
Inductive Prog (A : Type) : Type :=
| Ret (a : A)
| Stop (f : Failure)
| Ancient (kind : Table) (number : Z) (k : bytes * error -> Prog A)
| Get (key : bytes) (k : bytes * error -> Prog A)
| Has (key : bytes) (k : bool * error -> Prog A)
| NewIterator (prefix start : bytes) (k : list (bytes * bytes) -> Prog A)
| Put (key value : bytes) (k : error -> Prog A)
| Delete (key : bytes) (k : error -> Prog A).

Arguments Ret {A} a.
Arguments Stop {A} f.
Arguments Ancient {A} kind number k.
Arguments Get {A} key k.
Arguments Has {A} key k.
Arguments NewIterator {A} prefix start k.
Arguments Put {A} key value k.
Arguments Delete {A} key k.

Fixpoint bind {A B : Type} (p : Prog A) (f : A -> Prog B) : Prog B :=
  match p with
  | Ret a => f a
  | Stop x => Stop x
  | Ancient t n k => Ancient t n (fun r => bind (k r) f)
  | Get key k => Get key (fun r => bind (k r) f)
  | Has key k => Has key (fun r => bind (k r) f)
  | NewIterator p s k => NewIterator p s (fun r => bind (k r) f)
  | Put key v k => Put key v (fun r => bind (k r) f)
  | Delete key k => Delete key (fun r => bind (k r) f)
  end.

Declare Scope prog_scope.
Delimit Scope prog_scope with prog.
Notation "x <- c ;; k" := (bind c (fun x => k))
  (at level 61, c at next level, right associativity) : prog_scope.
Notation "' pat <- c ;; k" := (bind c (fun x => match x with pat => k end))
  (at level 61, pat pattern, c at next level, right associativity) : prog_scope.
Open Scope prog_scope.

Definition ancient (kind : Table) (number : Z) : Prog (bytes * error) :=
  Ancient kind number Ret.
Definition get (key : bytes) : Prog (bytes * error) := Get key Ret.
Definition has (key : bytes) : Prog (bool * error) := Has key Ret.
Definition newIterator (prefix start : bytes) : Prog (list (bytes * bytes)) :=
  NewIterator prefix start Ret.
Definition put (key value : bytes) : Prog error := Put key value Ret.
Definition delete (key : bytes) : Prog error := Delete key Ret.

(** ** The two-tier store *)

(** Modelled from the spec: the ancient store, "parallel sequential tables
    indexed by block number, append-only", and the live store, a key/value
    store iterated in binary-alphabetical key order.  A table holds item [i]
    at position [i]; the live store is kept as its entries in key order. *)
Record DB : Type := {
  ancients : Table -> list bytes;
  live : list (bytes * bytes)
}.

Definition db_Ancient (db : DB) (kind : Table) (number : Z) : bytes * error :=
  match nth_error (ancients db kind) (Z.to_nat number) with
  | Some item => if 0 <=? number then (item, None)
                 else ([], Some "out of bounds"%string)
  | None => ([], Some "out of bounds"%string)
  end.

Fixpoint kv_get (l : list (bytes * bytes)) (key : bytes) : option bytes :=
  match l with
  | [] => None
  | (k, v) :: r => if bytes_eqb k key then Some v else kv_get r key
  end.

Fixpoint kv_put (l : list (bytes * bytes)) (key value : bytes) : list (bytes * bytes) :=
  match l with
  | [] => [(key, value)]
  | (k, v) :: r =>
      match bytes_compare key k with
      | Lt => (key, value) :: (k, v) :: r
      | Eq => (key, value) :: r
      | Gt => (k, v) :: kv_put r key value
      end
  end.

Definition kv_delete (l : list (bytes * bytes)) (key : bytes) : list (bytes * bytes) :=
  filter (fun kv => negb (bytes_eqb (fst kv) key)) l.

Definition db_Get (db : DB) (key : bytes) : bytes * error :=
  match kv_get (live db) key with
  | Some v => (v, None)
  | None => ([], Some "not found"%string)
  end.

Definition db_Has (db : DB) (key : bytes) : bool * error :=
  match kv_get (live db) key with
  | Some _ => (true, None)
  | None => (false, None)
  end.

(** db.NewIterator(prefix, start): the entries whose key has the prefix and is
    not below prefix+start, in key order. *)
Definition db_NewIterator (db : DB) (prefix start : bytes) : list (bytes * bytes) :=
  filter (fun kv => HasPrefix (fst kv) prefix &&
                    match bytes_compare (fst kv) (prefix ++ start) with
                    | Lt => false
                    | _ => true
                    end) (live db).

Definition db_Put (db : DB) (key value : bytes) : DB :=
  {| ancients := ancients db; live := kv_put (live db) key value |}.

Definition db_Delete (db : DB) (key : bytes) : DB :=
  {| ancients := ancients db; live := kv_delete (live db) key |}.

(** The live store holds its entries in strictly increasing key order. *)
Definition live_sorted (db : DB) : Prop :=
  StronglySorted (fun x y => bytes_compare (fst x) (fst y) = Lt) (live db).

Inductive Outcome (A : Type) : Type :=
| Done (a : A)
| Halted (f : Failure).
Arguments Done {A} a.
Arguments Halted {A} f.

Record Run (A : Type) : Type := {
  outcome : Outcome A;
  final : DB;
  trace : list Call
}.
Arguments outcome {A} r.
Arguments final {A} r.
Arguments trace {A} r.

Definition logged {A : Type} (c : Call) (r : Run A) : Run A :=
  {| outcome := outcome r; final := final r; trace := c :: trace r |}.

(** [run bg i db p] runs [p] from store state [db].  The accessors take no
    lock: before the program's [i]-th store call the background process
    performs [bg i] on the store. *)
Fixpoint run {A : Type} (bg : nat -> DB -> DB) (i : nat) (db : DB) (p : Prog A) : Run A :=
  match p with
  | Ret a => {| outcome := Done a; final := db; trace := [] |}
  | Stop f => {| outcome := Halted f; final := db; trace := [] |}
  | Ancient t n k =>
      let db' := bg i db in
      logged (CallAncient t n) (run bg (S i) db' (k (db_Ancient db' t n)))
  | Get key k =>
      let db' := bg i db in
      logged (CallGet key) (run bg (S i) db' (k (db_Get db' key)))
  | Has key k =>
      let db' := bg i db in
      logged (CallHas key) (run bg (S i) db' (k (db_Has db' key)))
  | NewIterator p s k =>
      let db' := bg i db in
      logged (CallNewIterator p s) (run bg (S i) db' (k (db_NewIterator db' p s)))
  | Put key v k =>
      let db' := bg i db in
      logged (CallPut key v) (run bg (S i) (db_Put db' key v) (k None))
  | Delete key k =>
      let db' := bg i db in
      logged (CallDelete key) (run bg (S i) (db_Delete db' key) (k None))
  end.

(** No background activity. *)
Definition idle : nat -> DB -> DB := fun _ db => db.

Definition exec {A : Type} (db : DB) (p : Prog A) : Run A := run idle 0 db p.

(** The value a program returns on a quiescent store. *)
Definition result {A : Type} (db : DB) (p : Prog A) : Outcome A := outcome (exec db p).

(** ** Raw reads over the two tiers *)

Section RawReads.
Context {schema : Schema}.

(** ReadCanonicalHash *)
Definition ReadCanonicalHash (number : Z) : Prog Hash :=
  '(data, _) <- ancient freezerHashTable number ;;
  data <- (if len data =? 0 then
             '(data, _) <- get (headerHashKey number) ;;
             if len data =? 0 then
               '(data, _) <- ancient freezerHashTable number ;;
               Ret data
             else Ret data
           else Ret data) ;;
  if len data =? 0 then Ret zeroHash else Ret (BytesToHash data).

(** ReadHeaderRLP *)
Definition ReadHeaderRLP (hash : Hash) (number : Z) : Prog bytes :=
  '(data, _) <- ancient freezerHeaderTable number ;;
  if len data >? 0 then Ret data else
  '(data, _) <- get (headerKey number hash) ;;
  if len data >? 0 then Ret data else
  '(data, _) <- ancient freezerHeaderTable number ;;
  if len data >? 0 then Ret data else
  Ret [].

(** ReadBodyRLP *)
Definition ReadBodyRLP (hash : Hash) (number : Z) : Prog bytes :=
  let live_then_ancient : Prog bytes :=
    '(data, _) <- get (blockBodyKey number hash) ;;
    if len data >? 0 then Ret data else
    '(data, _) <- ancient freezerBodiesTable number ;;
    if len data >? 0 then
      '(h, _) <- ancient freezerHashTable number ;;
      if bytes_eqb (BytesToHash h) hash then Ret data else Ret []
    else Ret [] in
  '(data, _) <- ancient freezerBodiesTable number ;;
  if len data >? 0 then
    '(h, _) <- ancient freezerHashTable number ;;
    if bytes_eqb (BytesToHash h) hash then Ret data else live_then_ancient
  else live_then_ancient.

(** ReadTdRLP *)
Definition ReadTdRLP (hash : Hash) (number : Z) : Prog bytes :=
  let live_then_ancient : Prog bytes :=
    '(data, _) <- get (headerTDKey number hash) ;;
    if len data >? 0 then Ret data else
    '(data, _) <- ancient freezerDifficultyTable number ;;
    if len data >? 0 then
      '(h, _) <- ancient freezerHashTable number ;;
      if bytes_eqb (BytesToHash h) hash then Ret data else Ret []
    else Ret [] in
  '(data, _) <- ancient freezerDifficultyTable number ;;
  if len data >? 0 then
    '(h, _) <- ancient freezerHashTable number ;;
    if bytes_eqb (BytesToHash h) hash then Ret data else live_then_ancient
  else live_then_ancient.

(** ReadReceiptsRLP *)
Definition ReadReceiptsRLP (hash : Hash) (number : Z) : Prog bytes :=
  let live_then_ancient : Prog bytes :=
    '(data, _) <- get (blockReceiptsKey number hash) ;;
    if len data >? 0 then Ret data else
    '(data, _) <- ancient freezerReceiptTable number ;;
    if len data >? 0 then
      '(h, _) <- ancient freezerHashTable number ;;
      if bytes_eqb (BytesToHash h) hash then Ret data else Ret []
    else Ret [] in
  '(data, _) <- ancient freezerReceiptTable number ;;
  if len data >? 0 then
    '(h, _) <- ancient freezerHashTable number ;;
    if bytes_eqb (BytesToHash h) hash then Ret data else live_then_ancient
  else live_then_ancient.

(** HasHeader *)
Definition HasHeader (hash : Hash) (number : Z) : Prog bool :=
  '(has_, err) <- ancient freezerHashTable number ;;
  if match err with None => true | Some _ => false end
     && bytes_eqb (BytesToHash has_) hash
  then Ret true else
  '(has_, err) <- has (headerKey number hash) ;;
  if negb has_ || match err with None => false | Some _ => true end
  then Ret false else Ret true.

(** HasBody *)
Definition HasBody (hash : Hash) (number : Z) : Prog bool :=
  '(has_, err) <- ancient freezerHashTable number ;;
  if match err with None => true | Some _ => false end
     && bytes_eqb (BytesToHash has_) hash
  then Ret true else
  '(has_, err) <- has (blockBodyKey number hash) ;;
  if negb has_ || match err with None => false | Some _ => true end
  then Ret false else Ret true.

(** HasReceipts *)
Definition HasReceipts (hash : Hash) (number : Z) : Prog bool :=
  '(has_, err) <- ancient freezerHashTable number ;;
  if match err with None => true | Some _ => false end
     && bytes_eqb (BytesToHash has_) hash
  then Ret true else
  '(has_, err) <- has (blockReceiptsKey number hash) ;;
  if negb has_ || match err with None => false | Some _ => true end
  then Ret false else Ret true.
End RawReads.

(** ** Chain types and their serialisation (core/types, rlp)

    The declarations of core/types are not part of the sources at hand.  The
    accessor layer only touches the parts of a header, body and block named
    below; the types themselves and their RLP codec are parameters. *)

(** Modelled from the spec: a log, "address, topics, data + derived fields
    (block number/hash, tx hash/index, log index)"; the derived fields are the
    ones deriveLogFields assigns. *)
Record Log : Type := {
  Address : bytes;
  Topics : list Hash;
  Data : bytes;
  BlockNumber : Z;
  TxHash : Hash;
  TxIndex : Z;
  BlockHash : Hash;
  Index : Z;
  Removed : bool
}.

(** receiptLogs: a stored receipt that keeps only its logs. *)
Record receiptLogs : Type := { Logs : list Log }.

(** badBlock: the header and body of a block that failed validation. *)
Record badBlock (H B : Type) : Type := { bb_Header : H; bb_Body : B }.
Arguments bb_Header {H B} b.
Arguments bb_Body {H B} b.

Class Types : Type := {
  Header : Type;
  Body : Type;
  Transaction : Type;
  Receipt : Type;
  ChainConfig : Type;
  header_Number : Header -> Z;            (* Header.Number, a big.Int *)
  header_ParentHash : Header -> Hash;     (* Header.ParentHash *)
  header_Hash : Header -> Hash;           (* Header.Hash() *)
  body_Transactions : Body -> list Transaction;
  tx_Hash : Transaction -> Hash;          (* Transaction.Hash() *)
  block_td : Header -> Body -> Z;         (* Block.TotalDifficulty() *)
  (* Receipts.DeriveFields; [None] is an error *)
  Receipts_DeriveFields :
    list Receipt -> ChainConfig -> Hash -> Z -> list Transaction -> option (list Receipt);
  (* rlp.Decode / rlp.DecodeBytes; [None] is a decoding error *)
  rlp_decode_Header : bytes -> option Header;
  rlp_decode_Body : bytes -> option Body;
  rlp_decode_Td : bytes -> option Z;
  rlp_decode_storageReceipts : bytes -> option (list Receipt);
  rlp_decode_receiptLogs : bytes -> option (list receiptLogs);
  rlp_decode_badBlocks : bytes -> option (list (badBlock Header Body));
  (* rlp.EncodeToBytes; [None] is an encoding error *)
  rlp_encode_badBlocks : list (badBlock Header Body) -> option bytes;
  (* the encoding the ancient store applies to an appended item *)
  rlp_encode_Header : Header -> bytes;
  rlp_encode_Body : Body -> bytes;
  rlp_encode_storageReceipts : list Receipt -> bytes;
  rlp_encode_Td : Z -> bytes
}.

(** sort.Sort over a slice with the given Less; the algorithm is Go's and is
    not fixed here (it is not stable). *)
Class GoSort : Type := {
  sort_Sort : forall A : Type, (A -> A -> bool) -> list A -> list A
}.

Section Accessors.
Context {schema : Schema} {types : Types} {gosort : GoSort}.

(** Modelled from the spec: types.Block, "combine header + body into a block
    value"; its hash and number are those of its header. *)
Record Block : Type := { block_header : Header; block_body : Body }.

Definition Block_Header (b : Block) : Header := block_header b.
Definition Block_Body (b : Block) : Body := block_body b.
Definition Block_Hash (b : Block) : Hash := header_Hash (block_header b).
Definition Block_NumberU64 (b : Block) : Z := big_Uint64 (header_Number (block_header b)).
Definition Block_TotalDifficulty (b : Block) : Z := block_td (block_header b) (block_body b).
(** types.NewBlockWithHeader(header).WithBody(...) *)
Definition NewBlockWithBody (h : Header) (b : Body) : Block :=
  {| block_header := h; block_body := b |}.

(** ReadHeader: [None] is the nil header. *)
Definition ReadHeader (hash : Hash) (number : Z) : Prog (option Header) :=
  data <- ReadHeaderRLP hash number ;;
  if len data =? 0 then Ret None else
  match rlp_decode_Header data with
  | None => Ret None         (* log.Error("Invalid block header RLP") *)
  | Some header => Ret (Some header)
  end.

(** ReadBody *)
Definition ReadBody (hash : Hash) (number : Z) : Prog (option Body) :=
  data <- ReadBodyRLP hash number ;;
  if len data =? 0 then Ret None else
  match rlp_decode_Body data with
  | None => Ret None         (* log.Error("Invalid block body RLP") *)
  | Some body => Ret (Some body)
  end.

(** ReadTd *)
Definition ReadTd (hash : Hash) (number : Z) : Prog (option Z) :=
  data <- ReadTdRLP hash number ;;
  if len data =? 0 then Ret None else
  match rlp_decode_Td data with
  | None => Ret None         (* log.Error("Invalid block total difficulty RLP") *)
  | Some td => Ret (Some td)
  end.

(** ReadRawReceipts: [None] is the nil slice, [Some []] an empty one. *)
Definition ReadRawReceipts (hash : Hash) (number : Z) : Prog (option (list Receipt)) :=
  data <- ReadReceiptsRLP hash number ;;
  if len data =? 0 then Ret None else
  match rlp_decode_storageReceipts data with
  | None => Ret None         (* log.Error("Invalid receipt array RLP") *)
  | Some storageReceipts => Ret (Some (map (fun storageReceipt => storageReceipt) storageReceipts))
  end.

(** ReadReceipts *)
Definition ReadReceipts (hash : Hash) (number : Z) (config : ChainConfig)
  : Prog (option (list Receipt)) :=
  receipts <- ReadRawReceipts hash number ;;
  match receipts with
  | None => Ret None
  | Some receipts =>
      body <- ReadBody hash number ;;
      match body with
      | None => Ret None     (* log.Error("Missing body but have receipt") *)
      | Some body =>
          match Receipts_DeriveFields receipts config hash number (body_Transactions body) with
          | None => Ret None (* log.Error("Failed to derive block receipts fields") *)
          | Some receipts => Ret (Some receipts)
          end
      end
  end.

(** ReadBlock *)
Definition ReadBlock (hash : Hash) (number : Z) : Prog (option Block) :=
  header <- ReadHeader hash number ;;
  match header with
  | None => Ret None
  | Some header =>
      body <- ReadBody hash number ;;
      match body with
      | None => Ret None
      | Some body => Ret (Some (NewBlockWithBody header body))
      end
  end.

(** *** Log metadata *)

(** The inner loops of deriveLogFields: every log of one receipt gets the
    block and transaction context and the running log index, a Go [uint]. *)
Fixpoint deriveLogs (logs : list Log) (number : Z) (hash txHash : Hash) (txIndex : Z)
         (logIndex : Z) : list Log * Z :=
  match logs with
  | [] => ([], logIndex)
  | l :: logs' =>
      let l' := {| Address := Address l; Topics := Topics l; Data := Data l;
                   BlockNumber := number; TxHash := txHash; TxIndex := txIndex;
                   BlockHash := hash; Index := logIndex; Removed := Removed l |} in
      let '(rest, logIndex') := deriveLogs logs' number hash txHash txIndex
                                           (wrap64 (logIndex + 1)) in
      (l' :: rest, logIndex')
  end.

(** The loop [for i := 0; i < len(txs); i++]: receipts[i] is paired with
    txs[i]; receipts beyond the transactions are returned untouched.  The
    count check before the loop excludes the index-out-of-range case. *)
Fixpoint deriveTxLogs (txs : list Transaction) (receipts : list receiptLogs)
         (number : Z) (hash : Hash) (i : Z) (logIndex : Z)
  : option (list receiptLogs * list receiptLogs * Z) :=
  match txs with
  | [] => Some ([], receipts, logIndex)
  | tx :: txs' =>
      match receipts with
      | [] => None
      | r :: receipts' =>
          let txHash := tx_Hash tx in
          let '(logs', logIndex') := deriveLogs (Logs r) number hash txHash i logIndex in
          match deriveTxLogs txs' receipts' number hash (i + 1) logIndex' with
          | None => None
          | Some (done, rest, logIndex'') => Some ({| Logs := logs' |} :: done, rest, logIndex'')
          end
      end
  end.

(** deriveLogFields: the receipts after the in-place update, and the error. *)
Definition deriveLogFields (receipts : list receiptLogs) (hash : Hash) (number : Z)
           (txs : list Transaction) : Outcome (list receiptLogs * error) :=
  let logIndex := 0 in
  if negb ((len txs =? len receipts) || (len txs + 1 =? len receipts)) then
    Done (receipts, Some "transaction and receipt count mismatch"%string)
  else
    match deriveTxLogs txs receipts number hash 0 logIndex with
    | None => Halted (RuntimePanic "index out of range")
    | Some (done, rest, logIndex) =>
        if len txs + 1 =? len receipts then
          let j := len txs in
          match rest with
          | [] => Halted (RuntimePanic "index out of range")
          | r :: rest' =>
              let '(logs', _) := deriveLogs (Logs r) number hash hash j logIndex in
              Done (done ++ {| Logs := logs' |} :: rest', None)
          end
        else Done (done ++ rest, None)
    end.

(** ReadLogs: [None] is the nil result. *)
Definition ReadLogs (hash : Hash) (number : Z) : Prog (option (list (list Log))) :=
  data <- ReadReceiptsRLP hash number ;;
  if len data =? 0 then Ret None else
  match rlp_decode_receiptLogs data with
  | None => Ret None           (* log.Error("Invalid receipt array RLP") *)
  | Some receipts =>
      body <- ReadBody hash number ;;
      match body with
      | None => Ret None       (* log.Error("Missing body but have receipt") *)
      | Some body =>
          match deriveLogFields receipts hash number (body_Transactions body) with
          | Halted f => Stop f
          | Done (_, Some _) => Ret None (* log.Error("Failed to derive ...") *)
          | Done (receipts, None) => Ret (Some (map Logs receipts))
          end
      end
  end.
End Accessors.

(** ** Writing into the ancient store *)

Section AncientWrites.
Context {schema : Schema} {types : Types}.

(** What ethdb.AncientWriteOp.Append is given. *)
Inductive AncientItem : Type :=
| ItemHeader (h : Header)
| ItemBody (b : Body)
| ItemReceipts (rs : list Receipt)
| ItemTd (td : Z).

(** One call on an ethdb.AncientWriteOp. *)
Inductive OpCall : Type :=
| OpAppendRaw (kind : Table) (number : Z) (item : bytes)
| OpAppend (kind : Table) (number : Z) (item : AncientItem).

(** The function handed to ModifyAncients: a program over the write
    operation that ends with an error value, or panics. *)
Inductive OpProg : Type :=
| OpRet (err : error)
| OpPanic (msg : string)
| OpDo (c : OpCall) (k : error -> OpProg).

(** [if err := p; err != nil { return err }] followed by [next]. *)
Fixpoint op_then (p : OpProg) (next : OpProg) : OpProg :=
  match p with
  | OpRet None => next
  | OpRet (Some e) => OpRet (Some e)
  | OpPanic m => OpPanic m
  | OpDo c k => OpDo c (fun r => op_then (k r) next)
  end.

(** fmt's %d of a uint64. *)
Definition fmt_d (z : Z) : string := NilZero.string_of_int (Z.to_int z).

(** writeAncientBlock *)
Definition writeAncientBlock (block : Block) (header : Header)
           (receipts : list Receipt) (td : Z) : OpProg :=
  let num := Block_NumberU64 block in
  OpDo (OpAppendRaw freezerHashTable num (Block_Hash block)) (fun err =>
  match err with
  | Some e => OpRet (Some ("can't add block " ++ fmt_d num ++ " hash: " ++ e)%string)
  | None =>
  OpDo (OpAppend freezerHeaderTable num (ItemHeader header)) (fun err =>
  match err with
  | Some e => OpRet (Some ("can't append block header " ++ fmt_d num ++ ": " ++ e)%string)
  | None =>
  OpDo (OpAppend freezerBodiesTable num (ItemBody (Block_Body block))) (fun err =>
  match err with
  | Some e => OpRet (Some ("can't append block body " ++ fmt_d num ++ ": " ++ e)%string)
  | None =>
  OpDo (OpAppend freezerReceiptTable num (ItemReceipts receipts)) (fun err =>
  match err with
  | Some e => OpRet (Some ("can't append block " ++ fmt_d num ++ " receipts: " ++ e)%string)
  | None =>
  OpDo (OpAppend freezerDifficultyTable num (ItemTd td)) (fun err =>
  match err with
  | Some e => OpRet (Some ("can't append block " ++ fmt_d num
                           ++ " total difficulty: " ++ e)%string)
  | None => OpRet None
  end) end) end) end) end).

(** The body of the function WriteAncientBlocks hands to ModifyAncients:
    [for i, block := range blocks], with the running [tdSum]. *)
Fixpoint writeAncientBlocks_loop (blocks : list Block) (receipts : list (list Receipt))
         (i : nat) (tdSum : Z) : OpProg :=
  match blocks with
  | [] => OpRet None
  | block :: blocks' =>
      match nth_error receipts i with
      | None => OpPanic "index out of range"
      | Some receipts_i =>
          let stReceipts := map (fun receipt => receipt) receipts_i in
          let header := Block_Header block in
          let tdSum := if (0 <? i)%nat then tdSum + Block_TotalDifficulty block else tdSum in
          op_then (writeAncientBlock block header stReceipts tdSum)
                  (writeAncientBlocks_loop blocks' receipts (S i) tdSum)
      end
  end.

Definition WriteAncientBlocks_fn (blocks : list Block) (receipts : list (list Receipt))
           (td : Z) : OpProg :=
  let tdSum := td in
  writeAncientBlocks_loop blocks receipts 0 tdSum.

(** A write operation answers every append with an error value and moves to
    a new state; [run_op] runs a program against it and records the calls with
    their answers. *)
Fixpoint run_op {St : Type} (step : St -> OpCall -> error * St) (s : St) (p : OpProg)
  : Outcome error * St * list (OpCall * error) :=
  match p with
  | OpRet err => (Done err, s, [])
  | OpPanic m => (Halted (RuntimePanic m), s, [])
  | OpDo c k =>
      let '(err, s') := step s c in
      let '(o, s'', tr) := run_op step s' (k err) in
      (o, s'', (c, err) :: tr)
  end.

Definition encode_item (item : AncientItem) : bytes :=
  match item with
  | ItemHeader h => rlp_encode_Header h
  | ItemBody b => rlp_encode_Body b
  | ItemReceipts rs => rlp_encode_storageReceipts rs
  | ItemTd td => rlp_encode_Td td
  end.

Definition table_append (tbls : Table -> list bytes) (kind : Table) (item : bytes)
  : Table -> list bytes :=
  fun t => if Table_eqb t kind then tbls t ++ [item] else tbls t.

(** Modelled from the spec: the ancient store's batch, "written strictly in
    increasing, contiguous block-number order": an append is accepted only at
    the table's next index.  The state is the tables and the bytes written. *)
Definition freezer_step (s : (Table -> list bytes) * Z) (c : OpCall)
  : error * ((Table -> list bytes) * Z) :=
  let '(kind, number, blob) :=
    match c with
    | OpAppendRaw kind number blob => (kind, number, blob)
    | OpAppend kind number item => (kind, number, encode_item item)
    end in
  if number =? len (fst s kind)
  then (None, (table_append (fst s) kind blob, snd s + len blob))
  else (Some "appending unexpected item"%string, s).

(** Modelled from the spec: ModifyAncients, "all-or-nothing per invocation";
    it returns the bytes written and the error. *)
Definition ModifyAncients (db : DB) (fn : OpProg) : Outcome (Z * error) * DB :=
  match run_op freezer_step (ancients db, 0) fn with
  | (Halted f, _, _) => (Halted f, db)
  | (Done (Some e), _, _) => (Done (0, Some e), db)
  | (Done None, (tbls, size), _) =>
      (Done (size, None), {| ancients := tbls; live := live db |})
  end.

(** WriteAncientBlocks *)
Definition WriteAncientBlocks (db : DB) (blocks : list Block)
           (receipts : list (list Receipt)) (td : Z) : Outcome (Z * error) * DB :=
  ModifyAncients db (WriteAncientBlocks_fn blocks receipts td).
End AncientWrites.

(** ** Bad blocks *)

Section BadBlocks.
Context {schema : Schema} {types : Types} {gosort : GoSort}.

Definition badBlockToKeep : Z := 10.

Definition badBlockList : Type := list (badBlock Header Body).

(** badBlockList.Less on the elements at the two indexes. *)
Definition badBlockList_Less (x y : badBlock Header Body) : bool :=
  big_Uint64 (header_Number (bb_Header x)) <? big_Uint64 (header_Number (bb_Header y)).

(** sort.Reverse: Less with its arguments swapped. *)
Definition sort_Reverse {A : Type} (less : A -> A -> bool) : A -> A -> bool :=
  fun x y => less y x.

(** ReadBadBlock *)
Definition ReadBadBlock (hash : Hash) : Prog (option Block) :=
  '(blob, err) <- get badBlockKey ;;
  match err with
  | Some _ => Ret None
  | None =>
      match rlp_decode_badBlocks blob with
      | None => Ret None
      | Some badBlocks =>
          match find (fun bad => bytes_eqb (header_Hash (bb_Header bad)) hash) badBlocks with
          | Some bad => Ret (Some (NewBlockWithBody (bb_Header bad) (bb_Body bad)))
          | None => Ret None
          end
      end
  end.

(** ReadAllBadBlocks: the nil slice is the empty list. *)
Definition ReadAllBadBlocks : Prog (list Block) :=
  '(blob, err) <- get badBlockKey ;;
  match err with
  | Some _ => Ret []
  | None =>
      match rlp_decode_badBlocks blob with
      | None => Ret []
      | Some badBlocks =>
          Ret (map (fun bad => NewBlockWithBody (bb_Header bad) (bb_Body bad)) badBlocks)
      end
  end.

(** WriteBadBlock *)
Definition WriteBadBlock (block : Block) : Prog unit :=
  '(blob, _) <- get badBlockKey ;;   (* an error is only logged *)
  badBlocks <- (if len blob >? 0 then
                  match rlp_decode_badBlocks blob with
                  | None => Stop (LogCrit "Failed to decode old bad blocks")
                  | Some l => Ret l
                  end
                else Ret []) ;;
  if existsb (fun b => (big_Uint64 (header_Number (bb_Header b)) =? Block_NumberU64 block)
                       && bytes_eqb (header_Hash (bb_Header b)) (Block_Hash block))
             badBlocks
  then Ret tt                        (* log.Info("Skip duplicated bad block") *)
  else
    let badBlocks := badBlocks ++ [ {| bb_Header := Block_Header block;
                                       bb_Body := Block_Body block |} ] in
    let badBlocks := sort_Sort _ (sort_Reverse badBlockList_Less) badBlocks in
    let badBlocks := if len badBlocks >? badBlockToKeep
                     then firstn (Z.to_nat badBlockToKeep) badBlocks else badBlocks in
    match rlp_encode_badBlocks badBlocks with
    | None => Stop (LogCrit "Failed to encode bad blocks")
    | Some data =>
        err <- put badBlockKey data ;;
        match err with
        | Some _ => Stop (LogCrit "Failed to write bad blocks")
        | None => Ret tt
        end
    end.

(** DeleteBadBlocks *)
Definition DeleteBadBlocks : Prog unit :=
  err <- delete badBlockKey ;;
  match err with
  | Some _ => Stop (LogCrit "Failed to delete bad blocks")
  | None => Ret tt
  end.
End BadBlocks.

(** ** Range queries over the live store *)

Section Ranges.
Context {schema : Schema}.

Record NumberHash : Type := { nh_Number : Z; nh_Hash : Hash }.

(** runtime.maxAlloc on 64-bit platforms and the size of a pointer: [make]
    with a capacity whose storage exceeds maxAlloc panics. *)
Definition maxAlloc : Z := 2 ^ 48.
Definition ptrSize : Z := 8.
Definition makeslice_ok (cap : Z) : bool := cap * ptrSize <=? maxAlloc.

(** The loop of ReadAllHashesInRange over the iterator's entries. *)
Fixpoint hashesInRange_loop (keyLength : Z) (last : Z) (it : list (bytes * bytes))
         (hashes : list NumberHash) : list NumberHash :=
  match it with
  | [] => hashes
  | (key, _) :: it' =>
      if negb (len key =? keyLength) then hashesInRange_loop keyLength last it' hashes
      else
        let num := BigEndian_Uint64
                     (slice key (length headerPrefix) (length headerPrefix + 8)) in
        if num >? last then hashes
        else
          let hash := BytesToHash (slice_from key (length key - 32)) in
          hashesInRange_loop keyLength last it'
                             (hashes ++ [ {| nh_Number := num; nh_Hash := hash |} ])
  end.

(** ReadAllHashesInRange *)
Definition ReadAllHashesInRange (first last : Z) : Prog (list NumberHash) :=
  let start := encodeBlockNumber first in
  let keyLength := len headerPrefix + 8 + 32 in
  if negb (makeslice_ok (wrap64 (1 + last - first)))
  then Stop (RuntimePanic "makeslice: cap out of range")
  else
    it <- newIterator headerPrefix start ;;
    Ret (hashesInRange_loop keyLength last it []).

(** ReadAllHashes *)
Definition ReadAllHashes (number : Z) : Prog (list Hash) :=
  let prefix := headerKeyPrefix number in
  it <- newIterator prefix [] ;;
  Ret (map (fun kv => BytesToHash (slice_from (fst kv) (length (fst kv) - 32)))
           (filter (fun kv => len (fst kv) =? len prefix + 32) it)).

(** The loop of ReadAllCanonicalHashes over the iterator's entries. *)
Fixpoint canonicalHashes_loop (end_ : bytes) (limit : Z) (it : list (bytes * bytes))
         (numbers : list Z) (hashes : list Hash) : list Z * list Hash :=
  match it with
  | [] => (numbers, hashes)
  | (key, value) :: it' =>
      match bytes_compare key end_ with
      | Lt =>
          if (len key =? len headerPrefix + 8 + 1)
             && bytes_eqb (slice_from key (length key - 1)) headerHashSuffix
          then
            let numbers := numbers ++ [BigEndian_Uint64
                             (slice key (length headerPrefix) (length headerPrefix + 8))] in
            let hashes := hashes ++ [BytesToHash value] in
            if len numbers >=? limit then (numbers, hashes)
            else canonicalHashes_loop end_ limit it' numbers hashes
          else canonicalHashes_loop end_ limit it' numbers hashes
      | _ => (numbers, hashes)
      end
  end.

(** ReadAllCanonicalHashes; [limit] is a Go [int]. *)
Definition ReadAllCanonicalHashes (from to : Z) (limit : Z) : Prog (list Z * list Hash) :=
  if limit =? 0 then Ret ([], []) else
  let start := headerHashKey from in
  let end_ := headerHashKey to in
  it <- newIterator [] start ;;
  Ret (canonicalHashes_loop end_ limit it [] []).
End Ranges.

(** ** Common ancestor *)

Section Ancestor.
Context {schema : Schema} {types : Types}.

Definition header_NumberU64 (h : Header) : Z := big_Uint64 (header_Number h).

(** [ReadHeader(db, h.ParentHash, h.Number.Uint64()-1)] *)
Definition ReadParent (h : Header) : Prog (option Header) :=
  ReadHeader (header_ParentHash h) (wrap64 (header_NumberU64 h - 1)).

(** The loops of FindCommonAncestor do not bound their own iterations; each
    takes a step budget, and [None] reports that the budget ran out. *)

(** [for bn := b.Number.Uint64(); a.Number.Uint64() > bn; { a = parent(a) }] *)
Fixpoint walk_down (fuel : nat) (a : Header) (bn : Z) : Prog (option (option Header)) :=
  if header_NumberU64 a >? bn then
    match fuel with
    | O => Ret None
    | S fuel' =>
        a' <- ReadParent a ;;
        match a' with
        | None => Ret (Some None)
        | Some a' => walk_down fuel' a' bn
        end
    end
  else Ret (Some (Some a)).

(** [for a.Hash() != b.Hash() { a = parent(a); b = parent(b) }] *)
Fixpoint walk_both (fuel : nat) (a b : Header) : Prog (option (option Header)) :=
  if negb (bytes_eqb (header_Hash a) (header_Hash b)) then
    match fuel with
    | O => Ret None
    | S fuel' =>
        a' <- ReadParent a ;;
        match a' with
        | None => Ret (Some None)
        | Some a' =>
            b' <- ReadParent b ;;
            match b' with
            | None => Ret (Some None)
            | Some b' => walk_both fuel' a' b'
            end
        end
    end
  else Ret (Some (Some a)).

(** FindCommonAncestor: [Some None] is the nil header. *)
Definition FindCommonAncestor (fuel : nat) (a b : Header) : Prog (option (option Header)) :=
  ra <- walk_down fuel a (header_NumberU64 b) ;;
  match ra with
  | None => Ret None
  | Some None => Ret (Some None)
  | Some (Some a) =>
      rb <- walk_down fuel b (header_NumberU64 a) ;;
      match rb with
      | None => Ret None
      | Some None => Ret (Some None)
      | Some (Some b) => walk_both fuel a b
      end
  end.
End Ancestor.

(** * Notions used to state the properties *)

Section ReadSpec.
Context {schema : Schema}.

(** The three records that are read with a check against the canonical hash. *)
Inductive RecordKind : Type := BodyRecord | ReceiptsRecord | TdRecord.

Definition record_table (k : RecordKind) : Table :=
  match k with
  | BodyRecord => freezerBodiesTable
  | ReceiptsRecord => freezerReceiptTable
  | TdRecord => freezerDifficultyTable
  end.

Definition record_key (k : RecordKind) (number : Z) (hash : Hash) : bytes :=
  match k with
  | BodyRecord => blockBodyKey number hash
  | ReceiptsRecord => blockReceiptsKey number hash
  | TdRecord => headerTDKey number hash
  end.

Definition read_record (k : RecordKind) : Hash -> Z -> Prog bytes :=
  match k with
  | BodyRecord => ReadBodyRLP
  | ReceiptsRecord => ReadReceiptsRLP
  | TdRecord => ReadTdRLP
  end.

(** The existence checks, by the live key they probe. *)
Inductive HasKind : Type := HeaderExists | BodyExists | ReceiptsExist.

Definition has_key (k : HasKind) (number : Z) (hash : Hash) : bytes :=
  match k with
  | HeaderExists => headerKey number hash
  | BodyExists => blockBodyKey number hash
  | ReceiptsExist => blockReceiptsKey number hash
  end.

Definition has_record (k : HasKind) : Hash -> Z -> Prog bool :=
  match k with
  | HeaderExists => HasHeader
  | BodyExists => HasBody
  | ReceiptsExist => HasReceipts
  end.

(** The calls of a trace other than look-ups of the canonical-hash table. *)
Definition payload_calls (tr : list Call) : list Call :=
  filter (fun c => match c with
                   | CallAncient freezerHashTable _ => false
                   | _ => true
                   end) tr.

Definition is_prefix {A : Type} (l m : list A) : Prop := exists r, m = l ++ r.

Definition ancient_data (db : DB) (kind : Table) (number : Z) : bytes :=
  fst (db_Ancient db kind number).

Definition live_data (db : DB) (key : bytes) : bytes := fst (db_Get db key).

(** The ancient tier holds [d] at [number] and its canonical hash there is
    the requested one. *)
Definition in_ancient (db : DB) (kind : Table) (hash : Hash) (number : Z) (d : bytes) : Prop :=
  ancient_data db kind number = d /\
  BytesToHash (ancient_data db freezerHashTable number) = hash.

(** The record [d] of block (hash, number) is held by at least one tier; the
    live store holds nothing else under its key, and the ancient store holds
    nothing else under its hash (its item at [number] is [d] with the
    requested canonical hash, or is missing, or belongs to another hash). *)
Definition record_held (db : DB) (kind : Table) (key : bytes) (hash : Hash) (number : Z)
           (d : bytes) : Prop :=
  (live_data db key = d \/ live_data db key = []) /\
  (in_ancient db kind hash number d \/
   ancient_data db kind number = [] \/
   BytesToHash (ancient_data db freezerHashTable number) <> hash) /\
  (live_data db key = d \/ in_ancient db kind hash number d).

(** The ancient table is append-only: an item, once there, stays. *)
Definition append_only (bg : nat -> DB -> DB) (kind : Table) (number : Z) : Prop :=
  forall (j : nat) (s : DB) (x : bytes),
    x <> [] -> ancient_data s kind number = x -> ancient_data (bg j s) kind number = x.

(** What a read returns on a quiescent store: the ancient item when its
    canonical hash matches, else the live value, else nothing. *)
Definition two_tier_value (db : DB) (kind : Table) (key : bytes) (hash : Hash) (number : Z)
  : bytes :=
  let a := ancient_data db kind number in
  if (len a >? 0) && bytes_eqb (BytesToHash (ancient_data db freezerHashTable number)) hash
  then a
  else let l := live_data db key in
       if len l >? 0 then l else [].

(** The outcome of one probe: the value found, the store state and call
    number after it, and the calls made. *)
Definition Probe : Type := option bytes * DB * nat * list Call.

(** Step 1 of the read path in the spec's words: "query the ancient store's
    sequential table for number; if present, compare against the ancient
    store's canonical-hash table entry for the same number; only accept on
    match". *)
Definition probe_ancient (bg : nat -> DB -> DB) (i : nat) (db : DB) (kind : Table)
           (hash : Hash) (number : Z) : Probe :=
  let s1 := bg i db in
  let d := ancient_data s1 kind number in
  if len d >? 0 then
    let s2 := bg (S i) s1 in
    (if bytes_eqb (BytesToHash (ancient_data s2 freezerHashTable number)) hash
     then Some d else None,
     s2, S (S i), [CallAncient kind number; CallAncient freezerHashTable number])
  else (None, s1, S i, [CallAncient kind number]).

(** Step 2 in the spec's words: "query the live key/value store by the
    hash-qualified key". *)
Definition probe_live (bg : nat -> DB -> DB) (i : nat) (db : DB) (key : bytes) : Probe :=
  let s := bg i db in
  let d := live_data s key in
  (if len d >? 0 then Some d else None, s, S i, [CallGet key]).

(** The read path in the spec's words: step 1, on a miss step 2, on a miss
    step 1 once more, and absent when all three miss. *)
Definition three_probes (bg : nat -> DB -> DB) (i : nat) (db : DB) (kind : Table)
           (key : bytes) (hash : Hash) (number : Z) : Run bytes :=
  match probe_ancient bg i db kind hash number with
  | (Some d, s, _, tr) => {| outcome := Done d; final := s; trace := tr |}
  | (None, s, j, tr) =>
      match probe_live bg j s key with
      | (Some d, s', _, tr') =>
          {| outcome := Done d; final := s'; trace := tr ++ tr' |}
      | (None, s', j', tr') =>
          match probe_ancient bg j' s' kind hash number with
          | (Some d, s'', _, tr'') =>
              {| outcome := Done d; final := s''; trace := tr ++ tr' ++ tr'' |}
          | (None, s'', _, tr'') =>
              {| outcome := Done []; final := s''; trace := tr ++ tr' ++ tr'' |}
          end
      end
  end.

(** The existence check with the repeated ancient probe, in the spec's words:
    "existence checks follow the same precedence without fetching payloads". *)
Definition has_ancient (db : DB) (hash : Hash) (number : Z) : bool :=
  match db_Ancient db freezerHashTable number with
  | (h, None) => bytes_eqb (BytesToHash h) hash
  | (_, Some _) => false
  end.

Definition three_probe_has (bg : nat -> DB -> DB) (i : nat) (db : DB) (key : bytes)
           (hash : Hash) (number : Z) : bool :=
  let s1 := bg i db in
  if has_ancient s1 hash number then true else
  let s2 := bg (S i) s1 in
  if fst (db_Has s2 key) then true else
  let s3 := bg (S (S i)) s2 in
  has_ancient s3 hash number.
End ReadSpec.

(** ** A concrete instance, to run the accessors on explicit stores *)

(** The prefixes go-ethereum's schema uses. *)
#[local] Instance geth_schema : Schema := {|
  headerPrefix := ["h"%byte];
  headerTDSuffix := ["t"%byte];
  headerHashSuffix := ["n"%byte];
  headerNumberPrefix := ["H"%byte];
  blockBodyPrefix := ["b"%byte];
  blockReceiptsPrefix := ["r"%byte];
  badBlockKey := ["I"%byte; "n"%byte; "v"%byte; "a"%byte; "l"%byte; "i"%byte; "d"%byte;
                  "B"%byte; "l"%byte; "o"%byte; "c"%byte; "k"%byte]
|}.

(** A 32-byte hash made of one repeated byte. *)
Definition hash_of_byte (b : byte) : Hash := repeat b HashLength.

(** Headers of three bytes: number, parent id and own id; bodies are lists of
    one-byte transactions. *)
Definition toy_Header : Type := byte * byte * byte.

Definition toy_decode_Header (b : bytes) : option toy_Header :=
  match b with
  | [n; p; h] => Some (n, p, h)
  | _ => None
  end.

Definition toy_log : Log :=
  {| Address := []; Topics := []; Data := []; BlockNumber := 0; TxHash := [];
     TxIndex := 0; BlockHash := []; Index := 0; Removed := false |}.

Fixpoint toy_decode_badBlocks (b : bytes) : option (list (badBlock toy_Header bytes)) :=
  match b with
  | [] => Some []
  | n :: p :: h :: rest =>
      match toy_decode_badBlocks rest with
      | Some l => Some ({| bb_Header := (n, p, h); bb_Body := [] |} :: l)
      | None => None
      end
  | _ => None
  end.

Definition toy_encode_badBlocks (l : list (badBlock toy_Header bytes)) : option bytes :=
  if forallb (fun bb => match bb_Body bb with [] => true | _ => false end) l
  then Some ("192"%byte ::
             flat_map (fun bb => let '(n, p, h) := bb_Header bb in [n; p; h]) l)
  else None.

#[local] Instance toy_types : Types := {|
  Header := toy_Header;
  Body := bytes;
  Transaction := byte;
  Receipt := byte;
  ChainConfig := unit;
  header_Number := fun h => Z_of_byte (fst (fst h));
  header_ParentHash := fun h => hash_of_byte (snd (fst h));
  header_Hash := fun h => hash_of_byte (snd h);
  body_Transactions := fun b => b;
  tx_Hash := fun t => hash_of_byte t;
  block_td := fun h _ => Z_of_byte (fst (fst h)) + 1;
  Receipts_DeriveFields := fun rs _ _ _ txs =>
    if (length rs =? length txs)%nat then Some rs else None;
  rlp_decode_Header := toy_decode_Header;
  rlp_decode_Body := fun b => match b with
                              | "192"%byte :: txs => Some txs
                              | _ => None
                              end;
  rlp_decode_Td := fun b => match b with [x] => Some (Z_of_byte x) | _ => None end;
  rlp_decode_storageReceipts := fun b => match b with
                                         | "192"%byte :: rs => Some rs
                                         | _ => None
                                         end;
  rlp_decode_receiptLogs := fun b =>
    match b with
    | "192"%byte :: rs =>
        Some (map (fun n => {| Logs := repeat toy_log (Z.to_nat (Z_of_byte n)) |}) rs)
    | _ => None
    end;
  rlp_decode_badBlocks := fun b => match b with
                                   | "192"%byte :: rest => toy_decode_badBlocks rest
                                   | _ => None
                                   end;
  rlp_encode_badBlocks := toy_encode_badBlocks;
  rlp_encode_Header := fun h => let '(n, p, x) := h in [n; p; x];
  rlp_encode_Body := fun b => "192"%byte :: b;
  rlp_encode_storageReceipts := fun rs => "192"%byte :: rs;
  rlp_encode_Td := fun td => [byte_of_Z td]
|}.

(** Insertion sort, one admissible behaviour of sort.Sort. *)
Fixpoint insert_by {A : Type} (less : A -> A -> bool) (x : A) (l : list A) : list A :=
  match l with
  | [] => [x]
  | y :: r => if less y x then y :: insert_by less x r else x :: y :: r
  end.

Fixpoint insertion_sort {A : Type} (less : A -> A -> bool) (l : list A) : list A :=
  match l with
  | [] => []
  | x :: r => insert_by less x (insertion_sort less r)
  end.

#[local] Instance insertion_GoSort : GoSort := {| sort_Sort := @insertion_sort |}.

(** Modelled from the spec: one step of the background migrator, which "moves
    committed data from the live store to the ancient store": the records of
    block (hash, number) are appended to the five tables and deleted from the
    live store. *)
Definition freeze {schema : Schema} (number : Z) (hash : Hash) (db : DB) : DB :=
  {| ancients := fun t =>
       ancients db t ++
       [match t with
        | freezerHashTable => hash
        | freezerHeaderTable => live_data db (headerKey number hash)
        | freezerBodiesTable => live_data db (blockBodyKey number hash)
        | freezerReceiptTable => live_data db (blockReceiptsKey number hash)
        | freezerDifficultyTable => live_data db (headerTDKey number hash)
        end];
     live := kv_delete (kv_delete (kv_delete (kv_delete (kv_delete (live db)
               (headerKey number hash)) (blockBodyKey number hash))
               (blockReceiptsKey number hash)) (headerTDKey number hash))
               (headerHashKey number) |}.

(** The freezer acts once, just before the program's [k]-th store call. *)
Definition freeze_at {schema : Schema} (k : nat) (number : Z) (hash : Hash)
  : nat -> DB -> DB :=
  fun j db => if (j =? k)%nat then freeze number hash db else db.

Definition empty_tables : Table -> list bytes := fun _ => [].

(** Block 0 with hash 0x0101..01, held by the live store only. *)
Definition hash1 : Hash := hash_of_byte "001"%byte.

Definition db_live_block0 : DB :=
  {| ancients := empty_tables;
     live := [ (blockBodyKey 0 hash1, ["192"%byte; "007"%byte]);
               (headerKey 0 hash1, ["000"%byte; "000"%byte; "001"%byte]);
               (headerHashKey 0, hash1);
               (blockReceiptsKey 0 hash1, ["192"%byte; "002"%byte]) ] |}.

(** Just before the program's second store call the freezer moves block 0,
    unless the ancient store has it already. *)
Definition bg_freeze_block0 : nat -> DB -> DB :=
  fun j db =>
    if (j =? 1)%nat && (len (ancient_data db freezerBodiesTable 0) =? 0)
    then freeze 0 hash1 db_live_block0 else db.

Definition db_empty : DB := {| ancients := empty_tables; live := [] |}.

(** Block 0 frozen under hash 0x0101..01. *)
Definition db_frozen_block0 : DB := freeze 0 hash1 db_live_block0.

Definition hash2 : Hash := hash_of_byte "002"%byte.

(** A store whose header, body, receipts and total difficulty of block
    (hash1, 0) do not decode. *)
Definition db_corrupt_block0 : DB :=
  {| ancients := empty_tables;
     live := [ (blockBodyKey 0 hash1, ["009"%byte]);
               (headerKey 0 hash1, ["009"%byte]);
               (headerTDKey 0 hash1, ["009"%byte; "009"%byte]);
               (blockReceiptsKey 0 hash1, ["009"%byte]) ] |}.

(** A decoded read hides a value that does not decode: it answers nil, as it
    does when the raw read finds nothing, and it never halts. *)
Definition masks_corruption {T : Type} (raw : Prog bytes) (read : Prog (option T))
           (decode : bytes -> option T) (bg : nat -> DB -> DB) (i : nat) (db : DB) : Prop :=
  (outcome (run bg i db raw) = Done [] -> outcome (run bg i db read) = Done None) /\
  (forall data, outcome (run bg i db raw) = Done data -> decode data = None ->
                outcome (run bg i db read) = Done None) /\
  (exists o, outcome (run bg i db read) = Done o).

(** The read path without the canonical-hash comparison: ancient table, live
    store, ancient table again. *)
Definition three_probes_unverified (bg : nat -> DB -> DB) (i : nat) (db : DB) (kind : Table)
           (key : bytes) (number : Z) : Run bytes :=
  let s1 := bg i db in
  let d1 := ancient_data s1 kind number in
  if len d1 >? 0
  then {| outcome := Done d1; final := s1; trace := [CallAncient kind number] |}
  else
    let s2 := bg (S i) s1 in
    let d2 := live_data s2 key in
    if len d2 >? 0
    then {| outcome := Done d2; final := s2;
            trace := [CallAncient kind number; CallGet key] |}
    else
      let s3 := bg (S (S i)) s2 in
      let d3 := ancient_data s3 kind number in
      {| outcome := Done (if len d3 >? 0 then d3 else []); final := s3;
         trace := [CallAncient kind number; CallGet key; CallAncient kind number] |}.

(** ** Log metadata *)

(** [first; first+1; ...], [n] numbers. *)
Fixpoint count_from (first : Z) (n : nat) : list Z :=
  match n with
  | O => []
  | S n' => first :: count_from (first + 1) n'
  end.

(** The fields of a log that are stored, as opposed to derived. *)
Definition log_payload (l : Log) : bytes * list Hash * bytes * bool :=
  (Address l, Topics l, Data l, Removed l).

Definition log_context (number : Z) (hash txHash : Hash) (txIndex : Z) (l : Log) : Prop :=
  BlockNumber l = number /\ BlockHash l = hash /\ TxHash l = txHash /\ TxIndex l = txIndex.

(** All logs of a block, receipt by receipt. *)
Definition all_logs (rs : list receiptLogs) : list Log := concat (map Logs rs).

Definition receipts_payload (rs : list receiptLogs) : list (list (bytes * list Hash * bytes * bool)) :=
  map (fun r => map log_payload (Logs r)) rs.

(** The transaction hash and index each receipt position is attributed to:
    the transactions in order, then the block hash at index len(txs). *)
Definition attribution {types : Types} (txs : list Transaction) (hash : Hash)
  : list (Hash * Z) :=
  combine (map tx_Hash txs ++ [hash]) (count_from 0 (S (length txs))).

Definition attributed (number : Z) (hash : Hash) (a : Hash * Z) (r : receiptLogs) : Prop :=
  Forall (log_context number hash (fst a) (snd a)) (Logs r).

(** Block (hash1, 0) with one transaction and three stored receipts. *)
Definition db_receipt_mismatch : DB :=
  {| ancients := empty_tables;
     live := [ (blockBodyKey 0 hash1, ["192"%byte; "007"%byte]);
               (blockReceiptsKey 0 hash1, ["192"%byte; "002"%byte; "001"%byte; "000"%byte]) ] |}.

Definition toy_receipts (counts : list nat) : list receiptLogs :=
  map (fun n => {| Logs := repeat toy_log n |}) counts.

(** ** Bad blocks *)

Section BadBlockSpec.
Context {schema : Schema} {types : Types} {gosort : GoSort}.

Definition bb_number (b : badBlock Header Body) : Z :=
  big_Uint64 (header_Number (bb_Header b)).

(** The (number, hash) pair of a stored bad block. *)
Definition bb_key (b : badBlock Header Body) : Z * Hash :=
  (bb_number b, header_Hash (bb_Header b)).

Definition descending (x y : badBlock Header Body) : Prop := bb_number y <= bb_number x.

(** The list WriteBadBlock loads from the store: an absent or empty blob is
    the empty list. *)
Definition stored_badBlocks (db : DB) : option badBlockList :=
  let blob := live_data db badBlockKey in
  if len blob >? 0 then rlp_decode_badBlocks blob else Some [].

Definition badBlocks_inv (l : badBlockList) : Prop :=
  (length l <= 10)%nat /\ StronglySorted descending l /\ NoDup (map bb_key l).

Definition new_badBlock (block : Block) : badBlock Header Body :=
  {| bb_Header := Block_Header block; bb_Body := Block_Body block |}.

(** What is required of sort.Sort on the reversed bad-block order: the result
    is a rearrangement of the input, in descending order of number. *)
Definition sort_law : Prop :=
  forall l : badBlockList,
    Permutation (sort_Sort _ (sort_Reverse badBlockList_Less) l) l /\
    StronglySorted descending (sort_Sort _ (sort_Reverse badBlockList_Less) l).

(** What is required of the RLP codec: an encoded list is not empty and
    decodes to the list. *)
Definition codec_law : Prop :=
  forall (l : badBlockList) (data : bytes),
    rlp_encode_badBlocks l = Some data ->
    data <> [] /\ rlp_decode_badBlocks data = Some l.
End BadBlockSpec.

(** Fifteen distinct toy blocks, numbers 1 to 15. *)
Definition toy_block (n : Z) : @Block toy_types :=
  {| block_header := (byte_of_Z n, "000"%byte, byte_of_Z n); block_body := [] |}.

Fixpoint write_all {schema : Schema} {types : Types} {gosort : GoSort}
         (db : DB) (blocks : list Block) : DB :=
  match blocks with
  | [] => db
  | b :: rest => write_all (final (exec db (WriteBadBlock b))) rest
  end.

(** ** Ancient writes *)

Section AncientWriteSpec.
Context {schema : Schema} {types : Types}.

(** The five appends of one block, in the order of the tables. *)
Definition block_appends (block : Block) (receipts : list Receipt) (td : Z) : list OpCall :=
  let num := Block_NumberU64 block in
  [ OpAppendRaw freezerHashTable num (Block_Hash block);
    OpAppend freezerHeaderTable num (ItemHeader (Block_Header block));
    OpAppend freezerBodiesTable num (ItemBody (Block_Body block));
    OpAppend freezerReceiptTable num (ItemReceipts receipts);
    OpAppend freezerDifficultyTable num (ItemTd td) ].

Definition sumZ (l : list Z) : Z := fold_right Z.add 0 l.

(** The total difficulty written for block [i]: the given [td] plus the
    TotalDifficulty() of blocks 1..i. *)
Definition running_td (td : Z) (blocks : list Block) (i : nat) : Z :=
  td + sumZ (map Block_TotalDifficulty (firstn i (tl blocks))).

Definition appends_at (blocks : list Block) (receipts : list (list Receipt)) (td : Z)
           (i : nat) : list OpCall :=
  match nth_error blocks i, nth_error receipts i with
  | Some block, Some rs => block_appends block rs (running_td td blocks i)
  | _, _ => []
  end.

(** All appends of a batch: block 0 completely, then block 1, and so on. *)
Definition expected_appends (blocks : list Block) (receipts : list (list Receipt)) (td : Z)
  : list OpCall :=
  flat_map (appends_at blocks receipts td) (seq 0 (length blocks)).

Definition answered_nil (ce : OpCall * error) : Prop := snd ce = None.

(** A run either makes all the expected appends, each answered with nil, and
    returns nil; or it stops at the first append answered with an error, having
    made only expected appends so far, and returns an error. *)
Definition op_run_ok (expected : list OpCall) (o : Outcome error)
           (tr : list (OpCall * error)) : Prop :=
  (o = Done None /\ map fst tr = expected /\ Forall answered_nil tr) \/
  (exists msg tr0 c e,
      o = Done (Some msg) /\ tr = tr0 ++ [(c, Some e)] /\ Forall answered_nil tr0 /\
      is_prefix (map fst tr) expected).
End AncientWriteSpec.

(** Three toy blocks, numbers 0 to 2, with one, no and two receipts. *)
Definition toy_chain : list (@Block toy_types) := map toy_block [0; 1; 2].
Definition toy_chain_receipts : list (list byte) :=
  [["001"%byte]; []; ["002"%byte; "003"%byte]].

(** ** Range queries *)

Section RangeSpec.
Context {schema : Schema}.

(** The number and hash ReadAllHashesInRange and ReadAllCanonicalHashes read
    off a key. *)
Definition key_number (key : bytes) : Z :=
  BigEndian_Uint64 (slice key (length headerPrefix) (length headerPrefix + 8)).

Definition key_hash (key : bytes) : Hash :=
  BytesToHash (slice_from key (length key - 32)).

Definition number_hash_of (kv : bytes * bytes) : NumberHash :=
  {| nh_Number := key_number (fst kv); nh_Hash := key_hash (fst kv) |}.

(** A key with the length of a header key, headerPrefix + num + hash. *)
Definition is_header_key (key : bytes) : bool :=
  HasPrefix key headerPrefix && (len key =? len headerPrefix + 8 + 32).

(** A key with the length and suffix of a canonical-hash key,
    headerPrefix + num + headerHashSuffix. *)
Definition is_canonical_key (key : bytes) : bool :=
  HasPrefix key headerPrefix && (len key =? len headerPrefix + 8 + 1)
  && bytes_eqb (slice_from key (length key - 1)) headerHashSuffix.

(** The header entries of the live store with first <= number <= last. *)
Definition headers_in_range (first last : Z) (db : DB) : list (bytes * bytes) :=
  filter (fun kv => is_header_key (fst kv)
                    && (first <=? key_number (fst kv))
                    && (key_number (fst kv) <=? last)) (live db).

(** The canonical-hash entries of the live store with from <= number < to. *)
Definition canonical_in_range (from to : Z) (db : DB) : list (bytes * bytes) :=
  filter (fun kv => is_canonical_key (fst kv)
                    && (from <=? key_number (fst kv))
                    && (key_number (fst kv) <? to)) (live db).

(** Every pair of the list is the canonical hash of its number. *)
Definition only_canonical (db : DB) (l : list NumberHash) : Prop :=
  forall nh, In nh l ->
             kv_get (live db) (headerHashKey (nh_Number nh)) = Some (nh_Hash nh).
End RangeSpec.

(** Height 5 with the canonical header (hash1) and a reorg fork (hash2). *)
Definition db_fork : DB :=
  {| ancients := empty_tables;
     live := [ (headerKey 5 hash1, ["005"%byte; "000"%byte; "001"%byte]);
               (headerKey 5 hash2, ["005"%byte; "000"%byte; "002"%byte]);
               (headerHashKey 5, hash1) ] |}.

(** A canonical chain of heights 10 to 20: at every height the header and the
    canonical-hash entry. *)
Definition db_chain_10_20 : DB :=
  {| ancients := empty_tables;
     live := flat_map (fun n => [ (headerKey n (hash_of_byte (byte_of_Z n)),
                                   [byte_of_Z n; byte_of_Z (n - 1); byte_of_Z n]);
                                  (headerHashKey n, hash_of_byte (byte_of_Z n)) ])
                      (count_from 10 11) |}.

(** The (number, hash) pair ReadAllCanonicalHashes makes of an entry. *)
Definition canonical_entry {schema : Schema} (kv : bytes * bytes) : Z * Hash :=
  (key_number (fst kv), BytesToHash (snd kv)).

(** The entries the loop of ReadAllCanonicalHashes counts: below the end key,
    with the length and the suffix of a canonical-hash key. *)
Definition counted {schema : Schema} (end_ : bytes) (kv : bytes * bytes) : bool :=
  match bytes_compare (fst kv) end_ with Lt => true | _ => false end
  && ((len (fst kv) =? len headerPrefix + 8 + 1)
      && bytes_eqb (slice_from (fst kv) (length (fst kv) - 1)) headerHashSuffix).

(** ** Common ancestor *)

Section AncestorSpec.
Context {schema : Schema} {types : Types}.

(** [descends db a k c]: following the stored parent links from [a] for [k]
    steps leads to [c], the height going down by one at every step. *)
Inductive descends (db : DB) : Header -> nat -> Header -> Prop :=
| descends_O (a : Header) : descends db a 0 a
| descends_S (a p c : Header) (k : nat) :
    result db (ReadParent a) = Done (Some p) ->
    header_NumberU64 a = header_NumberU64 p + 1 ->
    descends db p k c ->
    descends db a (S k) c.

(** No header reached from [a] in fewer than [ka] steps has the hash of a
    header of the same height reached from [b] in fewer than [kb] steps. *)
Definition distinct_above (db : DB) (a : Header) (ka : nat) (b : Header) (kb : nat) : Prop :=
  forall ja jb x y,
    (ja < ka)%nat -> (jb < kb)%nat ->
    descends db a ja x -> descends db b jb y ->
    header_NumberU64 x = header_NumberU64 y ->
    header_Hash x <> header_Hash y.
End AncestorSpec.

(** Two chains over a common trunk of heights 0 to 5: chain A (ids 6..10 at
    heights 6..10) and chain B (ids 106, 107 at heights 6, 7).  A toy header
    is (number, parent id, own id). *)
Definition toy_header_entry (n p h : Z) : bytes * bytes :=
  (headerKey n (hash_of_byte (byte_of_Z h)), [byte_of_Z n; byte_of_Z p; byte_of_Z h]).

Definition db_two_chains : DB :=
  {| ancients := empty_tables;
     live := map (fun n => toy_header_entry n (n - 1) n) (count_from 1 5)
             ++ [ toy_header_entry 6 5 6; toy_header_entry 6 5 106;
                  toy_header_entry 7 6 7; toy_header_entry 7 106 107;
                  toy_header_entry 8 7 8; toy_header_entry 9 8 9;
                  toy_header_entry 10 9 10 ] |}.

Definition toy_header (n p h : Z) : toy_Header := (byte_of_Z n, byte_of_Z p, byte_of_Z h).

(** The same two chains with heights 0 to 5 missing from the store. *)
Definition db_two_chains_gap : DB :=
  {| ancients := empty_tables;
     live := [ toy_header_entry 6 5 6; toy_header_entry 6 55 106;
               toy_header_entry 7 6 7; toy_header_entry 7 106 107;
               toy_header_entry 8 7 8; toy_header_entry 9 8 9;
               toy_header_entry 10 9 10 ] |}.

(** A program that never writes to the store. *)
Fixpoint read_only {A : Type} (p : Prog A) : Prop :=
  match p with
  | Ret _ | Stop _ => True
  | Ancient _ _ k => forall r, read_only (k r)
  | Get _ k => forall r, read_only (k r)
  | Has _ k => forall r, read_only (k r)
  | NewIterator _ _ k => forall r, read_only (k r)
  | Put _ _ _ | Delete _ _ => False
  end.

(** * Further accessors of accessors_chain.go *)

(** The singleton keys of schema.go; like the prefixes they are parameters. *)
Class SchemaKeys : Type := {
  headHeaderKey : bytes;
  headBlockKey : bytes;
  headFastBlockKey : bytes;
  lastPivotKey : bytes;
  fastTrieProgressKey : bytes;
  txIndexTailKey : bytes;
  fastTxLookupLimitKey : bytes
}.

(** rlp.EncodeToBytes as the writers call it ([None] is an encoding error),
    the remaining decoders, the uptime record of consensus/istanbul/uptime and
    istanbul.RandomnessCommitmentDBLocation; none is part of the sources at
    hand. *)
Class RlpEncode {types : Types} : Type := {
  EncodeToBytes_Header : Header -> option bytes;
  EncodeToBytes_Body : Body -> option bytes;
  EncodeToBytes_Td : Z -> option bytes;
  EncodeToBytes_storageReceipts : list Receipt -> option bytes;
  EncodeToBytes_uint64 : Z -> option bytes;
  rlp_decode_uint64 : bytes -> option Z;
  Uptime : Type;
  EncodeToBytes_Uptime : Uptime -> option bytes;
  rlp_decode_Uptime : bytes -> option Uptime;
  RandomnessCommitmentDBLocation : Hash -> bytes
}.

Section ScalarStores.
Context {schema : Schema} {keys : SchemaKeys}.

(** WriteCanonicalHash *)
Definition WriteCanonicalHash (hash : Hash) (number : Z) : Prog unit :=
  err <- put (headerHashKey number) hash ;;
  match err with
  | Some _ => Stop (LogCrit "Failed to store number to hash mapping")
  | None => Ret tt
  end.

(** DeleteCanonicalHash *)
Definition DeleteCanonicalHash (number : Z) : Prog unit :=
  err <- delete (headerHashKey number) ;;
  match err with
  | Some _ => Stop (LogCrit "Failed to delete number to hash mapping")
  | None => Ret tt
  end.

(** ReadHeaderNumber: [None] is the nil pointer. *)
Definition ReadHeaderNumber (hash : Hash) : Prog (option Z) :=
  '(data, _) <- get (headerNumberKey hash) ;;
  if negb (len data =? 8) then Ret None
  else Ret (Some (BigEndian_Uint64 data)).

(** WriteHeaderNumber *)
Definition WriteHeaderNumber (hash : Hash) (number : Z) : Prog unit :=
  let key := headerNumberKey hash in
  let enc := encodeBlockNumber number in
  err <- put key enc ;;
  match err with
  | Some _ => Stop (LogCrit "Failed to store hash to number mapping")
  | None => Ret tt
  end.

(** DeleteHeaderNumber *)
Definition DeleteHeaderNumber (hash : Hash) : Prog unit :=
  err <- delete (headerNumberKey hash) ;;
  match err with
  | Some _ => Stop (LogCrit "Failed to delete hash to number mapping")
  | None => Ret tt
  end.

(** ReadHeadHeaderHash *)
Definition ReadHeadHeaderHash : Prog Hash :=
  '(data, _) <- get headHeaderKey ;;
  if len data =? 0 then Ret zeroHash else Ret (BytesToHash data).

(** WriteHeadHeaderHash *)
Definition WriteHeadHeaderHash (hash : Hash) : Prog unit :=
  err <- put headHeaderKey hash ;;
  match err with
  | Some _ => Stop (LogCrit "Failed to store last header's hash")
  | None => Ret tt
  end.

(** ReadHeadBlockHash *)
Definition ReadHeadBlockHash : Prog Hash :=
  '(data, _) <- get headBlockKey ;;
  if len data =? 0 then Ret zeroHash else Ret (BytesToHash data).

(** WriteHeadBlockHash *)
Definition WriteHeadBlockHash (hash : Hash) : Prog unit :=
  err <- put headBlockKey hash ;;
  match err with
  | Some _ => Stop (LogCrit "Failed to store last block's hash")
  | None => Ret tt
  end.

(** ReadHeadFastBlockHash *)
Definition ReadHeadFastBlockHash : Prog Hash :=
  '(data, _) <- get headFastBlockKey ;;
  if len data =? 0 then Ret zeroHash else Ret (BytesToHash data).

(** WriteHeadFastBlockHash *)
Definition WriteHeadFastBlockHash (hash : Hash) : Prog unit :=
  err <- put headFastBlockKey hash ;;
  match err with
  | Some _ => Stop (LogCrit "Failed to store last fast block's hash")
  | None => Ret tt
  end.

(** Leading zero bytes removed. *)
Fixpoint drop_zeros (b : bytes) : bytes :=
  match b with
  | [] => []
  | x :: r => if Z_of_byte x =? 0 then drop_zeros r else b
  end.

(** new(big.Int).SetUint64(count).Bytes(): the big-endian bytes of [count]
    without leading zeros (none at all for 0). *)
Definition big_SetUint64_Bytes (count : Z) : bytes := drop_zeros (be_encode 8 count).

(** new(big.Int).SetBytes(data).Uint64() *)
Definition big_SetBytes_Uint64 (data : bytes) : Z := big_Uint64 (be_decode data).

(** ReadFastTrieProgress *)
Definition ReadFastTrieProgress : Prog Z :=
  '(data, _) <- get fastTrieProgressKey ;;
  if len data =? 0 then Ret 0 else Ret (big_SetBytes_Uint64 data).

(** WriteFastTrieProgress *)
Definition WriteFastTrieProgress (count : Z) : Prog unit :=
  err <- put fastTrieProgressKey (big_SetUint64_Bytes count) ;;
  match err with
  | Some _ => Stop (LogCrit "Failed to store fast sync trie progress")
  | None => Ret tt
  end.

(** ReadTxIndexTail *)
Definition ReadTxIndexTail : Prog (option Z) :=
  '(data, _) <- get txIndexTailKey ;;
  if negb (len data =? 8) then Ret None
  else Ret (Some (BigEndian_Uint64 data)).

(** WriteTxIndexTail *)
Definition WriteTxIndexTail (number : Z) : Prog unit :=
  err <- put txIndexTailKey (encodeBlockNumber number) ;;
  match err with
  | Some _ => Stop (LogCrit "Failed to store the transaction index tail")
  | None => Ret tt
  end.

(** ReadFastTxLookupLimit *)
Definition ReadFastTxLookupLimit : Prog (option Z) :=
  '(data, _) <- get fastTxLookupLimitKey ;;
  if negb (len data =? 8) then Ret None
  else Ret (Some (BigEndian_Uint64 data)).

(** WriteFastTxLookupLimit *)
Definition WriteFastTxLookupLimit (number : Z) : Prog unit :=
  err <- put fastTxLookupLimitKey (encodeBlockNumber number) ;;
  match err with
  | Some _ => Stop (LogCrit "Failed to store transaction lookup limit for fast sync")
  | None => Ret tt
  end.

(** deleteHeaderWithoutNumber *)
Definition deleteHeaderWithoutNumber (hash : Hash) (number : Z) : Prog unit :=
  err <- delete (headerKey number hash) ;;
  match err with
  | Some _ => Stop (LogCrit "Failed to delete header")
  | None => Ret tt
  end.

(** DeleteHeader *)
Definition DeleteHeader (hash : Hash) (number : Z) : Prog unit :=
  _ <- deleteHeaderWithoutNumber hash number ;;
  err <- delete (headerNumberKey hash) ;;
  match err with
  | Some _ => Stop (LogCrit "Failed to delete hash to number mapping")
  | None => Ret tt
  end.

(** ReadCanonicalBodyRLP *)
Definition ReadCanonicalBodyRLP (number : Z) : Prog bytes :=
  '(data, _) <- ancient freezerBodiesTable number ;;
  if len data =? 0 then
    h <- ReadCanonicalHash number ;;
    '(data, _) <- get (blockBodyKey number h) ;;
    if len data =? 0 then
      '(data, _) <- ancient freezerBodiesTable number ;;
      Ret data
    else Ret data
  else Ret data.

(** WriteBodyRLP *)
Definition WriteBodyRLP (hash : Hash) (number : Z) (rlp : bytes) : Prog unit :=
  err <- put (blockBodyKey number hash) rlp ;;
  match err with
  | Some _ => Stop (LogCrit "Failed to store block body")
  | None => Ret tt
  end.

(** DeleteBody *)
Definition DeleteBody (hash : Hash) (number : Z) : Prog unit :=
  err <- delete (blockBodyKey number hash) ;;
  match err with
  | Some _ => Stop (LogCrit "Failed to delete block body")
  | None => Ret tt
  end.

(** DeleteTd *)
Definition DeleteTd (hash : Hash) (number : Z) : Prog unit :=
  err <- delete (headerTDKey number hash) ;;
  match err with
  | Some _ => Stop (LogCrit "Failed to delete block total difficulty")
  | None => Ret tt
  end.

(** DeleteReceipts *)
Definition DeleteReceipts (hash : Hash) (number : Z) : Prog unit :=
  err <- delete (blockReceiptsKey number hash) ;;
  match err with
  | Some _ => Stop (LogCrit "Failed to delete block receipts")
  | None => Ret tt
  end.

(** DeleteBlock *)
Definition DeleteBlock (hash : Hash) (number : Z) : Prog unit :=
  _ <- DeleteReceipts hash number ;;
  _ <- DeleteHeader hash number ;;
  _ <- DeleteBody hash number ;;
  DeleteTd hash number.

(** DeleteBlockWithoutNumber *)
Definition DeleteBlockWithoutNumber (hash : Hash) (number : Z) : Prog unit :=
  _ <- DeleteReceipts hash number ;;
  _ <- deleteHeaderWithoutNumber hash number ;;
  _ <- DeleteBody hash number ;;
  DeleteTd hash number.

(** uptimeKey = "uptime" + epoch number *)
Definition uptimeKey (epoch : Z) : bytes :=
  ["u"%byte; "p"%byte; "t"%byte; "i"%byte; "m"%byte; "e"%byte] ++ encodeBlockNumber epoch.
End ScalarStores.

Section EntityStores.
Context {schema : Schema} {keys : SchemaKeys} {types : Types} {enc : RlpEncode}.

(** ReadLastPivotNumber *)
Definition ReadLastPivotNumber : Prog (option Z) :=
  '(data, _) <- get lastPivotKey ;;
  if len data =? 0 then Ret None else
  match rlp_decode_uint64 data with
  | None => Ret None        (* log.Error("Invalid pivot block number in database") *)
  | Some pivot => Ret (Some pivot)
  end.

(** WriteLastPivotNumber *)
Definition WriteLastPivotNumber (pivot : Z) : Prog unit :=
  match EncodeToBytes_uint64 pivot with
  | None => Stop (LogCrit "Failed to encode pivot block number")
  | Some enc =>
      err <- put lastPivotKey enc ;;
      match err with
      | Some _ => Stop (LogCrit "Failed to store pivot block number")
      | None => Ret tt
      end
  end.

(** WriteHeader *)
Definition WriteHeader (header : Header) : Prog unit :=
  let hash := header_Hash header in
  let number := big_Uint64 (header_Number header) in
  _ <- WriteHeaderNumber hash number ;;
  match EncodeToBytes_Header header with
  | None => Stop (LogCrit "Failed to RLP encode header")
  | Some data =>
      let key := headerKey number hash in
      err <- put key data ;;
      match err with
      | Some _ => Stop (LogCrit "Failed to store header")
      | None => Ret tt
      end
  end.

(** WriteBody *)
Definition WriteBody (hash : Hash) (number : Z) (body : Body) : Prog unit :=
  match EncodeToBytes_Body body with
  | None => Stop (LogCrit "Failed to RLP encode body")
  | Some data => WriteBodyRLP hash number data
  end.

(** WriteTd *)
Definition WriteTd (hash : Hash) (number : Z) (td : Z) : Prog unit :=
  match EncodeToBytes_Td td with
  | None => Stop (LogCrit "Failed to RLP encode block total difficulty")
  | Some data =>
      err <- put (headerTDKey number hash) data ;;
      match err with
      | Some _ => Stop (LogCrit "Failed to store block total difficulty")
      | None => Ret tt
      end
  end.

(** WriteReceipts *)
Definition WriteReceipts (hash : Hash) (number : Z) (receipts : list Receipt) : Prog unit :=
  let storageReceipts := map (fun receipt => receipt) receipts in
  match EncodeToBytes_storageReceipts storageReceipts with
  | None => Stop (LogCrit "Failed to encode block receipts")
  | Some bytes_ =>
      err <- put (blockReceiptsKey number hash) bytes_ ;;
      match err with
      | Some _ => Stop (LogCrit "Failed to store block receipts")
      | None => Ret tt
      end
  end.

(** WriteBlock *)
Definition WriteBlock (block : Block) : Prog unit :=
  _ <- WriteBody (Block_Hash block) (Block_NumberU64 block) (Block_Body block) ;;
  WriteHeader (Block_Header block).

(** ReadHeadHeader *)
Definition ReadHeadHeader : Prog (option Header) :=
  headHeaderHash <- ReadHeadHeaderHash ;;
  if bytes_eqb headHeaderHash zeroHash then Ret None else
  headHeaderNumber <- ReadHeaderNumber headHeaderHash ;;
  match headHeaderNumber with
  | None => Ret None
  | Some number => ReadHeader headHeaderHash number
  end.

(** ReadHeadBlock *)
Definition ReadHeadBlock : Prog (option Block) :=
  headBlockHash <- ReadHeadBlockHash ;;
  if bytes_eqb headBlockHash zeroHash then Ret None else
  headBlockNumber <- ReadHeaderNumber headBlockHash ;;
  match headBlockNumber with
  | None => Ret None
  | Some number => ReadBlock headBlockHash number
  end.

(** WriteRandomCommitmentCache *)
Definition WriteRandomCommitmentCache (commitment parentHash : Hash) : Prog unit :=
  err <- put (RandomnessCommitmentDBLocation commitment) parentHash ;;
  match err with
  | Some _ => Stop (LogCrit "Failed to store randomness commitment cache entry")
  | None => Ret tt
  end.

(** ReadRandomCommitmentCache *)
Definition ReadRandomCommitmentCache (commitment : Hash) : Prog Hash :=
  '(parentHash, err) <- get (RandomnessCommitmentDBLocation commitment) ;;
  match err with
  | Some _ => Ret zeroHash  (* log.Warn *)
  | None => Ret (BytesToHash parentHash)
  end.

(** ReadAccumulatedEpochUptime *)
Definition ReadAccumulatedEpochUptime (epoch : Z) : Prog (option Uptime) :=
  '(data, _) <- get (uptimeKey epoch) ;;
  if len data =? 0 then Ret None else
  match rlp_decode_Uptime data with
  | None => Ret None        (* log.Error("Invalid uptime RLP") *)
  | Some uptime => Ret (Some uptime)
  end.

(** WriteAccumulatedEpochUptime *)
Definition WriteAccumulatedEpochUptime (epoch : Z) (uptime : Uptime) : Prog unit :=
  match EncodeToBytes_Uptime uptime with
  | None => Stop (LogCrit "Failed to RLP encode updated uptime")
  | Some data =>
      err <- put (uptimeKey epoch) data ;;
      match err with
      | Some _ => Stop (LogCrit "Failed to store updated uptime")
      | None => Ret tt
      end
  end.
End EntityStores.

(** * Notions used to state the properties of the further accessors *)

Section FurtherSpec.
Context {schema : Schema}.

(** The canonical hash of [number] as a quiescent store holds it: the item of
    the ancient hash table, else the live mapping, else the zero hash. *)
Definition canonical_hash_value (db : DB) (number : Z) : Hash :=
  let a := ancient_data db freezerHashTable number in
  if len a >? 0 then BytesToHash a
  else let l := live_data db (headerHashKey number) in
       if len l >? 0 then BytesToHash l else zeroHash.

(** The canonical hash [h] of [number] is held by at least one tier and
    neither tier holds another one. *)
Definition hash_held (db : DB) (number : Z) (h : bytes) : Prop :=
  (live_data db (headerHashKey number) = h \/ live_data db (headerHashKey number) = []) /\
  (ancient_data db freezerHashTable number = h \/
   ancient_data db freezerHashTable number = []) /\
  (live_data db (headerHashKey number) = h \/ ancient_data db freezerHashTable number = h).

(** The store state a program leaves behind on a quiescent store. *)
Definition after {A : Type} (db : DB) (p : Prog A) : DB := final (exec db p).

(** The block (hash, number) has no item of table [kind] in the ancient
    store that a read with the hash check would accept. *)
Definition not_frozen (db : DB) (kind : Table) (hash : Hash) (number : Z) : Prop :=
  ancient_data db kind number = [] \/
  BytesToHash (ancient_data db freezerHashTable number) <> hash.

(** A block number as a uint64. *)
Definition is_uint64 (n : Z) : Prop := 0 <= n < 2 ^ 64.

(** What a read without the hash check returns on a quiescent store: the
    ancient item, else the live value, else nothing. *)
Definition unverified_value (db : DB) (kind : Table) (key : bytes) (number : Z) : bytes :=
  let a := ancient_data db kind number in
  if len a >? 0 then a
  else let l := live_data db key in
       if len l >? 0 then l else [].

(** The deletions of the three records that are read with the hash check. *)
Definition delete_record (k : RecordKind) : Hash -> Z -> Prog unit :=
  match k with
  | BodyRecord => DeleteBody
  | ReceiptsRecord => DeleteReceipts
  | TdRecord => DeleteTd
  end.
End FurtherSpec.

(** The background process that moves the canonical hash of block 0 from the
    live store to the ancient hash table between the first and the second
    store call. *)
Definition bg_freeze_hash0 : nat -> DB -> DB :=
  fun j db =>
    if (j =? 1)%nat && (len (ancient_data db freezerHashTable 0) =? 0)
    then {| ancients := fun t => match t with
                                 | freezerHashTable => [hash1]
                                 | _ => ancients db t
                                 end;
            live := kv_delete (live db) (@headerHashKey geth_schema 0) |}
    else db.

(** A live store that holds only the canonical hash of block 0. *)
Definition db_canonical0 : DB :=
  {| ancients := empty_tables; live := [(@headerHashKey geth_schema 0, hash1)] |}.

(** The singleton keys go-ethereum's schema uses. *)
#[local] Instance geth_keys : SchemaKeys := {|
  headHeaderKey := list_byte_of_string "LastHeader";
  headBlockKey := list_byte_of_string "LastBlock";
  headFastBlockKey := list_byte_of_string "LastFast";
  lastPivotKey := list_byte_of_string "LastPivot";
  fastTrieProgressKey := list_byte_of_string "TrieSync";
  txIndexTailKey := list_byte_of_string "TransactionIndexTail";
  fastTxLookupLimitKey := list_byte_of_string "FastTransactionLookupLimit"
|}.

(** Encoders for the toy headers and bodies: the encodings of [toy_types],
    which never fail; a uint64 as a tag byte and its 8 bytes; an uptime record
    as a tagged byte string. *)
#[local] Instance toy_encode : @RlpEncode toy_types := {|
  EncodeToBytes_Header := fun h => Some (@rlp_encode_Header toy_types h);
  EncodeToBytes_Body := fun b => Some (@rlp_encode_Body toy_types b);
  EncodeToBytes_Td := fun td => Some (@rlp_encode_Td toy_types td);
  EncodeToBytes_storageReceipts := fun rs => Some (@rlp_encode_storageReceipts toy_types rs);
  EncodeToBytes_uint64 := fun n => Some ("136"%byte :: be_encode 8 n);
  rlp_decode_uint64 := fun b => match b with
                                | "136"%byte :: r =>
                                    if (length r =? 8)%nat then Some (be_decode r) else None
                                | _ => None
                                end;
  Uptime := bytes;
  EncodeToBytes_Uptime := fun u => Some ("192"%byte :: u);
  rlp_decode_Uptime := fun b => match b with
                                | "192"%byte :: u => Some u
                                | _ => None
                                end;
  RandomnessCommitmentDBLocation := fun h => list_byte_of_string "random" ++ h
|}.

(** Encoders that fail on every input, to run the writers' error paths. *)
#[local] Instance failing_encode : @RlpEncode toy_types := {|
  EncodeToBytes_Header := fun _ => None;
  EncodeToBytes_Body := fun _ => None;
  EncodeToBytes_Td := fun _ => None;
  EncodeToBytes_storageReceipts := fun _ => None;
  EncodeToBytes_uint64 := fun _ => None;
  rlp_decode_uint64 := fun _ => None;
  Uptime := bytes;
  EncodeToBytes_Uptime := fun _ => None;
  rlp_decode_Uptime := fun _ => None;
  RandomnessCommitmentDBLocation := fun h => list_byte_of_string "random" ++ h
|}.

Section BlockSpec.
Context {schema : Schema}.

(** The ancient store holds nothing that a read of block (hash, number) would
    return: no header item at the number, and no body, receipts or total
    difficulty under that hash. *)
Definition not_in_ancient (db : DB) (hash : Hash) (number : Z) : Prop :=
  ancient_data db freezerHeaderTable number = [] /\
  forall k : RecordKind, not_frozen db (record_table k) hash number.
End BlockSpec.

Section BadBlockReads.
Context {types : Types}.

(** The block ReadBadBlock and ReadAllBadBlocks make of a stored entry. *)
Definition block_of_badBlock (bad : badBlock Header Body) : Block :=
  NewBlockWithBody (bb_Header bad) (bb_Body bad).
End BadBlockReads.

(** Ten stored bad blocks, numbers 15 down to 6. *)
Definition db_ten_bad : DB :=
  @write_all geth_schema toy_types insertion_GoSort db_empty
             (map toy_block (count_from 6 10)).

Definition ten_bad : list (badBlock toy_Header bytes) :=
  map (@new_badBlock toy_types) (map toy_block [15; 14; 13; 12; 11; 10; 9; 8; 7; 6]).

(** The toy encoding of a list of bad blocks with empty bodies. *)
Definition toy_bad_data (l : list (badBlock toy_Header bytes)) : bytes :=
  match toy_encode_badBlocks l with
  | Some data => data
  | None => []
  end.

(** * Properties *)

(** ** Bytes *)

Lemma bytes_eqb_eq (a b : bytes) : bytes_eqb a b = true <-> a = b.
Proof.
  unfold bytes_eqb. destruct (bytes_eq_dec a b); split; congruence.
Qed.

Lemma bytes_eqb_refl (a : bytes) : bytes_eqb a a = true.
Proof. apply bytes_eqb_eq. reflexivity. Qed.

Lemma len_pos_nonempty {A : Type} (l : list A) : (len l >? 0) = true <-> l <> [].
Proof.
  unfold len. destruct l; cbn; split; intros; try congruence; try reflexivity;
    discriminate.
Qed.

Lemma len_pos_false {A : Type} (l : list A) : (len l >? 0) = false <-> l = [].
Proof.
  unfold len. destruct l; cbn; split; intros; try congruence; try reflexivity;
    discriminate.
Qed.

Lemma len_zero_nil {A : Type} (l : list A) : (len l =? 0) = true <-> l = [].
Proof.
  unfold len. destruct l; cbn; split; intros; try reflexivity; discriminate.
Qed.

(** ** Running programs *)

Lemma run_bind {A B : Type} (p : Prog A) (f : A -> Prog B) :
  forall (bg : nat -> DB -> DB) (i : nat) (db : DB),
  run bg i db (bind p f) =
  let r := run bg i db p in
  match outcome r with
  | Done a =>
      let r' := run bg (i + length (trace r)) (final r) (f a) in
      {| outcome := outcome r'; final := final r'; trace := trace r ++ trace r' |}
  | Halted x => {| outcome := Halted x; final := final r; trace := trace r |}
  end.
Proof.
  induction p as [a | x | t n k IH | key k IH | key k IH | pr st k IH
                 | key v k IH | key k IH]; intros bg i db; cbn.
  - rewrite Nat.add_0_r. destruct (run bg i db (f a)); reflexivity.
  - reflexivity.
  - rewrite IH. cbn. destruct (outcome _); cbn;
      rewrite ?Nat.add_succ_r; reflexivity.
  - rewrite IH. cbn. destruct (outcome _); cbn;
      rewrite ?Nat.add_succ_r; reflexivity.
  - rewrite IH. cbn. destruct (outcome _); cbn;
      rewrite ?Nat.add_succ_r; reflexivity.
  - rewrite IH. cbn. destruct (outcome _); cbn;
      rewrite ?Nat.add_succ_r; reflexivity.
  - rewrite IH. cbn. destruct (outcome _); cbn;
      rewrite ?Nat.add_succ_r; reflexivity.
  - rewrite IH. cbn. destruct (outcome _); cbn;
      rewrite ?Nat.add_succ_r; reflexivity.
Qed.

Lemma outcome_bind {A B : Type} (p : Prog A) (f : A -> Prog B)
      (bg : nat -> DB -> DB) (i : nat) (db : DB) :
  outcome (run bg i db (bind p f)) =
  match outcome (run bg i db p) with
  | Done a => outcome (run bg (i + length (trace (run bg i db p)))
                           (final (run bg i db p)) (f a))
  | Halted x => Halted x
  end.
Proof.
  rewrite run_bind. cbv zeta. destruct (outcome (run bg i db p)); reflexivity.
Qed.

(** ** The two-tier read path *)

Section ReadPath.
Context {schema : Schema}.

Lemma read_record_three_probes (k : RecordKind) (hash : Hash) (number : Z)
      (bg : nat -> DB -> DB) (i : nat) (db : DB) :
  run bg i db (read_record k hash number) =
  three_probes bg i db (record_table k) (record_key k number hash) hash number.
Proof.
  unfold three_probes, probe_ancient, probe_live, ancient_data, live_data.
  destruct k; cbn -[db_Ancient db_Get BytesToHash len Z.gtb];
    repeat (match goal with
            | H : db_Ancient ?s ?t ?n = _ |- context [db_Ancient ?s ?t ?n] =>
                rewrite H; cbn -[db_Ancient db_Get BytesToHash len Z.gtb]
            | H : db_Get ?s ?key = _ |- context [db_Get ?s ?key] =>
                rewrite H; cbn -[db_Ancient db_Get BytesToHash len Z.gtb]
            | H : ?c = _ |- context [if ?c then _ else _] =>
                rewrite H; cbn -[db_Ancient db_Get BytesToHash len Z.gtb]
            | |- context [db_Ancient ?s ?t ?n] =>
                let d := fresh "d" in let e := fresh "e" in
                destruct (db_Ancient s t n) as [d e] eqn:?;
                cbn -[db_Ancient db_Get BytesToHash len Z.gtb]
            | |- context [db_Get ?s ?key] =>
                let d := fresh "d" in let e := fresh "e" in
                destruct (db_Get s key) as [d e] eqn:?;
                cbn -[db_Ancient db_Get BytesToHash len Z.gtb]
            | |- context [if len ?d >? 0 then _ else _] =>
                destruct (len d >? 0) eqn:?;
                cbn -[db_Ancient db_Get BytesToHash len Z.gtb]
            | |- context [if bytes_eqb ?a ?b then _ else _] =>
                destruct (bytes_eqb a b) eqn:?;
                cbn -[db_Ancient db_Get BytesToHash len Z.gtb]
            end); try reflexivity; try congruence.
Qed.

Lemma record_table_payload (k : RecordKind) :
  match record_table k with freezerHashTable => false | _ => true end = true.
Proof. destruct k; reflexivity. Qed.

Lemma three_probes_calls (k : RecordKind) (hash : Hash) (number : Z)
      (bg : nat -> DB -> DB) (i : nat) (db : DB) :
  let kind := record_table k in
  let key := record_key k number hash in
  let r := three_probes bg i db kind key hash number in
  is_prefix (payload_calls (trace r))
            [CallAncient kind number; CallGet key; CallAncient kind number]
  /\ (outcome r = Done [] ->
      payload_calls (trace r) =
      [CallAncient kind number; CallGet key; CallAncient kind number]).
Proof.
  cbv zeta. unfold three_probes, probe_ancient, probe_live, is_prefix.
  destruct k; cbn [record_table record_key];
    repeat match goal with
           | |- context [if ?c then _ else _] => destruct c eqn:?
           end;
    cbn;
    (split;
     [eexists; reflexivity
     | intros H; try reflexivity; inversion H as [H']; rewrite H' in *; discriminate]).
Qed.

(** A record held by either tier throughout the call is found, whatever the
    background process does in between, as long as it keeps the record held,
    never removes it from the ancient tier and only appends to the ancient
    table. *)
Lemma three_probes_held (kind : Table) (key : bytes) (hash : Hash) (number : Z)
      (bg : nat -> DB -> DB) (i : nat) (db : DB) (d : bytes) :
  d <> [] ->
  (forall j s, record_held s kind key hash number d ->
               record_held (bg j s) kind key hash number d) ->
  (forall j s, in_ancient s kind hash number d ->
               in_ancient (bg j s) kind hash number d) ->
  append_only bg kind number ->
  record_held db kind key hash number d ->
  outcome (three_probes bg i db kind key hash number) = Done d.
Proof.
  intros Hd Hheld Hanc Happ H0.
  assert (Hne : (len d >? 0) = true) by (apply len_pos_nonempty; exact Hd).
  assert (He : (len (@nil byte) >? 0) = false) by reflexivity.
  (* a verified ancient probe from a state holding the record finds it or
     misses; when the record is in the ancient tier it finds it *)
  assert (Hprobe : forall j s,
             record_held s kind key hash number d ->
             let '(r, s', j', _) := probe_ancient bg j s kind hash number in
             record_held s' kind key hash number d /\
             (r = Some d \/ (r = None /\ ~ in_ancient (bg j s) kind hash number d))).
  { intros j s Hs. unfold probe_ancient.
    pose proof (Hheld j s Hs) as H1.
    destruct (len (ancient_data (bg j s) kind number) >? 0) eqn:E1.
    - pose proof (Hheld (S j) _ H1) as H2.
      apply len_pos_nonempty in E1.
      pose proof (Happ (S j) (bg j s) _ E1 eq_refl) as Hsame.
      destruct (bytes_eqb _ hash) eqn:E2.
      + apply bytes_eqb_eq in E2. split; [exact H2|]. left.
        destruct H2 as (_ & [[Hdat _] | [Hnil | Hmis]] & _).
        * congruence.
        * rewrite Hnil in Hsame. symmetry in Hsame. contradiction.
        * contradiction.
      + split; [exact H2|]. right. split; [reflexivity|].
        intros Hin. pose proof (Hanc (S j) _ Hin) as [_ Hh].
        rewrite Hh, bytes_eqb_refl in E2. discriminate.
    - split; [exact H1|]. right. split; [reflexivity|].
      intros [Hdat _]. apply len_pos_false in E1. congruence. }
  unfold three_probes.
  pose proof (Hprobe i db H0) as P1.
  destruct (probe_ancient bg i db kind hash number) as [[[r1 s1] j1] tr1].
  destruct P1 as [Hs1 [Hr1 | [Hr1 _]]]; subst r1; [reflexivity|].
  unfold probe_live.
  pose proof (Hheld j1 s1 Hs1) as Hs2.
  destruct Hs2 as (Hlive & Hancok & Hpres).
  destruct Hlive as [Hl | Hl]; rewrite Hl; [rewrite Hne; reflexivity|].
  rewrite He.
  destruct Hpres as [Hl' | Hin]; [congruence|].
  assert (Hs2 : record_held (bg j1 s1) kind key hash number d) by (apply Hheld; exact Hs1).
  pose proof (Hprobe (S j1) (bg j1 s1) Hs2) as P3.
  destruct (probe_ancient bg (S j1) (bg j1 s1) kind hash number) as [[[r3 s3] j3] tr3].
  destruct P3 as [_ [Hr3 | [_ Hnot]]]; [subst r3; reflexivity|].
  exfalso. apply Hnot. apply Hanc. exact Hin.
Qed.

Lemma three_probes_idle (kind : Table) (key : bytes) (hash : Hash) (number : Z) (db : DB) :
  outcome (three_probes idle 0 db kind key hash number) =
  Done (two_tier_value db kind key hash number).
Proof.
  unfold three_probes, probe_ancient, probe_live, two_tier_value, idle.
  repeat match goal with
         | |- context [if ?c then _ else _] => destruct c eqn:?
         end; cbn in *; try reflexivity; discriminate.
Qed.

(** C1.  Every read of a body, receipt list or total difficulty by
    (hash, number) is the three-probe read path: the ancient table at
    [number], accepted only when the canonical hash stored at [number] is the
    requested one; on a miss the live store under the hash-qualified key; on a
    miss the ancient store again with the same check.  The payload probes
    therefore occur in the order ancient, live, ancient; the read returns
    nothing only after all three; a record held by either tier throughout the
    call is returned whatever the background process does in between; and on a
    quiescent store the ancient item wins over the live value. *)
Theorem read_record_two_tier (k : RecordKind) (hash : Hash) (number : Z)
        (bg : nat -> DB -> DB) (i : nat) (db : DB) :
  let kind := record_table k in
  let key := record_key k number hash in
  let r := run bg i db (read_record k hash number) in
  r = three_probes bg i db kind key hash number
  /\ is_prefix (payload_calls (trace r))
               [CallAncient kind number; CallGet key; CallAncient kind number]
  /\ (outcome r = Done [] ->
      payload_calls (trace r) =
      [CallAncient kind number; CallGet key; CallAncient kind number])
  /\ (forall d : bytes,
        d <> [] ->
        (forall j s, record_held s kind key hash number d ->
                     record_held (bg j s) kind key hash number d) ->
        (forall j s, in_ancient s kind hash number d ->
                     in_ancient (bg j s) kind hash number d) ->
        append_only bg kind number ->
        record_held db kind key hash number d ->
        outcome r = Done d)
  /\ result db (read_record k hash number) = Done (two_tier_value db kind key hash number).
Proof.
  cbv zeta. rewrite read_record_three_probes.
  split; [reflexivity|].
  split; [apply three_probes_calls|].
  split; [apply three_probes_calls|].
  split.
  - intros d Hd Hheld Hanc Happ H0. apply three_probes_held; assumption.
  - unfold result, exec. rewrite read_record_three_probes. apply three_probes_idle.
Qed.
End ReadPath.

Lemma read_record_two_tier_witness :
  outcome (run bg_freeze_block0 0 db_live_block0 (read_record BodyRecord hash1 0)) =
  Done ["192"%byte; "007"%byte].
Proof.
  apply (proj1 (proj2 (proj2 (proj2
           (read_record_two_tier BodyRecord hash1 0 bg_freeze_block0 0 db_live_block0))))).
  - discriminate.
  - intros j s H. unfold bg_freeze_block0.
    destruct ((j =? 1)%nat && _); [|exact H].
    vm_compute. auto 6.
  - intros j s H. unfold bg_freeze_block0.
    destruct ((j =? 1)%nat && _); [|exact H].
    vm_compute. auto.
  - intros j s x Hx H. cbn [record_table] in H. unfold bg_freeze_block0.
    destruct (len (ancient_data s freezerBodiesTable 0) =? 0) eqn:E;
      [|rewrite andb_false_r; exact H].
    apply len_zero_nil in E. congruence.
  - vm_compute. auto 6.
Defined.

(** ** Existence checks *)

Section HasPath.
Context {schema : Schema}.

Lemma has_record_run (k : HasKind) (hash : Hash) (number : Z)
      (bg : nat -> DB -> DB) (i : nat) (db : DB) :
  run bg i db (has_record k hash number) =
  let s1 := bg i db in
  if has_ancient s1 hash number
  then {| outcome := Done true; final := s1;
          trace := [CallAncient freezerHashTable number] |}
  else
    let s2 := bg (S i) s1 in
    {| outcome := Done (fst (db_Has s2 (has_key k number hash))); final := s2;
       trace := [CallAncient freezerHashTable number;
                 CallHas (has_key k number hash)] |}.
Proof.
  unfold has_ancient.
  destruct k; cbn -[db_Ancient db_Has BytesToHash];
    destruct (db_Ancient (bg i db) freezerHashTable number) as [h [e|]];
    cbn -[db_Ancient db_Has BytesToHash];
    try destruct (bytes_eqb (BytesToHash h) hash);
    cbn -[db_Ancient db_Has BytesToHash];
    try reflexivity;
    unfold db_Has; destruct (kv_get _ _); reflexivity.
Qed.

(** HasHeader, HasBody and HasReceipts make at most two store calls: the
    canonical-hash table, then the live store.  The ancient store is not
    probed again. *)
Lemma has_record_two_calls (k : HasKind) (hash : Hash) (number : Z)
      (bg : nat -> DB -> DB) (i : nat) (db : DB) :
  (length (trace (run bg i db (has_record k hash number))) <= 2)%nat.
Proof.
  rewrite has_record_run. cbv zeta.
  destruct (has_ancient _ _ _); cbn; lia.
Qed.
End HasPath.

(** C2 (the code departs from the claim).  The header, body and receipts of
    block (hash1, 0) are in the live store; the freezer moves the block to the
    ancient store between the first and second store call.  The block is held
    by one of the tiers at every moment, and an existence check with the
    repeated ancient probe answers true; HasHeader, HasBody and HasReceipts
    answer false after two calls. *)
Theorem has_record_misses_frozen_block (k : HasKind) :
  let bg := freeze_at 1 0 hash1 in
  let r := run bg 0 db_live_block0 (has_record k hash1 0) in
  outcome r = Done false
  /\ trace r = [CallAncient freezerHashTable 0; CallHas (has_key k 0 hash1)]
  /\ fst (db_Has (bg 0%nat db_live_block0) (has_key k 0 hash1)) = true
  /\ has_ancient (bg 1%nat (bg 0%nat db_live_block0)) hash1 0 = true
  /\ three_probe_has bg 0 db_live_block0 (has_key k 0 hash1) hash1 0 = true
  /\ outcome (run bg 0 db_live_block0 (ReadHeaderRLP hash1 0)) =
     Done ["000"%byte; "000"%byte; "001"%byte].
Proof.
  destruct k; vm_compute; repeat split; reflexivity.
Qed.

(** ** Decoded reads *)

Section DecodedReads.
Context {schema : Schema} {types : Types}.

Lemma ReadHeaderRLP_three_probes (hash : Hash) (number : Z)
      (bg : nat -> DB -> DB) (i : nat) (db : DB) :
  run bg i db (ReadHeaderRLP hash number) =
  three_probes_unverified bg i db freezerHeaderTable (headerKey number hash) number.
Proof.
  unfold three_probes_unverified, ReadHeaderRLP, ancient_data, live_data.
  cbn -[db_Ancient db_Get len Z.gtb].
  destruct (db_Ancient (bg i db) freezerHeaderTable number) as [d e].
  cbn -[db_Ancient db_Get len Z.gtb].
  destruct (len d >? 0) eqn:E; [reflexivity|].
  cbn -[db_Ancient db_Get len Z.gtb].
  destruct (db_Get _ _) as [d1 e1]. cbn -[db_Ancient db_Get len Z.gtb].
  destruct (len d1 >? 0); [reflexivity|].
  cbn -[db_Ancient db_Get len Z.gtb].
  destruct (db_Ancient _ _ _) as [d2 e2]. cbn -[db_Ancient db_Get len Z.gtb].
  destruct (len d2 >? 0); reflexivity.
Qed.

Lemma ReadHeaderRLP_run (hash : Hash) (number : Z) (bg : nat -> DB -> DB) (i : nat) (db : DB) :
  exists data, outcome (run bg i db (ReadHeaderRLP hash number)) = Done data.
Proof.
  rewrite ReadHeaderRLP_three_probes. unfold three_probes_unverified.
  repeat match goal with
         | |- context [if ?c then _ else _] => destruct c
         end; eexists; reflexivity.
Qed.

Lemma ReadHeader_outcome (hash : Hash) (number : Z) (bg : nat -> DB -> DB) (i : nat) (db : DB) :
  outcome (run bg i db (ReadHeader hash number)) =
  match outcome (run bg i db (ReadHeaderRLP hash number)) with
  | Done data => Done (if len data =? 0 then None else rlp_decode_Header data)
  | Halted f => Halted f
  end.
Proof.
  unfold ReadHeader. rewrite outcome_bind.
  destruct (outcome (run bg i db (ReadHeaderRLP hash number))) as [data|f]; [|reflexivity].
  destruct (len data =? 0); [reflexivity|].
  destruct (rlp_decode_Header data); reflexivity.
Qed.

Lemma ReadBody_outcome (hash : Hash) (number : Z) (bg : nat -> DB -> DB) (i : nat) (db : DB) :
  outcome (run bg i db (ReadBody hash number)) =
  match outcome (run bg i db (ReadBodyRLP hash number)) with
  | Done data => Done (if len data =? 0 then None else rlp_decode_Body data)
  | Halted f => Halted f
  end.
Proof.
  unfold ReadBody. rewrite outcome_bind.
  destruct (outcome (run bg i db (ReadBodyRLP hash number))) as [data|f]; [|reflexivity].
  destruct (len data =? 0); [reflexivity|].
  destruct (rlp_decode_Body data); reflexivity.
Qed.

Lemma ReadTd_outcome (hash : Hash) (number : Z) (bg : nat -> DB -> DB) (i : nat) (db : DB) :
  outcome (run bg i db (ReadTd hash number)) =
  match outcome (run bg i db (ReadTdRLP hash number)) with
  | Done data => Done (if len data =? 0 then None else rlp_decode_Td data)
  | Halted f => Halted f
  end.
Proof.
  unfold ReadTd. rewrite outcome_bind.
  destruct (outcome (run bg i db (ReadTdRLP hash number))) as [data|f]; [|reflexivity].
  destruct (len data =? 0); [reflexivity|].
  destruct (rlp_decode_Td data); reflexivity.
Qed.

Lemma ReadRawReceipts_outcome (hash : Hash) (number : Z) (bg : nat -> DB -> DB) (i : nat)
      (db : DB) :
  outcome (run bg i db (ReadRawReceipts hash number)) =
  match outcome (run bg i db (ReadReceiptsRLP hash number)) with
  | Done data => Done (if len data =? 0 then None else rlp_decode_storageReceipts data)
  | Halted f => Halted f
  end.
Proof.
  unfold ReadRawReceipts. rewrite outcome_bind.
  destruct (outcome (run bg i db (ReadReceiptsRLP hash number))) as [data|f]; [|reflexivity].
  destruct (len data =? 0); [reflexivity|].
  destruct (rlp_decode_storageReceipts data); [|reflexivity].
  cbn. rewrite map_id. reflexivity.
Qed.

Lemma read_record_done (k : RecordKind) (hash : Hash) (number : Z)
      (bg : nat -> DB -> DB) (i : nat) (db : DB) :
  exists data, outcome (run bg i db (read_record k hash number)) = Done data.
Proof.
  rewrite read_record_three_probes.
  unfold three_probes, probe_ancient, probe_live.
  repeat match goal with
         | |- context [if ?c then _ else _] => destruct c
         end; eexists; reflexivity.
Qed.

Lemma masks_corruption_intro {T : Type} (raw : Prog bytes) (read : Prog (option T))
      (decode : bytes -> option T) (bg : nat -> DB -> DB) (i : nat) (db : DB) :
  (exists data, outcome (run bg i db raw) = Done data) ->
  outcome (run bg i db read) =
  match outcome (run bg i db raw) with
  | Done data => Done (if len data =? 0 then None else decode data)
  | Halted f => Halted f
  end ->
  masks_corruption raw read decode bg i db.
Proof.
  intros [data0 H0] Hread. unfold masks_corruption. rewrite Hread, H0.
  split; [|split].
  - intros H. inversion H. reflexivity.
  - intros data H Hdec. inversion H; subst.
    destruct (len data =? 0); [reflexivity | rewrite Hdec; reflexivity].
  - eexists; reflexivity.
Qed.

Lemma ancient_data_empty (kind : Table) (number : Z) : ancient_data db_empty kind number = [].
Proof.
  unfold ancient_data, db_Ancient, db_empty, empty_tables. cbn.
  destruct (Z.to_nat number); reflexivity.
Qed.

Lemma read_record_empty (k : RecordKind) (hash : Hash) (number : Z) :
  result db_empty (read_record k hash number) = Done [].
Proof.
  unfold result, exec. rewrite read_record_three_probes, three_probes_idle.
  unfold two_tier_value. rewrite ancient_data_empty. reflexivity.
Qed.

Lemma ReadHeaderRLP_empty (hash : Hash) (number : Z) :
  result db_empty (ReadHeaderRLP hash number) = Done [].
Proof.
  unfold result, exec. rewrite ReadHeaderRLP_three_probes.
  unfold three_probes_unverified, idle. rewrite ancient_data_empty. reflexivity.
Qed.

Lemma decoded_empty {T : Type} (raw : Prog bytes) (read : Prog (option T))
      (decode : bytes -> option T) :
  result db_empty raw = Done [] ->
  masks_corruption raw read decode idle 0 db_empty ->
  result db_empty read = Done None.
Proof.
  intros Hraw (H & _ & _). apply H. exact Hraw.
Qed.

(** C9.  For the header, body, receipt and total-difficulty readers, a stored
    value that fails to decode gives the nil result, the very result of a key
    that was never stored; the readers return no error value and never halt,
    so the return value does not tell missing from corrupt. *)
Theorem corrupt_record_reads_as_absent (hash : Hash) (number : Z)
        (bg : nat -> DB -> DB) (i : nat) (db : DB) :
  (masks_corruption (ReadHeaderRLP hash number) (ReadHeader hash number)
                    rlp_decode_Header bg i db
   /\ result db_empty (ReadHeader hash number) = Done None)
  /\ (masks_corruption (ReadBodyRLP hash number) (ReadBody hash number)
                       rlp_decode_Body bg i db
      /\ result db_empty (ReadBody hash number) = Done None)
  /\ (masks_corruption (ReadReceiptsRLP hash number) (ReadRawReceipts hash number)
                       rlp_decode_storageReceipts bg i db
      /\ result db_empty (ReadRawReceipts hash number) = Done None)
  /\ (masks_corruption (ReadTdRLP hash number) (ReadTd hash number)
                       rlp_decode_Td bg i db
      /\ result db_empty (ReadTd hash number) = Done None).
Proof.
  assert (Hh : forall bg i db,
             masks_corruption (ReadHeaderRLP hash number) (ReadHeader hash number)
                              rlp_decode_Header bg i db).
  { intros. apply masks_corruption_intro;
      [apply ReadHeaderRLP_run | apply ReadHeader_outcome]. }
  assert (Hb : forall bg i db,
             masks_corruption (ReadBodyRLP hash number) (ReadBody hash number)
                              rlp_decode_Body bg i db).
  { intros. apply masks_corruption_intro;
      [apply (read_record_done BodyRecord) | apply ReadBody_outcome]. }
  assert (Hr : forall bg i db,
             masks_corruption (ReadReceiptsRLP hash number) (ReadRawReceipts hash number)
                              rlp_decode_storageReceipts bg i db).
  { intros. apply masks_corruption_intro;
      [apply (read_record_done ReceiptsRecord) | apply ReadRawReceipts_outcome]. }
  assert (Ht : forall bg i db,
             masks_corruption (ReadTdRLP hash number) (ReadTd hash number)
                              rlp_decode_Td bg i db).
  { intros. apply masks_corruption_intro;
      [apply (read_record_done TdRecord) | apply ReadTd_outcome]. }
  repeat (split; [split; [solve [auto]|] |]); [| | | split; [solve [auto]|]].
  - eapply decoded_empty; [apply ReadHeaderRLP_empty | apply Hh].
  - eapply decoded_empty; [apply (read_record_empty BodyRecord) | apply Hb].
  - eapply decoded_empty; [apply (read_record_empty ReceiptsRecord) | apply Hr].
  - eapply decoded_empty; [apply (read_record_empty TdRecord) | apply Ht].
Qed.

(** C10.  The header read does not compare hashes: when the ancient header
    table holds data at [number], ReadHeaderRLP returns that data whatever the
    requested hash, and ReadHeader returns the header it decodes to. *)
Theorem ReadHeader_ancient_ignores_hash (hash : Hash) (number : Z)
        (bg : nat -> DB -> DB) (i : nat) (db : DB) (data : bytes) :
  ancient_data (bg i db) freezerHeaderTable number = data ->
  data <> [] ->
  outcome (run bg i db (ReadHeaderRLP hash number)) = Done data /\
  outcome (run bg i db (ReadHeader hash number)) = Done (rlp_decode_Header data).
Proof.
  intros Ha Hne.
  assert (H : outcome (run bg i db (ReadHeaderRLP hash number)) = Done data).
  { rewrite ReadHeaderRLP_three_probes. unfold three_probes_unverified.
    rewrite Ha. apply len_pos_nonempty in Hne. rewrite Hne. reflexivity. }
  split; [exact H|].
  rewrite ReadHeader_outcome, H.
  destruct (len data =? 0) eqn:E; [|reflexivity].
  apply len_zero_nil in E. contradiction.
Qed.
End DecodedReads.

Lemma corrupt_record_reads_as_absent_witness :
  result db_corrupt_block0 (ReadHeader hash1 0) = Done None /\
  result db_corrupt_block0 (ReadBody hash1 0) = Done None /\
  result db_corrupt_block0 (ReadRawReceipts hash1 0) = Done None /\
  result db_corrupt_block0 (ReadTd hash1 0) = Done None.
Proof.
  destruct (corrupt_record_reads_as_absent hash1 0 idle 0 db_corrupt_block0)
    as ((Hh & _) & (Hb & _) & (Hr & _) & (Ht & _)).
  split; [|split; [|split]].
  - apply (proj1 (proj2 Hh) ["009"%byte]); reflexivity.
  - apply (proj1 (proj2 Hb) ["009"%byte]); reflexivity.
  - apply (proj1 (proj2 Hr) ["009"%byte]); reflexivity.
  - apply (proj1 (proj2 Ht) ["009"%byte; "009"%byte]); reflexivity.
Defined.

Lemma ReadHeader_ancient_ignores_hash_witness :
  result db_frozen_block0 (ReadHeader hash2 0) =
  Done (Some ("000"%byte, "000"%byte, "001"%byte)) /\
  header_Hash ("000"%byte, "000"%byte, "001"%byte) <> hash2.
Proof.
  split.
  - refine (proj2 (ReadHeader_ancient_ignores_hash hash2 0 idle 0 db_frozen_block0
                     ["000"%byte; "000"%byte; "001"%byte] _ _)).
    + reflexivity.
    + discriminate.
  - discriminate.
Defined.

(** ** Log metadata *)

Section LogFields.
Context {schema : Schema} {types : Types}.

Lemma count_from_app (first : Z) (a b : nat) :
  count_from first (a + b) = count_from first a ++ count_from (first + Z.of_nat a) b.
Proof.
  revert first. induction a as [|a IH]; intros first.
  - cbn. f_equal. lia.
  - cbn [Nat.add count_from app]. rewrite IH. do 3 f_equal. lia.
Qed.

Lemma count_from_length (first : Z) (n : nat) : length (count_from first n) = n.
Proof. revert first. induction n; intros; cbn; auto. Qed.

Lemma deriveLogs_spec (logs : list Log) (number : Z) (hash txHash : Hash) (txIndex : Z) :
  forall logIndex : Z,
  0 <= logIndex -> logIndex + len logs < 2 ^ 64 ->
  exists logs',
    deriveLogs logs number hash txHash txIndex logIndex = (logs', logIndex + len logs) /\
    map log_payload logs' = map log_payload logs /\
    map Index logs' = count_from logIndex (length logs) /\
    Forall (log_context number hash txHash txIndex) logs'.
Proof.
  induction logs as [|l logs IH]; intros logIndex H0 Hlt.
  - exists []. cbn. unfold len. cbn. rewrite Z.add_0_r. repeat split; constructor.
  - assert (Hlen : len (l :: logs) = 1 + len logs) by (unfold len; cbn [length]; lia).
    rewrite Hlen in *.
    assert (Hw : wrap64 (logIndex + 1) = logIndex + 1).
    { unfold wrap64. apply Z.mod_small. unfold len in *. lia. }
    destruct (IH (logIndex + 1)) as (logs' & He & Hp & Hi & Hc); [lia | lia |].
    eexists. cbn [deriveLogs]. rewrite Hw, He. split; [f_equal; lia|].
    split; [|split].
    + cbn [map]. rewrite Hp. reflexivity.
    + cbn [map length count_from Index]. rewrite Hi. reflexivity.
    + constructor; [|exact Hc]. repeat split.
Qed.

Lemma all_logs_cons (r : receiptLogs) (rs : list receiptLogs) :
  all_logs (r :: rs) = Logs r ++ all_logs rs.
Proof. reflexivity. Qed.

Lemma all_logs_app (rs rs' : list receiptLogs) :
  all_logs (rs ++ rs') = all_logs rs ++ all_logs rs'.
Proof. unfold all_logs. rewrite map_app, concat_app. reflexivity. Qed.

Lemma deriveTxLogs_spec (txs : list Transaction) (number : Z) (hash : Hash) :
  forall (receipts : list receiptLogs) (i logIndex : Z),
  (length txs <= length receipts)%nat ->
  0 <= logIndex ->
  logIndex + len (all_logs (firstn (length txs) receipts)) < 2 ^ 64 ->
  exists done,
    deriveTxLogs txs receipts number hash i logIndex =
      Some (done, skipn (length txs) receipts,
            logIndex + len (all_logs (firstn (length txs) receipts))) /\
    receipts_payload done = receipts_payload (firstn (length txs) receipts) /\
    map Index (all_logs done) =
      count_from logIndex (length (all_logs (firstn (length txs) receipts))) /\
    Forall2 (attributed number hash)
            (combine (map tx_Hash txs) (count_from i (length txs))) done.
Proof.
  induction txs as [|tx txs IH]; intros receipts i logIndex Hlen H0 Hlt.
  - exists []. cbn. unfold len. cbn. rewrite Z.add_0_r. repeat split; constructor.
  - destruct receipts as [|r receipts]; [cbn in Hlen; lia|].
    cbn [length firstn skipn] in *. rewrite all_logs_cons in *.
    assert (Hl : len (Logs r ++ all_logs (firstn (length txs) receipts)) =
                 len (Logs r) + len (all_logs (firstn (length txs) receipts))).
    { unfold len. rewrite length_app. lia. }
    rewrite Hl in *.
    assert (Hpos : 0 <= len (all_logs (firstn (length txs) receipts))) by (unfold len; lia).
    assert (Hpos' : 0 <= len (Logs r)) by (unfold len; lia).
    destruct (deriveLogs_spec (Logs r) number hash (tx_Hash tx) i logIndex)
      as (logs' & He & Hp & Hi & Hc); [lia | lia |].
    destruct (IH receipts (i + 1) (logIndex + len (Logs r)))
      as (done & Hd & Hdp & Hdi & Hda); [lia | lia | lia |].
    exists ({| Logs := logs' |} :: done).
    cbn [deriveTxLogs]. rewrite He, Hd.
    split; [do 2 f_equal; lia|].
    split; [|split].
    + cbn [receipts_payload map Logs]. f_equal; [exact Hp | exact Hdp].
    + rewrite all_logs_cons. cbn [Logs]. rewrite map_app, Hi, Hdi.
      rewrite length_app, count_from_app. reflexivity.
    + cbn [map count_from combine]. constructor; [exact Hc | exact Hda].
Qed.

Lemma deriveTxLogs_total (txs : list Transaction) (number : Z) (hash : Hash) :
  forall (receipts : list receiptLogs) (i logIndex : Z),
  (length txs <= length receipts)%nat ->
  exists done logIndex',
    deriveTxLogs txs receipts number hash i logIndex =
      Some (done, skipn (length txs) receipts, logIndex').
Proof.
  induction txs as [|tx txs IH]; intros receipts i logIndex Hlen.
  - exists [], logIndex. reflexivity.
  - destruct receipts as [|r receipts]; [cbn in Hlen; lia|].
    cbn [deriveTxLogs length skipn].
    destruct (deriveLogs (Logs r) number hash (tx_Hash tx) i logIndex) as [logs' li].
    destruct (IH receipts (i + 1) li) as (done & li' & Hd); [cbn in Hlen; lia|].
    rewrite Hd. eexists _, _. reflexivity.
Qed.

Lemma count_check (txs : list Transaction) (receipts : list receiptLogs) :
  ((len txs =? len receipts) || (len txs + 1 =? len receipts)) = true <->
  (length receipts = length txs \/ length receipts = S (length txs)).
Proof.
  unfold len. rewrite orb_true_iff, !Z.eqb_eq. lia.
Qed.

Lemma deriveLogFields_count (receipts : list receiptLogs) (hash : Hash) (number : Z)
      (txs : list Transaction) :
  ((exists receipts', deriveLogFields receipts hash number txs = Done (receipts', None)) <->
   (length receipts = length txs \/ length receipts = S (length txs))) /\
  (~ (length receipts = length txs \/ length receipts = S (length txs)) ->
   deriveLogFields receipts hash number txs =
   Done (receipts, Some "transaction and receipt count mismatch"%string)).
Proof.
  unfold deriveLogFields.
  destruct ((len txs =? len receipts) || (len txs + 1 =? len receipts)) eqn:E; cbn [negb].
  - apply count_check in E. split; [|tauto]. split; [intros _; exact E|]. intros _.
    destruct (deriveTxLogs_total txs number hash receipts 0 0) as (done & li & Hd); [lia|].
    rewrite Hd.
    destruct (len txs + 1 =? len receipts) eqn:E1.
    + unfold len in E1. apply Z.eqb_eq in E1.
      destruct (skipn (length txs) receipts) as [|r rest'] eqn:Es.
      * apply (f_equal (@length _)) in Es. rewrite length_skipn in Es. cbn in Es. lia.
      * destruct (deriveLogs (Logs r) number hash hash (len txs) li). eexists; reflexivity.
    + eexists; reflexivity.
  - split; [|intros _; reflexivity].
    split; [intros [r' H]; discriminate|].
    intros H. apply count_check in H. congruence.
Qed.

Lemma attribution_firstn (txs : list Transaction) (hash : Hash) :
  firstn (length txs) (attribution txs hash) =
  combine (map tx_Hash txs) (count_from 0 (length txs)) /\
  firstn (S (length txs)) (attribution txs hash) =
  combine (map tx_Hash txs) (count_from 0 (length txs)) ++ [(hash, len txs)].
Proof.
  unfold attribution.
  replace (S (length txs)) with (length txs + 1)%nat by lia.
  rewrite count_from_app. cbn [count_from]. rewrite Z.add_0_l.
  assert (Hl : length (map tx_Hash txs) = length (count_from 0 (length txs))).
  { rewrite length_map, count_from_length. reflexivity. }
  assert (Hc : combine (map tx_Hash txs ++ [hash])
                       (count_from 0 (length txs) ++ [Z.of_nat (length txs)]) =
               combine (map tx_Hash txs) (count_from 0 (length txs)) ++ [(hash, len txs)]).
  { generalize dependent (count_from 0 (length txs)).
    generalize (map tx_Hash txs).
    induction l as [|x l IH]; intros [|y m] Hl; cbn in *; try discriminate; try reflexivity.
    f_equal. apply IH. lia. }
  rewrite Hc.
  assert (Hn : length (combine (map tx_Hash txs) (count_from 0 (length txs))) = length txs).
  { rewrite length_combine, length_map, count_from_length. lia. }
  split.
  - rewrite firstn_app, Hn, Nat.sub_diag. cbn [firstn]. rewrite app_nil_r.
    rewrite <- Hn at 1. apply firstn_all.
  - rewrite firstn_app, Hn.
    replace (length txs + 1 - length txs)%nat with 1%nat by lia. cbn [firstn].
    f_equal. rewrite firstn_all2; [reflexivity | lia].
Qed.

(** C3.  deriveLogFields succeeds exactly when the receipts are as many as the
    transactions or one more; any other count gives the error "transaction and
    receipt count mismatch" with the receipts untouched, and ReadLogs then
    returns nil.  On success (with fewer than 2^64 logs in the block, the range
    of the uint log index) every log keeps its stored fields and gets the
    block number and hash, the hash and index of its transaction, and log
    indexes 0, 1, 2, ... across the block; the logs of an extra receipt get
    the block hash as transaction hash and index len(txs). *)
Theorem deriveLogFields_spec (receipts : list receiptLogs) (hash : Hash) (number : Z)
        (txs : list Transaction) :
  ((exists receipts', deriveLogFields receipts hash number txs = Done (receipts', None)) <->
   (length receipts = length txs \/ length receipts = S (length txs)))
  /\ (~ (length receipts = length txs \/ length receipts = S (length txs)) ->
      deriveLogFields receipts hash number txs =
        Done (receipts, Some "transaction and receipt count mismatch"%string)
      /\ forall bg i db data body,
           let r1 := run bg i db (ReadReceiptsRLP hash number) in
           outcome r1 = Done data -> data <> [] ->
           rlp_decode_receiptLogs data = Some receipts ->
           outcome (run bg (i + length (trace r1)) (final r1) (ReadBody hash number)) =
             Done (Some body) ->
           body_Transactions body = txs ->
           outcome (run bg i db (ReadLogs hash number)) = Done None)
  /\ ((length receipts = length txs \/ length receipts = S (length txs)) ->
      len (all_logs receipts) < 2 ^ 64 ->
      exists receipts',
        deriveLogFields receipts hash number txs = Done (receipts', None) /\
        receipts_payload receipts' = receipts_payload receipts /\
        map Index (all_logs receipts') = count_from 0 (length (all_logs receipts)) /\
        Forall2 (attributed number hash)
                (firstn (length receipts) (attribution txs hash)) receipts').
Proof.
  split; [apply deriveLogFields_count|].
  split.
  - intros Hbad. split; [apply deriveLogFields_count; exact Hbad|].
    intros bg i db data body r1 H1 Hne Hdec H2 Htxs.
    unfold ReadLogs. rewrite outcome_bind. fold r1. rewrite H1.
    destruct (len data =? 0) eqn:E; [reflexivity|].
    rewrite Hdec, outcome_bind, H2, Htxs.
    rewrite (proj2 (deriveLogFields_count receipts hash number txs) Hbad). reflexivity.
  - intros Hcount Hlt.
    assert (Hsplit : receipts = firstn (length txs) receipts ++ skipn (length txs) receipts)
      by (symmetry; apply firstn_skipn).
    assert (Hall : len (all_logs receipts) =
                   len (all_logs (firstn (length txs) receipts)) +
                   len (all_logs (skipn (length txs) receipts))).
    { rewrite Hsplit at 1. rewrite all_logs_app. unfold len. rewrite length_app. lia. }
    assert (Hp1 : 0 <= len (all_logs (firstn (length txs) receipts))) by (unfold len; lia).
    assert (Hp2 : 0 <= len (all_logs (skipn (length txs) receipts))) by (unfold len; lia).
    destruct (deriveTxLogs_spec txs number hash receipts 0 0)
      as (done & Hd & Hdp & Hdi & Hda); [lia | lia | lia |].
    unfold deriveLogFields.
    rewrite (proj2 (count_check txs receipts) Hcount). cbn [negb]. rewrite Hd.
    destruct (attribution_firstn txs hash) as [Ha Ha1].
    destruct Hcount as [Hc | Hc].
    + (* as many receipts as transactions *)
      assert (E1 : (len txs + 1 =? len receipts) = false)
        by (apply Z.eqb_neq; unfold len; lia).
      rewrite E1.
      assert (Hs : skipn (length txs) receipts = []) by (apply skipn_all2; lia).
      assert (Hf : firstn (length txs) receipts = receipts) by (apply firstn_all2; lia).
      rewrite Hs, app_nil_r. rewrite Hf in *.
      exists done. split; [reflexivity|]. split; [exact Hdp|]. split; [exact Hdi|].
      rewrite Hc, Ha. exact Hda.
    + (* one extra receipt *)
      assert (E1 : (len txs + 1 =? len receipts) = true)
        by (apply Z.eqb_eq; unfold len; lia).
      rewrite E1.
      destruct (skipn (length txs) receipts) as [|r rest'] eqn:Es.
      { apply (f_equal (@length _)) in Es. rewrite length_skipn in Es. cbn in Es. lia. }
      assert (Hrest : rest' = []).
      { apply (f_equal (@length _)) in Es. rewrite length_skipn in Es. cbn in Es.
        destruct rest'; [reflexivity | cbn in Es; lia]. }
      subst rest'.
      assert (Hr : len (all_logs [r]) = len (Logs r)).
      { unfold all_logs. cbn. rewrite app_nil_r. reflexivity. }
      rewrite Z.add_0_l in *.
      destruct (deriveLogs_spec (Logs r) number hash hash (len txs)
                  (len (all_logs (firstn (length txs) receipts))))
        as (logs' & He & Hp & Hi & Hcx); [lia | lia |].
      rewrite He.
      exists (done ++ [{| Logs := logs' |}]). split; [reflexivity|].
      remember (firstn (length txs) receipts) as pre eqn:Hpre.
      split; [|split].
      * unfold receipts_payload in *. rewrite Hsplit, !map_app, Hdp.
        cbn [map Logs]. rewrite Hp. reflexivity.
      * rewrite Hsplit, !all_logs_app, map_app, Hdi, length_app, count_from_app.
        f_equal. unfold all_logs. cbn [map concat Logs]. rewrite !app_nil_r, Hi.
        unfold len. rewrite Z.add_0_l. reflexivity.
      * rewrite Hc, Ha1. apply Forall2_app; [exact Hda|].
        constructor; [exact Hcx | constructor].
Qed.
End LogFields.

Lemma deriveLogFields_spec_witness :
  result db_receipt_mismatch (ReadLogs hash1 0) = Done None /\
  exists receipts',
    @deriveLogFields toy_types (toy_receipts [2; 1]%nat) hash1 0 ["007"%byte] =
      Done (receipts', None) /\
    map Index (all_logs receipts') = [0; 1; 2] /\
    Forall2 (attributed 0 hash1) [(hash_of_byte "007"%byte, 0); (hash1, 1)] receipts'.
Proof.
  split.
  - destruct (@deriveLogFields_spec geth_schema toy_types
                (toy_receipts [2; 1; 0]%nat) hash1 0 ["007"%byte])
      as (_ & H & _).
    destruct H as [_ H]; [cbn; lia|].
    apply (H idle 0%nat db_receipt_mismatch
             ["192"%byte; "002"%byte; "001"%byte; "000"%byte] ["007"%byte]);
      try reflexivity.
    discriminate.
  - destruct (@deriveLogFields_spec geth_schema toy_types
                (toy_receipts [2; 1]%nat) hash1 0 ["007"%byte])
      as (_ & _ & H).
    destruct H as (rs' & H1 & _ & H3 & H4); [right; reflexivity | reflexivity |].
    exists rs'. split; [exact H1|]. split; [exact H3 | exact H4].
Defined.

(** ** Byte order *)

Lemma Z_of_byte_inj (x y : byte) : Z_of_byte x = Z_of_byte y -> x = y.
Proof.
  unfold Z_of_byte. intros H. apply N2Z.inj in H.
  pose proof (Byte.of_to_N x) as Hx. rewrite H, Byte.of_to_N in Hx. congruence.
Qed.

Lemma Z_of_byte_range (x : byte) : 0 <= Z_of_byte x < 256.
Proof.
  unfold Z_of_byte. pose proof (Byte.to_N_bounded x). lia.
Qed.

Lemma bytes_compare_eq_iff (a b : bytes) : bytes_compare a b = Eq <-> a = b.
Proof.
  revert b. induction a as [|x a IH]; intros [|y b]; cbn; split; intros H;
    try reflexivity; try discriminate.
  - destruct (Z.compare_spec (Z_of_byte x) (Z_of_byte y)) as [E|E|E]; try discriminate.
    apply Z_of_byte_inj in E. apply IH in H. congruence.
  - inversion H; subst. rewrite Z.compare_refl. apply IH. reflexivity.
Qed.

Lemma bytes_compare_antisym (a b : bytes) :
  bytes_compare b a = CompOpp (bytes_compare a b).
Proof.
  revert b. induction a as [|x a IH]; intros [|y b]; cbn; try reflexivity.
  rewrite (Z.compare_antisym (Z_of_byte x) (Z_of_byte y)).
  destruct (Z_of_byte x ?= Z_of_byte y); cbn; auto.
Qed.

Lemma bytes_compare_lt_trans (a b c : bytes) :
  bytes_compare a b = Lt -> bytes_compare b c = Lt -> bytes_compare a c = Lt.
Proof.
  revert b c. induction a as [|x a IH]; intros [|y b] [|z c]; cbn; intros H1 H2;
    try reflexivity; try discriminate.
  destruct (Z.compare_spec (Z_of_byte x) (Z_of_byte y)) as [E1|E1|E1]; try discriminate;
    destruct (Z.compare_spec (Z_of_byte y) (Z_of_byte z)) as [E2|E2|E2]; try discriminate.
  - rewrite E1, E2, Z.compare_refl. eapply IH; eassumption.
  - rewrite E1. apply Z.compare_lt_iff in E2. rewrite E2. reflexivity.
  - rewrite <- E2. apply Z.compare_lt_iff in E1. rewrite E1. reflexivity.
  - assert (E : Z_of_byte x < Z_of_byte z) by lia.
    apply Z.compare_lt_iff in E. rewrite E. reflexivity.
Qed.

Lemma kv_get_put_same (l : list (bytes * bytes)) (key value : bytes) :
  kv_get (kv_put l key value) key = Some value.
Proof.
  induction l as [|[k v] l IH]; cbn.
  - rewrite bytes_eqb_refl. reflexivity.
  - destruct (bytes_compare key k) eqn:E; cbn.
    + rewrite bytes_eqb_refl. reflexivity.
    + rewrite bytes_eqb_refl. reflexivity.
    + destruct (bytes_eqb k key) eqn:E'; [|exact IH].
      apply bytes_eqb_eq in E'. subst k.
      assert (bytes_compare key key = Eq) by (apply bytes_compare_eq_iff; reflexivity).
      congruence.
Qed.

(** ** Bad blocks *)

Section BadBlockProps.
Context {schema : Schema} {types : Types} {gosort : GoSort}.

Lemma dup_check_In (block : Block) (l : badBlockList) :
  existsb (fun b => (big_Uint64 (header_Number (bb_Header b)) =? Block_NumberU64 block)
                    && bytes_eqb (header_Hash (bb_Header b)) (Block_Hash block)) l = true <->
  In (bb_key (new_badBlock block)) (map bb_key l).
Proof.
  rewrite existsb_exists, in_map_iff. unfold bb_key, bb_number, new_badBlock. cbn.
  split.
  - intros (b & Hin & Hb). apply andb_true_iff in Hb. destruct Hb as [Hn Hh].
    apply Z.eqb_eq in Hn. apply bytes_eqb_eq in Hh.
    exists b. split; [|exact Hin]. unfold Block_NumberU64, Block_Hash, Block_Header in *.
    congruence.
  - intros (b & Hk & Hin). exists b. split; [exact Hin|].
    inversion Hk as [[Hn Hh]].
    unfold Block_NumberU64, Block_Hash, Block_Header.
    rewrite Hn, Hh, Z.eqb_refl, bytes_eqb_refl. reflexivity.
Qed.

(** The bad-block list WriteBadBlock persists when the block is new. *)
Lemma WriteBadBlock_exec (db : DB) (block : Block) (l : badBlockList) :
  stored_badBlocks db = Some l ->
  exec db (WriteBadBlock block) =
  if existsb (fun b => (big_Uint64 (header_Number (bb_Header b)) =? Block_NumberU64 block)
                       && bytes_eqb (header_Hash (bb_Header b)) (Block_Hash block)) l
  then {| outcome := Done tt; final := db; trace := [CallGet badBlockKey] |}
  else
    match rlp_encode_badBlocks
            (firstn 10 (sort_Sort _ (sort_Reverse badBlockList_Less)
                                  (l ++ [new_badBlock block]))) with
    | None => {| outcome := Halted (LogCrit "Failed to encode bad blocks");
                 final := db; trace := [CallGet badBlockKey] |}
    | Some data => {| outcome := Done tt; final := db_Put db badBlockKey data;
                      trace := [CallGet badBlockKey; CallPut badBlockKey data] |}
    end.
Proof.
  unfold stored_badBlocks, live_data, exec, WriteBadBlock, idle.
  cbn -[db_Get len Z.gtb existsb firstn].
  destruct (db_Get db badBlockKey) as [blob err]. cbn -[db_Get len Z.gtb existsb firstn].
  intros Hl.
  assert (Hrun : forall k : badBlockList -> Prog unit,
             run (fun _ s => s) 1 db
                 (bind (if len blob >? 0
                        then match rlp_decode_badBlocks blob with
                             | Some l0 => Ret l0
                             | None => Stop (LogCrit "Failed to decode old bad blocks")
                             end
                        else Ret []) k) = run (fun _ s => s) 1 db (k l)).
  { intros k. destruct (len blob >? 0).
    - rewrite Hl. reflexivity.
    - inversion Hl. reflexivity. }
  rewrite Hrun. clear Hrun.
  destruct (existsb _ l); [reflexivity|].
  set (sorted := sort_Sort _ _ _).
  assert (Htrunc : (if len sorted >? badBlockToKeep
                    then firstn (Pos.to_nat 10) sorted else sorted) =
                   firstn 10 sorted).
  { unfold badBlockToKeep, len. change (Pos.to_nat 10) with 10%nat.
    destruct (Z.of_nat (length sorted) >? 10) eqn:E; [reflexivity|].
    symmetry. apply firstn_all2. rewrite Z.gtb_ltb in E. apply Z.ltb_ge in E. lia. }
  rewrite Htrunc.
  destruct (rlp_encode_badBlocks (firstn 10 sorted)); reflexivity.
Qed.

Lemma StronglySorted_firstn {A : Type} (R : A -> A -> Prop) (n : nat) (l : list A) :
  StronglySorted R l -> StronglySorted R (firstn n l).
Proof.
  revert l. induction n as [|n IH]; intros l H; [constructor|].
  destruct l as [|x l]; [constructor|].
  inversion H; subst. cbn. constructor; [apply IH; assumption|].
  rewrite <- (firstn_skipn n l) in H3. apply Forall_app in H3. tauto.
Qed.

Lemma NoDup_firstn {A : Type} (n : nat) (l : list A) : NoDup l -> NoDup (firstn n l).
Proof.
  intros H. rewrite <- (firstn_skipn n l) in H. eapply NoDup_app_remove_r. exact H.
Qed.

Lemma badBlocks_inv_step (l : badBlockList) (b : badBlock Header Body) :
  sort_law ->
  badBlocks_inv l ->
  ~ In (bb_key b) (map bb_key l) ->
  badBlocks_inv (firstn 10 (sort_Sort _ (sort_Reverse badBlockList_Less) (l ++ [b]))).
Proof.
  intros Hsort (Hlen & Hsorted & Hnd) Hnew.
  destruct (Hsort (l ++ [b])) as [Hperm Hs].
  split; [|split].
  - rewrite length_firstn. lia.
  - apply StronglySorted_firstn. exact Hs.
  - rewrite <- firstn_map. apply NoDup_firstn.
    apply (Permutation_NoDup (l := map bb_key (l ++ [b]))).
    + apply Permutation_map. symmetry. exact Hperm.
    + rewrite map_app. apply NoDup_app; [exact Hnd | repeat constructor; intros [] |].
      intros a Ha [Hb | []]. subst a. contradiction.
Qed.

Lemma stored_after_put (db : DB) (l : badBlockList) (data : bytes) :
  codec_law ->
  rlp_encode_badBlocks l = Some data ->
  stored_badBlocks (db_Put db badBlockKey data) = Some l.
Proof.
  intros Hcodec He. destruct (Hcodec l data He) as [Hne Hdec].
  unfold stored_badBlocks, live_data, db_Get, db_Put. cbn.
  rewrite kv_get_put_same. cbn.
  apply len_pos_nonempty in Hne. rewrite Hne. exact Hdec.
Qed.

(** C4.  WriteBadBlock with a block whose (number, hash) is already stored
    leaves the store as it is; otherwise the stored list becomes the old list
    with the new entry appended, sorted by descending number and cut to 10.
    Hence a stored list with at most 10 entries, in descending order of number
    and with at most one entry per (number, hash), is again such a list after
    any call, and so is the stored list after any sequence of calls on a store
    without bad blocks. *)
Theorem WriteBadBlock_spec :
  sort_law -> codec_law ->
  (forall (db : DB) (block : Block) (l : badBlockList),
     stored_badBlocks db = Some l ->
     let r := exec db (WriteBadBlock block) in
     let l' := firstn 10 (sort_Sort _ (sort_Reverse badBlockList_Less)
                                    (l ++ [new_badBlock block])) in
     (In (bb_key (new_badBlock block)) (map bb_key l) ->
      outcome r = Done tt /\ final r = db)
     /\ (~ In (bb_key (new_badBlock block)) (map bb_key l) ->
         forall data, rlp_encode_badBlocks l' = Some data ->
                      outcome r = Done tt /\ stored_badBlocks (final r) = Some l')
     /\ (badBlocks_inv l ->
         exists l'', stored_badBlocks (final r) = Some l'' /\ badBlocks_inv l''))
  /\ (forall (db : DB) (blocks : list Block),
        stored_badBlocks db = Some [] ->
        exists l, stored_badBlocks (write_all db blocks) = Some l /\ badBlocks_inv l).
Proof.
  intros Hsort Hcodec.
  assert (Hstep : forall (db : DB) (block : Block) (l : badBlockList),
             stored_badBlocks db = Some l -> badBlocks_inv l ->
             exists l'', stored_badBlocks (final (exec db (WriteBadBlock block))) = Some l''
                         /\ badBlocks_inv l'').
  { intros db block l Hl Hinv. rewrite (WriteBadBlock_exec db block l Hl).
    destruct (existsb _ l) eqn:E.
    - exists l. split; [exact Hl | exact Hinv].
    - destruct (rlp_encode_badBlocks _) as [data|] eqn:He.
      + eexists. split; [apply stored_after_put; eassumption|].
        apply badBlocks_inv_step; [exact Hsort | exact Hinv |].
        intros Hin. apply dup_check_In in Hin. congruence.
      + exists l. split; [exact Hl | exact Hinv]. }
  split.
  - intros db block l Hl r l'. subst r.
    split; [|split].
    + intros Hin. apply dup_check_In in Hin.
      rewrite (WriteBadBlock_exec db block l Hl), Hin. split; reflexivity.
    + intros Hnew data He.
      rewrite (WriteBadBlock_exec db block l Hl).
      destruct (existsb _ l) eqn:E; [apply dup_check_In in E; contradiction|].
      subst l'. rewrite He. split; [reflexivity|].
      apply stored_after_put; assumption.
    + intros Hinv. apply (Hstep db block l Hl Hinv).
  - intros db blocks H0.
    assert (Hgen : forall (blocks : list Block) (db : DB) (l : badBlockList),
               stored_badBlocks db = Some l -> badBlocks_inv l ->
               exists l', stored_badBlocks (write_all db blocks) = Some l'
                          /\ badBlocks_inv l').
    { clear db blocks H0.
      induction blocks as [|b blocks IH]; intros db l Hl Hinv.
      - exists l. split; assumption.
      - cbn [write_all]. destruct (Hstep db b l Hl Hinv) as (l1 & Hl1 & Hinv1).
        apply (IH _ l1 Hl1 Hinv1). }
    apply (Hgen blocks db [] H0).
    split; [cbn; lia | split; constructor].
Qed.
End BadBlockProps.

Section InsertionSort.
Context {types : Types}.

Lemma insert_by_perm {A : Type} (less : A -> A -> bool) (x : A) (l : list A) :
  Permutation (insert_by less x l) (x :: l).
Proof.
  induction l as [|y l IH]; cbn; [reflexivity|].
  destruct (less y x); [|reflexivity].
  rewrite IH. apply perm_swap.
Qed.

Lemma insertion_sort_perm {A : Type} (less : A -> A -> bool) (l : list A) :
  Permutation (insertion_sort less l) l.
Proof.
  induction l as [|x l IH]; cbn; [reflexivity|].
  rewrite insert_by_perm. constructor. exact IH.
Qed.

Lemma insert_by_descending (x : badBlock Header Body) (l : badBlockList) :
  StronglySorted descending l ->
  StronglySorted descending (insert_by (sort_Reverse badBlockList_Less) x l).
Proof.
  induction l as [|y l IH]; intros H; cbn.
  - repeat constructor.
  - inversion H as [|? ? Hs Hall]; subst.
    unfold sort_Reverse at 1, badBlockList_Less at 1.
    fold (bb_number x). fold (bb_number y).
    destruct (bb_number x <? bb_number y) eqn:E.
    + apply Z.ltb_lt in E. constructor; [apply IH; exact Hs|].
      eapply Permutation_Forall.
      * symmetry. apply insert_by_perm.
      * constructor; [unfold descending; lia | exact Hall].
    + apply Z.ltb_ge in E. constructor; [exact H|].
      constructor; [exact E|].
      eapply Forall_impl; [|exact Hall]. unfold descending. intros z Hz. lia.
Qed.

Lemma insertion_sort_law : @sort_law types insertion_GoSort.
Proof.
  intros l. split; [apply insertion_sort_perm|].
  cbn. induction l as [|x l IH]; cbn; [constructor|].
  apply insert_by_descending. exact IH.
Qed.
End InsertionSort.

Lemma toy_decode_encode (l : list (badBlock toy_Header bytes)) :
  forallb (fun bb => match bb_Body bb with [] => true | _ => false end) l = true ->
  toy_decode_badBlocks
    (flat_map (fun bb => let '(n, p, h) := bb_Header bb in [n; p; h]) l) = Some l.
Proof.
  induction l as [|[[[n p] h] body] l IH]; cbn; intros H; [reflexivity|].
  apply andb_true_iff in H. destruct H as [Hb Hl].
  destruct body; [|discriminate]. rewrite (IH Hl). reflexivity.
Qed.

Lemma toy_codec_law : @codec_law toy_types.
Proof.
  intros l data H. cbn in H. unfold toy_encode_badBlocks in H.
  pose proof (toy_decode_encode l) as Hdec.
  match type of H with
  | (if ?c then _ else _) = _ => destruct c
  end; [|discriminate].
  inversion H; subst. split; [discriminate|].
  cbn. apply Hdec. reflexivity.
Qed.

Lemma WriteBadBlock_spec_witness :
  exists l,
    @stored_badBlocks geth_schema toy_types
      (write_all db_empty (map toy_block (count_from 1 15))) = Some l /\
    badBlocks_inv l.
Proof.
  apply (proj2 (@WriteBadBlock_spec geth_schema toy_types insertion_GoSort
                  insertion_sort_law toy_codec_law)).
  reflexivity.
Defined.

(** Fifteen distinct bad blocks leave the ten highest, in descending order;
    writing one of them again changes nothing. *)
Example bad_blocks_fifteen :
  let db := write_all db_empty (map toy_block (count_from 1 15)) in
  option_map (map bb_number) (@stored_badBlocks geth_schema toy_types db) =
    Some [15; 14; 13; 12; 11; 10; 9; 8; 7; 6]
  /\ final (exec db (WriteBadBlock (toy_block 9))) = db.
Proof.
  vm_compute. split; reflexivity.
Qed.

(** ** Ancient writes *)

Section AncientWriteProps.
Context {schema : Schema} {types : Types}.

Lemma run_op_then {St : Type} (step : St -> OpCall -> error * St) (p next : OpProg) :
  forall s : St,
  run_op step s (op_then p next) =
  let '(o, s', tr) := run_op step s p in
  match o with
  | Done None => let '(o2, s2, tr2) := run_op step s' next in (o2, s2, tr ++ tr2)
  | _ => (o, s', tr)
  end.
Proof.
  induction p as [[e|] | m | c k IH]; intros s; cbn.
  - reflexivity.
  - destruct (run_op step s next) as [[o2 s2] tr2]. reflexivity.
  - reflexivity.
  - destruct (step s c) as [err s']. rewrite IH.
    destruct (run_op step s' (k err)) as [[o s''] tr].
    destruct o as [[e|]|f]; try reflexivity.
    destruct (run_op step s'' next) as [[o2 s2] tr2]. reflexivity.
Qed.

Lemma is_prefix_app {A : Type} (l m r : list A) : is_prefix l m -> is_prefix l (m ++ r).
Proof. intros [x Hx]. exists (x ++ r). rewrite Hx, app_assoc. reflexivity. Qed.

Lemma is_prefix_app_l {A : Type} (l m r : list A) : is_prefix m r -> is_prefix (l ++ m) (l ++ r).
Proof. intros [x Hx]. exists x. rewrite Hx, app_assoc. reflexivity. Qed.

Lemma op_run_ok_then (e1 e2 : list OpCall) (o1 o2 : Outcome error)
      (tr1 tr2 : list (OpCall * error)) :
  op_run_ok e1 o1 tr1 ->
  (o1 = Done None -> op_run_ok e2 o2 tr2) ->
  op_run_ok (e1 ++ e2)
            (match o1 with Done None => o2 | _ => o1 end)
            (match o1 with Done None => tr1 ++ tr2 | _ => tr1 end).
Proof.
  intros [(Ho & Htr & Hall) | (msg & tr0 & c & e & Ho & Htr & Hall & Hpre)] H2.
  - subst o1. destruct (H2 eq_refl)
      as [(Ho2 & Htr2 & Hall2) | (msg & tr0 & c & e & Ho2 & Htr2 & Hall2 & Hpre2)].
    + left. split; [exact Ho2|]. split.
      * rewrite map_app, Htr, Htr2. reflexivity.
      * apply Forall_app. split; assumption.
    + right. exists msg, (tr1 ++ tr0), c, e. split; [exact Ho2|].
      split; [rewrite Htr2, app_assoc; reflexivity|].
      split; [apply Forall_app; split; assumption|].
      rewrite map_app, Htr. apply is_prefix_app_l. exact Hpre2.
  - subst o1. right. exists msg, tr0, c, e. split; [reflexivity|].
    split; [exact Htr|]. split; [exact Hall|]. apply is_prefix_app. exact Hpre.
Qed.

Lemma writeAncientBlock_ok {St : Type} (step : St -> OpCall -> error * St) (s : St)
      (block : Block) (receipts : list Receipt) (td : Z) :
  let '(o, _, tr) := run_op step s (writeAncientBlock block (Block_Header block) receipts td) in
  op_run_ok (block_appends block receipts td) o tr.
Proof.
  unfold writeAncientBlock, block_appends, op_run_ok, answered_nil, is_prefix.
  cbn -[append fmt_d].
  destruct (step s _) as [[e1|] s1]; cbn -[append fmt_d].
  { right. eexists _, [], _, _. cbn.
    repeat split; try constructor. eexists; reflexivity. }
  destruct (step s1 _) as [[e2|] s2]; cbn -[append fmt_d].
  { right. eexists _, [_], _, _. cbn.
    repeat split; try (repeat constructor; fail). eexists; reflexivity. }
  destruct (step s2 _) as [[e3|] s3]; cbn -[append fmt_d].
  { right. eexists _, [_; _], _, _. cbn.
    repeat split; try (repeat constructor; fail). eexists; reflexivity. }
  destruct (step s3 _) as [[e4|] s4]; cbn -[append fmt_d].
  { right. eexists _, [_; _; _], _, _. cbn.
    repeat split; try (repeat constructor; fail). eexists; reflexivity. }
  destruct (step s4 _) as [[e5|] s5]; cbn -[append fmt_d].
  { right. eexists _, [_; _; _; _], _, _. cbn.
    repeat split; try (repeat constructor; fail). eexists; reflexivity. }
  left. repeat split; repeat constructor.
Qed.

Lemma sumZ_app (l m : list Z) : sumZ (l ++ m) = sumZ l + sumZ m.
Proof. unfold sumZ. induction l as [|x l IH]; cbn; [reflexivity | rewrite IH; lia]. Qed.

Lemma firstn_S_nth {A : Type} (l : list A) (k : nat) (x : A) :
  nth_error l k = Some x -> firstn (S k) l = firstn k l ++ [x].
Proof.
  revert l. induction k as [|k IH]; intros [|y l] H; cbn in H; try discriminate.
  - inversion H. reflexivity.
  - rewrite !firstn_cons, (IH l H). reflexivity.
Qed.

Lemma running_td_step (td : Z) (blocks : list Block) (i : nat) (b : Block) :
  nth_error blocks i = Some b ->
  (if (0 <? i)%nat then running_td td blocks (i - 1) + Block_TotalDifficulty b
   else running_td td blocks (i - 1)) = running_td td blocks i.
Proof.
  intros Hb. destruct i as [|k]; [reflexivity|].
  cbn [Nat.ltb Nat.leb]. replace (S k - 1)%nat with k by lia.
  unfold running_td.
  assert (Ht : nth_error (tl blocks) k = Some b) by (destruct blocks; [discriminate | exact Hb]).
  rewrite (firstn_S_nth _ _ _ Ht), map_app, sumZ_app. cbn. lia.
Qed.

Lemma writeAncientBlocks_loop_ok {St : Type} (step : St -> OpCall -> error * St)
      (receipts : list (list Receipt)) (td : Z) :
  forall (bs pre : list Block) (i : nat) (tdSum : Z) (s : St),
  i = length pre ->
  tdSum = running_td td (pre ++ bs) (i - 1) ->
  (length (pre ++ bs) <= length receipts)%nat ->
  let '(o, _, tr) := run_op step s (writeAncientBlocks_loop bs receipts i tdSum) in
  op_run_ok (flat_map (appends_at (pre ++ bs) receipts td) (seq i (length bs))) o tr.
Proof.
  induction bs as [|b bs IH]; intros pre i tdSum s Hi Htd Hlen.
  - cbn. left. repeat split; constructor.
  - cbn [writeAncientBlocks_loop length seq flat_map].
    assert (Hb : nth_error (pre ++ b :: bs) i = Some b).
    { subst i. rewrite nth_error_app2, Nat.sub_diag; [reflexivity | lia]. }
    destruct (nth_error receipts i) as [rs|] eqn:Hrs.
    2:{ apply nth_error_None in Hrs. rewrite length_app in Hlen. cbn in Hlen. lia. }
    rewrite map_id. rewrite Htd, (running_td_step td _ i b Hb).
    rewrite run_op_then.
    pose proof (writeAncientBlock_ok step s b rs (running_td td (pre ++ b :: bs) i)) as H1.
    destruct (run_op step s (writeAncientBlock b (Block_Header b) rs _)) as [[o1 s1] tr1].
    assert (Hat : appends_at (pre ++ b :: bs) receipts td i =
                  block_appends b rs (running_td td (pre ++ b :: bs) i)).
    { unfold appends_at. rewrite Hb, Hrs. reflexivity. }
    rewrite Hat.
    specialize (IH (pre ++ [b]) (S i) (running_td td (pre ++ b :: bs) i) s1).
    rewrite <- app_assoc in IH. cbn [app] in IH.
    replace (S i - 1)%nat with i in IH by lia.
    assert (IH' := IH ltac:(rewrite length_app; cbn; lia) eq_refl Hlen). clear IH.
    destruct (run_op step s1 (writeAncientBlocks_loop bs receipts (S i) _))
      as [[o2 s2] tr2].
    pose proof (op_run_ok_then _ _ o1 o2 tr1 tr2 H1 (fun _ => IH')) as H.
    destruct o1 as [[e|]|f]; exact H.
Qed.

(** C5.  WriteAncientBlocks appends, block after block, the hash, header,
    body, receipts and total difficulty of each block; the total difficulty
    written for block i is the given td plus the TotalDifficulty() of blocks
    1..i, nothing being added for the first block.  All five appends of block
    i come before those of block i+1.  When an append is answered with an
    error the function stops there and returns an error, and the ancient store
    is left as it was. *)
Theorem WriteAncientBlocks_spec {St : Type} (step : St -> OpCall -> error * St) (s : St)
        (blocks : list Block) (receipts : list (list Receipt)) (td : Z) :
  (length blocks <= length receipts)%nat ->
  (let '(o, _, tr) := run_op step s (WriteAncientBlocks_fn blocks receipts td) in
   op_run_ok (expected_appends blocks receipts td) o tr)
  /\ running_td td blocks 0 = td
  /\ (forall i b, nth_error blocks (S i) = Some b ->
                  running_td td blocks (S i) = running_td td blocks i + Block_TotalDifficulty b)
  /\ (forall db n e,
        fst (WriteAncientBlocks db blocks receipts td) = Done (n, Some e) ->
        snd (WriteAncientBlocks db blocks receipts td) = db /\ n = 0).
Proof.
  intros Hlen. split; [|split; [|split]].
  - unfold WriteAncientBlocks_fn, expected_appends.
    apply (writeAncientBlocks_loop_ok step receipts td blocks [] 0%nat td s);
      [reflexivity | | exact Hlen].
    unfold running_td. cbn. lia.
  - unfold running_td. cbn. lia.
  - intros i b Hb. pose proof (running_td_step td blocks (S i) b Hb) as H.
    cbn [Nat.ltb Nat.leb] in H. replace (S i - 1)%nat with i in H by lia. lia.
  - intros db n e. unfold WriteAncientBlocks, ModifyAncients.
    destruct (run_op freezer_step _ _) as [[[[e'|]|f] [tbls size]] tr]; cbn;
      intros H; inversion H; subst; split; reflexivity.
Qed.
End AncientWriteProps.

Lemma WriteAncientBlocks_spec_witness :
  let '(o, _, tr) := run_op (@freezer_step toy_types) (empty_tables, 0)
                            (WriteAncientBlocks_fn toy_chain toy_chain_receipts 100) in
  op_run_ok (expected_appends toy_chain toy_chain_receipts 100) o tr.
Proof.
  apply (proj1 (@WriteAncientBlocks_spec toy_types _ freezer_step (empty_tables, 0)
                  toy_chain toy_chain_receipts 100 ltac:(cbn; lia))).
Defined.

(** Three blocks with TotalDifficulty() 1, 2 and 3 written on top of td = 100:
    the totals stored are 100, 102 and 105; a batch that does not start at the
    next ancient index is refused and leaves the store unchanged. *)
Example ancient_blocks_running_td :
  map (fun d => option_map Z_of_byte (hd_error d))
      (ancients (snd (WriteAncientBlocks db_empty toy_chain toy_chain_receipts 100))
                freezerDifficultyTable) = [Some 100; Some 102; Some 105]
  /\ WriteAncientBlocks db_empty (tl toy_chain) (tl toy_chain_receipts) 100 =
     (Done (0, Some "can't add block 1 hash: appending unexpected item"%string), db_empty).
Proof.
  vm_compute. split; reflexivity.
Qed.

(** ** Big-endian numbers and key order *)

Lemma len_app {A : Type} (l m : list A) : len (l ++ m) = len l + len m.
Proof. unfold len. rewrite length_app. lia. Qed.

Lemma len_nonneg {A : Type} (l : list A) : 0 <= len l.
Proof. unfold len. lia. Qed.

Lemma be_decode_acc (l : bytes) :
  forall acc : Z,
  fold_left (fun acc x => acc * 256 + Z_of_byte x) l acc =
  acc * 256 ^ len l + be_decode l.
Proof.
  unfold be_decode. induction l as [|x l IH]; intros acc.
  - cbn. lia.
  - cbn [fold_left]. rewrite IH, (IH (0 * 256 + Z_of_byte x)).
    replace (len (x :: l)) with (len l + 1) by (unfold len; cbn [length]; lia).
    rewrite Z.pow_add_r by (try apply len_nonneg; lia). lia.
Qed.

Lemma be_decode_cons (x : byte) (l : bytes) :
  be_decode (x :: l) = Z_of_byte x * 256 ^ len l + be_decode l.
Proof.
  unfold be_decode at 1. cbn [fold_left]. rewrite be_decode_acc. lia.
Qed.

Lemma be_decode_bound (l : bytes) : 0 <= be_decode l < 256 ^ len l.
Proof.
  induction l as [|x l IH].
  - cbn. lia.
  - rewrite be_decode_cons.
    replace (len (x :: l)) with (len l + 1) by (unfold len; cbn [length]; lia).
    rewrite Z.pow_add_r by (try apply len_nonneg; lia).
    pose proof (Z_of_byte_range x). nia.
Qed.

Lemma bytes_compare_be (a b : bytes) :
  length a = length b ->
  bytes_compare a b = Z.compare (be_decode a) (be_decode b).
Proof.
  revert b. induction a as [|x a IH]; intros [|y b] H; cbn in H; try discriminate.
  - reflexivity.
  - injection H as H. cbn [bytes_compare]. rewrite !be_decode_cons.
    assert (Hl : len a = len b) by (unfold len; congruence). rewrite Hl.
    pose proof (be_decode_bound a) as Ha. pose proof (be_decode_bound b) as Hb.
    rewrite Hl in Ha.
    pose proof (Z_of_byte_range x). pose proof (Z_of_byte_range y).
    destruct (Z.compare_spec (Z_of_byte x) (Z_of_byte y)) as [E|E|E].
    + rewrite E, (IH b H).
      destruct (Z.compare_spec (be_decode a) (be_decode b)) as [E'|E'|E'];
        symmetry; [apply Z.compare_eq_iff | apply Z.compare_lt_iff | apply Z.compare_gt_iff];
        lia.
    + symmetry. apply Z.compare_lt_iff. nia.
    + symmetry. apply Z.compare_gt_iff. nia.
Qed.

Lemma bytes_compare_refl (a : bytes) : bytes_compare a a = Eq.
Proof. apply bytes_compare_eq_iff. reflexivity. Qed.

Lemma bytes_compare_app_prefix (p x y : bytes) :
  bytes_compare (p ++ x) (p ++ y) = bytes_compare x y.
Proof.
  induction p as [|c p IH]; [reflexivity|].
  cbn. rewrite Z.compare_refl. exact IH.
Qed.

Lemma bytes_compare_app_eqlen (a b ra rb : bytes) :
  length a = length b ->
  bytes_compare (a ++ ra) (b ++ rb) =
  match bytes_compare a b with
  | Eq => bytes_compare ra rb
  | c => c
  end.
Proof.
  revert b. induction a as [|x a IH]; intros [|y b] H; cbn in H; try discriminate.
  - reflexivity.
  - injection H as H. cbn. destruct (Z_of_byte x ?= Z_of_byte y); try reflexivity.
    apply IH. exact H.
Qed.

Lemma Z_of_byte_of_Z (z : Z) : Z_of_byte (byte_of_Z z) = z mod 256.
Proof.
  unfold Z_of_byte, byte_of_Z.
  pose proof (Z.mod_pos_bound z 256 ltac:(lia)) as Hr.
  destruct (Byte.of_N (Z.to_N (z mod 256))) as [b|] eqn:E.
  - apply Byte.to_of_N in E. rewrite E. lia.
  - apply Byte.of_N_None_iff in E. lia.
Qed.

Lemma be_encode_length (n : nat) (z : Z) : length (be_encode n z) = n.
Proof. induction n; cbn; auto. Qed.

Lemma be_decode_encode (n : nat) (z : Z) :
  be_decode (be_encode n z) = z mod 256 ^ Z.of_nat n.
Proof.
  induction n as [|n IH].
  - cbn. rewrite Z.mod_1_r. reflexivity.
  - cbn [be_encode]. rewrite be_decode_cons, IH, Z_of_byte_of_Z.
    unfold len. rewrite be_encode_length.
    rewrite Z.shiftr_div_pow2 by lia.
    replace (2 ^ (8 * Z.of_nat n)) with (256 ^ Z.of_nat n)
      by (rewrite Z.pow_mul_r by lia; reflexivity).
    replace (Z.of_nat (S n)) with (Z.of_nat n + 1) by lia.
    rewrite Z.pow_add_r by lia. change (256 ^ 1) with 256.
    assert (Hp : 0 < 256 ^ Z.of_nat n) by (apply Z.pow_pos_nonneg; lia).
    rewrite (Z.rem_mul_r z (256 ^ Z.of_nat n) 256) by lia. lia.
Qed.

Lemma encodeBlockNumber_length (n : Z) : length (encodeBlockNumber n) = 8%nat.
Proof. apply be_encode_length. Qed.

Lemma decode_encodeBlockNumber (n : Z) :
  0 <= n < 2 ^ 64 -> be_decode (encodeBlockNumber n) = n.
Proof.
  intros H. unfold encodeBlockNumber. rewrite be_decode_encode.
  change (256 ^ Z.of_nat 8) with (2 ^ 64). apply Z.mod_small. exact H.
Qed.

Lemma HasPrefix_app (p r : bytes) : HasPrefix (p ++ r) p = true.
Proof.
  induction p as [|c p IH]; [destruct r; reflexivity|].
  cbn. rewrite IH. destruct (Byte.byte_eq_dec c c) as [_|n]; [|congruence].
  rewrite (Byte.byte_dec_lb (eq_refl c)). reflexivity.
Qed.

Lemma HasPrefix_split (s p : bytes) : HasPrefix s p = true -> s = p ++ skipn (length p) s.
Proof.
  revert s. induction p as [|c p IH]; intros s H; [reflexivity|].
  destruct s as [|x s]; [discriminate|]. cbn in H.
  apply andb_true_iff in H. destruct H as [Hc Hp].
  apply Byte.byte_dec_bl in Hc. subst x. cbn. f_equal. apply IH. exact Hp.
Qed.

(** ** Range queries *)

Section RangeProps.
Context {schema : Schema}.

Lemma sorted_filter {A : Type} (R : A -> A -> Prop) (f : A -> bool) (l : list A) :
  StronglySorted R l -> StronglySorted R (filter f l).
Proof.
  induction 1 as [|x l Hs IH Hall]; cbn; [constructor|].
  destruct (f x); [|exact IH].
  constructor; [exact IH|].
  apply Forall_forall. intros y Hy. apply filter_In in Hy.
  rewrite Forall_forall in Hall. apply Hall. tauto.
Qed.

Lemma filter_filter {A : Type} (f g : A -> bool) (l : list A) :
  filter f (filter g l) = filter (fun x => g x && f x) l.
Proof.
  induction l as [|x l IH]; cbn; [reflexivity|].
  destruct (g x); cbn; [destruct (f x)|]; rewrite IH; reflexivity.
Qed.

Lemma key_number_split (e r : bytes) :
  length e = 8%nat -> key_number (headerPrefix ++ e ++ r) = be_decode e.
Proof.
  intros He. unfold key_number, BigEndian_Uint64, slice.
  rewrite skipn_app, skipn_all, Nat.sub_diag. cbn [app skipn].
  replace (length headerPrefix + 8 - length headerPrefix)%nat with (length e) by lia.
  rewrite <- He.
  rewrite firstn_app, Nat.sub_diag, firstn_O, app_nil_r, !firstn_all. reflexivity.
Qed.

(** A key made of the header prefix, an 8-byte number and [n] more bytes. *)
Lemma numbered_key_shape (key : bytes) (n : Z) :
  HasPrefix key headerPrefix = true ->
  len key = len headerPrefix + 8 + n -> 0 <= n ->
  exists e r, key = headerPrefix ++ e ++ r /\ length e = 8%nat /\ len r = n.
Proof.
  intros Hp Hl Hn. apply HasPrefix_split in Hp.
  set (rest := skipn (length headerPrefix) key) in *.
  assert (Hr : len rest = 8 + n).
  { rewrite Hp, len_app in Hl. lia. }
  exists (firstn 8 rest), (skipn 8 rest).
  split; [rewrite firstn_skipn; exact Hp|].
  unfold len in *. split.
  - rewrite length_firstn. lia.
  - rewrite length_skipn. lia.
Qed.

Lemma numbered_key_order (e1 r1 e2 r2 : bytes) :
  length e1 = 8%nat -> length e2 = 8%nat ->
  bytes_compare (headerPrefix ++ e1 ++ r1) (headerPrefix ++ e2 ++ r2) = Lt ->
  be_decode e1 <= be_decode e2.
Proof.
  intros H1 H2 Hc.
  rewrite bytes_compare_app_prefix, bytes_compare_app_eqlen in Hc by congruence.
  rewrite (bytes_compare_be e1 e2) in Hc by congruence.
  destruct (Z.compare_spec (be_decode e1) (be_decode e2)); try lia. discriminate.
Qed.

(** Being at or after the iterator's start key is being at or above [first]. *)
Lemma start_bound (e r : bytes) (first : Z) :
  length e = 8%nat -> 0 <= first < 2 ^ 64 ->
  match bytes_compare (headerPrefix ++ e ++ r) (headerPrefix ++ encodeBlockNumber first) with
  | Lt => false
  | _ => true
  end = (first <=? be_decode e).
Proof.
  intros He Hf.
  rewrite <- (app_nil_r (encodeBlockNumber first)).
  rewrite bytes_compare_app_prefix, bytes_compare_app_eqlen
    by (rewrite encodeBlockNumber_length; exact He).
  rewrite (bytes_compare_be e (encodeBlockNumber first))
    by (rewrite encodeBlockNumber_length; exact He).
  rewrite decode_encodeBlockNumber by exact Hf.
  destruct (Z.compare_spec (be_decode e) first) as [E|E|E].
  - destruct r; cbn; symmetry; apply Z.leb_le; lia.
  - symmetry. apply Z.leb_gt. lia.
  - symmetry. apply Z.leb_le. lia.
Qed.

Lemma hashesInRange_loop_acc (keyLength last : Z) (it : list (bytes * bytes)) :
  forall acc,
  hashesInRange_loop keyLength last it acc =
  acc ++ hashesInRange_loop keyLength last it [].
Proof.
  induction it as [|[key v] it IH]; intros acc; cbn.
  - rewrite app_nil_r. reflexivity.
  - destruct (len key =? keyLength); cbn; [|apply IH].
    destruct (_ >? last); [rewrite app_nil_r; reflexivity|].
    rewrite IH, (IH [_]), app_assoc. reflexivity.
Qed.

(** Past a header key with a number above [last], every later header key has
    a number above [last] too. *)
Lemma later_header_keys_above (key : bytes) (last : Z) (it : list (bytes * bytes)) :
  HasPrefix key headerPrefix = true ->
  len key = len headerPrefix + 8 + 32 ->
  last < key_number key ->
  Forall (fun y => bytes_compare key (fst y) = Lt) it ->
  Forall (fun kv => HasPrefix (fst kv) headerPrefix = true) it ->
  filter (fun kv => (len (fst kv) =? len headerPrefix + 8 + 32)
                    && (key_number (fst kv) <=? last)) it = [].
Proof.
  intros Hk El Hgt Hall Hpre.
  destruct (numbered_key_shape key 32 Hk El ltac:(lia)) as (e & r & Hkey & He & _).
  induction it as [|[key' v'] it IH]; [reflexivity|].
  inversion Hall as [|? ? Hlt Hall']; subst.
  inversion Hpre as [|? ? Hk' Hpre']; subst.
  cbn [filter fst] in *. rewrite (IH Hall' Hpre').
  destruct (len key' =? len headerPrefix + 8 + 32) eqn:El'; [|reflexivity].
  apply Z.eqb_eq in El'.
  destruct (numbered_key_shape key' 32 Hk' El' ltac:(lia)) as (e' & r' & Hkey' & He' & _).
  rewrite Hkey' in Hlt.
  pose proof (numbered_key_order e r e' r' He He' Hlt) as Hle.
  assert (Hn' : (key_number key' <=? last) = false).
  { apply Z.leb_gt. rewrite Hkey', key_number_split by exact He'.
    rewrite key_number_split in Hgt by exact He. lia. }
  rewrite Hn'. reflexivity.
Qed.

Lemma hashesInRange_loop_sorted (last : Z) (it : list (bytes * bytes)) :
  StronglySorted (fun x y => bytes_compare (fst x) (fst y) = Lt) it ->
  Forall (fun kv => HasPrefix (fst kv) headerPrefix = true) it ->
  hashesInRange_loop (len headerPrefix + 8 + 32) last it [] =
  map number_hash_of
      (filter (fun kv => (len (fst kv) =? len headerPrefix + 8 + 32)
                         && (key_number (fst kv) <=? last)) it).
Proof.
  induction 1 as [|[key v] it Hs IH Hall]; intros Hpre; [reflexivity|].
  inversion Hpre as [|? ? Hk Hpre']; subst. cbn [fst] in Hk.
  cbn [hashesInRange_loop filter fst].
  destruct (len key =? len headerPrefix + 8 + 32) eqn:El; cbn [negb andb].
  - fold (key_number key).
    destruct (key_number key >? last) eqn:Eg.
    + rewrite Z.gtb_ltb in Eg. apply Z.ltb_lt in Eg.
      assert (Ele : (key_number key <=? last) = false) by (apply Z.leb_gt; exact Eg).
      rewrite Ele. apply Z.eqb_eq in El.
      rewrite (later_header_keys_above key last it Hk El Eg Hall Hpre'). reflexivity.
    + assert (Ele : (key_number key <=? last) = true).
      { apply Z.leb_le. rewrite Z.gtb_ltb in Eg. apply Z.ltb_ge in Eg. exact Eg. }
      rewrite Ele. cbn [map app]. rewrite hashesInRange_loop_acc. cbn [app].
      f_equal. apply IH. exact Hpre'.
  - apply IH. exact Hpre'.
Qed.

Lemma iterator_header_keys (db : DB) (first last : Z) :
  0 <= first < 2 ^ 64 ->
  filter (fun kv => (len (fst kv) =? len headerPrefix + 8 + 32)
                    && (key_number (fst kv) <=? last))
         (db_NewIterator db headerPrefix (encodeBlockNumber first)) =
  headers_in_range first last db.
Proof.
  intros Hf. unfold db_NewIterator, headers_in_range. rewrite filter_filter.
  apply filter_ext. intros [key v]. cbn [fst]. unfold is_header_key.
  destruct (HasPrefix key headerPrefix) eqn:Hp; [|reflexivity].
  destruct (len key =? len headerPrefix + 8 + 32) eqn:El;
    [|cbn; rewrite andb_false_r; reflexivity].
  apply Z.eqb_eq in El.
  destruct (numbered_key_shape key 32 Hp El ltac:(lia)) as (e & r & Hkey & He & _).
  rewrite Hkey at 1. rewrite (start_bound e r first He Hf).
  rewrite Hkey at 2. rewrite key_number_split by exact He.
  rewrite Hkey, key_number_split by exact He. cbn. reflexivity.
Qed.

Lemma sorted_map_in {A B : Type} (R : A -> A -> Prop) (R' : B -> B -> Prop) (g : A -> B)
      (l : list A) :
  (forall x y, In x l -> In y l -> R x y -> R' (g x) (g y)) ->
  StronglySorted R l -> StronglySorted R' (map g l).
Proof.
  intros Himp Hs. induction Hs as [|x l Hs IH Hall]; cbn; [constructor|].
  constructor.
  - apply IH. intros a b Ha Hb. apply Himp; right; assumption.
  - apply Forall_forall. intros b Hb. apply in_map_iff in Hb.
    destruct Hb as (y & Hy & Hin). subst b.
    rewrite Forall_forall in Hall. apply Himp; [left; reflexivity | right; exact Hin | ].
    apply Hall. exact Hin.
Qed.

Lemma BytesToHash_id (h : bytes) : length h = 32%nat -> BytesToHash h = h.
Proof.
  intros H. unfold BytesToHash, HashLength. rewrite H.
  change (32 <? 32)%nat with false. cbv iota. rewrite H. reflexivity.
Qed.

Lemma headerKey_number (n : Z) (h : Hash) :
  0 <= n < 2 ^ 64 -> key_number (headerKey n h) = n.
Proof.
  intros Hn. unfold headerKey.
  rewrite key_number_split by apply encodeBlockNumber_length.
  apply decode_encodeBlockNumber. exact Hn.
Qed.

Lemma headerKey_hash (n : Z) (h : Hash) :
  length h = 32%nat -> key_hash (headerKey n h) = h.
Proof.
  intros Hh. unfold key_hash, slice_from, headerKey.
  rewrite !app_assoc.
  replace (length ((headerPrefix ++ encodeBlockNumber n) ++ h) - 32)%nat
    with (length (headerPrefix ++ encodeBlockNumber n))
    by (rewrite (length_app (_ ++ _) h), Hh; lia).
  rewrite skipn_app, skipn_all, Nat.sub_diag. cbn [app skipn].
  apply BytesToHash_id. exact Hh.
Qed.

Lemma headerKey_is_header_key (n : Z) (h : Hash) :
  length h = 32%nat -> is_header_key (headerKey n h) = true.
Proof.
  intros Hh. unfold is_header_key, headerKey. rewrite HasPrefix_app.
  rewrite !len_app. unfold len. rewrite encodeBlockNumber_length, Hh.
  cbn [andb]. apply Z.eqb_eq. lia.
Qed.

(** C6 (as amended).  For first <= last within the range of a uint64, and a
    range short enough for the result slice to be allocated,
    ReadAllHashesInRange returns the (number, hash) pairs of all keys that have
    the length of a header key and a number between [first] and [last], both
    included, in key order and so in ascending order of number.  Every header
    stored at a height in range is returned, the canonical one as well as the
    headers of reorg forks at the same height. *)
Theorem ReadAllHashesInRange_spec (db : DB) (first last : Z) :
  live_sorted db ->
  0 <= first -> first <= last -> last < 2 ^ 64 -> last - first < 2 ^ 45 ->
  let hashes := map number_hash_of (headers_in_range first last db) in
  result db (ReadAllHashesInRange first last) = Done hashes
  /\ StronglySorted Z.le (map nh_Number hashes)
  /\ (forall nh, In nh hashes -> first <= nh_Number nh <= last)
  /\ (forall n h, first <= n <= last -> length h = 32%nat ->
                  In (headerKey n h) (map fst (live db)) ->
                  In {| nh_Number := n; nh_Hash := h |} hashes).
Proof.
  intros Hsorted H0 Hle Hlast Hspan hashes.
  assert (Hiter_sorted :
            StronglySorted (fun x y => bytes_compare (fst x) (fst y) = Lt)
                           (db_NewIterator db headerPrefix (encodeBlockNumber first)))
    by (apply sorted_filter; exact Hsorted).
  assert (Hiter_pre :
            Forall (fun kv => HasPrefix (fst kv) headerPrefix = true)
                   (db_NewIterator db headerPrefix (encodeBlockNumber first))).
  { apply Forall_forall. intros kv Hin. apply filter_In in Hin.
    destruct Hin as [_ Hin]. apply andb_true_iff in Hin. tauto. }
  split; [|split; [|split]].
  - unfold result, exec, ReadAllHashesInRange.
    assert (Hcap : makeslice_ok (wrap64 (1 + last - first)) = true).
    { unfold makeslice_ok, wrap64, ptrSize, maxAlloc.
      rewrite Z.mod_small by lia. apply Z.leb_le. lia. }
    rewrite Hcap. cbn [negb]. cbn [bind newIterator run logged outcome].
    unfold idle. rewrite (hashesInRange_loop_sorted last _ Hiter_sorted Hiter_pre).
    rewrite iterator_header_keys by lia. reflexivity.
  - subst hashes. rewrite map_map. cbn [nh_Number number_hash_of].
    apply (sorted_map_in (fun x y => bytes_compare (fst x) (fst y) = Lt)).
    + intros [k1 v1] [k2 v2] H1 H2 Hlt. cbn [fst] in *.
      apply filter_In in H1. apply filter_In in H2.
      destruct H1 as [_ H1]. destruct H2 as [_ H2]. cbn [fst] in *.
      apply andb_true_iff in H1. destruct H1 as [H1 _].
      apply andb_true_iff in H1. destruct H1 as [H1 _].
      apply andb_true_iff in H2. destruct H2 as [H2 _].
      apply andb_true_iff in H2. destruct H2 as [H2 _].
      unfold is_header_key in H1, H2.
      apply andb_true_iff in H1. destruct H1 as [Hp1 Hl1]. apply Z.eqb_eq in Hl1.
      apply andb_true_iff in H2. destruct H2 as [Hp2 Hl2]. apply Z.eqb_eq in Hl2.
      destruct (numbered_key_shape k1 32 Hp1 Hl1 ltac:(lia)) as (e1 & r1 & Hk1 & He1 & _).
      destruct (numbered_key_shape k2 32 Hp2 Hl2 ltac:(lia)) as (e2 & r2 & Hk2 & He2 & _).
      subst k1 k2. rewrite !key_number_split by assumption.
      eapply numbered_key_order; eassumption.
    + apply sorted_filter. exact Hsorted.
  - intros nh Hin. subst hashes. apply in_map_iff in Hin.
    destruct Hin as ([k v] & Hnh & Hin). subst nh. cbn [nh_Number number_hash_of fst].
    apply filter_In in Hin. destruct Hin as [_ Hin]. cbn [fst] in Hin.
    apply andb_true_iff in Hin. destruct Hin as [Hin Hl].
    apply andb_true_iff in Hin. destruct Hin as [_ Hf].
    apply Z.leb_le in Hl. apply Z.leb_le in Hf. lia.
  - intros n h Hn Hh Hin. subst hashes.
    apply in_map_iff in Hin. destruct Hin as ([k v] & Hk & Hin). cbn [fst] in Hk. subst k.
    apply in_map_iff. exists (headerKey n h, v). split.
    + unfold number_hash_of. cbn [fst].
      rewrite headerKey_number by lia. rewrite headerKey_hash by exact Hh. reflexivity.
    + apply filter_In. split; [exact Hin|]. cbn [fst].
      rewrite headerKey_is_header_key by exact Hh.
      rewrite headerKey_number by lia.
      cbn [andb]. apply andb_true_iff. split; apply Z.leb_le; lia.
Qed.
End RangeProps.

Lemma db_fork_sorted : live_sorted db_fork.
Proof.
  unfold live_sorted, db_fork. cbn [live].
  repeat (constructor; try (vm_compute; reflexivity)).
Qed.

Lemma ReadAllHashesInRange_spec_witness :
  result db_fork (ReadAllHashesInRange 5 5) =
  Done (map number_hash_of (headers_in_range 5 5 db_fork)).
Proof.
  apply (ReadAllHashesInRange_spec db_fork 5 5 db_fork_sorted); lia.
Defined.

(** C6 (as stated) fails: at height 5 the store holds the canonical header
    (hash1) and a fork header (hash2); the range query returns both, so it
    returns a pair that is not the canonical hash of its number. *)
Lemma ReadAllHashesInRange_returns_fork :
  result db_fork (ReadAllHashesInRange 5 5) =
    Done [ {| nh_Number := 5; nh_Hash := hash1 |}; {| nh_Number := 5; nh_Hash := hash2 |} ]
  /\ result db_fork (ReadCanonicalHash 5) = Done hash1
  /\ ~ (forall hashes, result db_fork (ReadAllHashesInRange 5 5) = Done hashes ->
                       only_canonical db_fork hashes).
Proof.
  split; [vm_compute; reflexivity|].
  split; [vm_compute; reflexivity|].
  intros H.
  specialize (H _ eq_refl {| nh_Number := 5; nh_Hash := hash2 |}).
  vm_compute in H.
  assert (Hin : {| nh_Number := 5; nh_Hash := hash2 |} = {| nh_Number := 5; nh_Hash := hash2 |}
                \/ False) by (left; reflexivity).
  specialize (H (or_intror Hin)). discriminate H.
Qed.

Section CanonicalRange.
Context {schema : Schema}.

Lemma later_keys_not_below (key end_ : bytes) (it : list (bytes * bytes)) :
  bytes_compare key end_ <> Lt ->
  Forall (fun y => bytes_compare key (fst y) = Lt) it ->
  filter (counted end_) it = [].
Proof.
  intros Hge Hall. induction it as [|[key' v'] it IH]; [reflexivity|].
  inversion Hall as [|? ? Hlt Hall']; subst. cbn [filter]. rewrite (IH Hall').
  unfold counted. cbn [fst].
  destruct (bytes_compare key' end_) eqn:E; try reflexivity.
  exfalso. apply Hge. eapply bytes_compare_lt_trans; eassumption.
Qed.

Lemma canonicalHashes_loop_sorted (end_ : bytes) (limit : Z) (it : list (bytes * bytes)) :
  StronglySorted (fun x y => bytes_compare (fst x) (fst y) = Lt) it ->
  forall (numbers : list Z) (hashes : list Hash),
  len numbers < limit ->
  let entries := firstn (Z.to_nat limit - length numbers)
                        (map canonical_entry (filter (counted end_) it)) in
  canonicalHashes_loop end_ limit it numbers hashes =
  (numbers ++ map fst entries, hashes ++ map snd entries).
Proof.
  induction 1 as [|[key v] it Hs IH Hall]; intros numbers hashes Hlim; cbv zeta.
  - cbn. rewrite firstn_nil. cbn. rewrite !app_nil_r. reflexivity.
  - cbn [canonicalHashes_loop filter].
    assert (Hcnt : counted end_ (key, v) =
                   match bytes_compare key end_ with Lt => true | _ => false end
                   && ((len key =? len headerPrefix + 8 + 1)
                       && bytes_eqb (slice_from key (length key - 1)) headerHashSuffix))
      by reflexivity.
    rewrite Hcnt. clear Hcnt. cbn [fst] in Hall.
    destruct (bytes_compare key end_) eqn:Ec.
    + rewrite (later_keys_not_below key end_ it) by (congruence || exact Hall).
      cbn. rewrite firstn_nil. cbn. rewrite !app_nil_r. reflexivity.
    + cbn [andb].
      destruct ((len key =? len headerPrefix + 8 + 1)
                && bytes_eqb (slice_from key (length key - 1)) headerHashSuffix) eqn:Ek.
      * fold (key_number key).
        assert (Hpos : (Z.to_nat limit - length numbers = S (Z.to_nat limit - length numbers - 1))%nat)
          by (unfold len in Hlim; lia).
        rewrite Hpos. cbn [map firstn fst snd canonical_entry].
        destruct (len (numbers ++ [key_number key]) >=? limit) eqn:El.
        -- rewrite len_app in El. unfold len in El, Hlim. cbn [length] in El.
           apply Z.geb_le in El.
           replace (Z.to_nat limit - length numbers - 1)%nat with 0%nat by lia.
           rewrite firstn_O. reflexivity.
        -- rewrite len_app in El. unfold len in El. cbn [length] in El.
           rewrite Z.geb_leb in El. apply Z.leb_gt in El.
           rewrite IH by (rewrite len_app; unfold len; cbn [length]; lia).
           cbv zeta. rewrite length_app. cbn [length].
           replace (Z.to_nat limit - (length numbers + 1))%nat
             with (Z.to_nat limit - length numbers - 1)%nat by lia.
           rewrite <- !app_assoc. reflexivity.
      * apply IH. exact Hlim.
    + rewrite (later_keys_not_below key end_ it) by (congruence || exact Hall).
      cbn. rewrite firstn_nil. cbn. rewrite !app_nil_r. reflexivity.
Qed.

(** A key between two keys with a common prefix has that prefix. *)
Lemma between_prefix (p a b : bytes) :
  forall k : bytes,
  bytes_compare k (p ++ a) <> Lt -> bytes_compare k (p ++ b) = Lt ->
  HasPrefix k p = true.
Proof.
  induction p as [|c p IH]; intros k Hge Hlt; [destruct k; reflexivity|].
  destruct k as [|x k]; [cbn in Hge; congruence|].
  cbn in Hge, Hlt |- *.
  destruct (Z.compare_spec (Z_of_byte x) (Z_of_byte c)) as [E|E|E].
  - apply Z_of_byte_inj in E. subst x.
    rewrite (Byte.byte_dec_lb (eq_refl c)). cbn. apply IH; assumption.
  - congruence.
  - discriminate.
Qed.

Lemma canonical_key_shape (key : bytes) :
  length headerHashSuffix = 1%nat ->
  HasPrefix key headerPrefix = true ->
  (len key =? len headerPrefix + 8 + 1) = true ->
  bytes_eqb (slice_from key (length key - 1)) headerHashSuffix = true ->
  exists e, key = headerPrefix ++ e ++ headerHashSuffix /\ length e = 8%nat.
Proof.
  intros Hs Hp Hl Hsfx. apply Z.eqb_eq in Hl. apply bytes_eqb_eq in Hsfx.
  destruct (numbered_key_shape key 1 Hp Hl ltac:(lia)) as (e & r & Hkey & He & Hr).
  exists e. split; [|exact He].
  rewrite <- Hsfx. rewrite Hkey at 1. do 2 f_equal.
  unfold slice_from. rewrite Hkey at 2. rewrite Hkey at 1.
  rewrite !app_assoc.
  replace (length ((headerPrefix ++ e) ++ r) - 1)%nat with (length (headerPrefix ++ e))
    by (rewrite (length_app (_ ++ _) r); unfold len in Hr; lia).
  rewrite skipn_app, skipn_all, Nat.sub_diag. reflexivity.
Qed.

Lemma canonical_key_compare (e : bytes) (n : Z) :
  length headerHashSuffix = 1%nat ->
  length e = 8%nat -> 0 <= n < 2 ^ 64 ->
  bytes_compare (headerPrefix ++ e ++ headerHashSuffix) (headerHashKey n) =
  Z.compare (be_decode e) n.
Proof.
  intros Hs He Hn. unfold headerHashKey.
  rewrite bytes_compare_app_prefix, bytes_compare_app_eqlen
    by (rewrite encodeBlockNumber_length; exact He).
  rewrite (bytes_compare_be e (encodeBlockNumber n))
    by (rewrite encodeBlockNumber_length; exact He).
  rewrite decode_encodeBlockNumber by exact Hn.
  rewrite bytes_compare_refl. destruct (be_decode e ?= n); reflexivity.
Qed.

Lemma counted_in_range (from to : Z) (kv : bytes * bytes) :
  length headerHashSuffix = 1%nat ->
  0 <= from < 2 ^ 64 -> 0 <= to < 2 ^ 64 ->
  (HasPrefix (fst kv) [] &&
   match bytes_compare (fst kv) ([] ++ headerHashKey from) with
   | Lt => false
   | _ => true
   end) && counted (headerHashKey to) kv =
  is_canonical_key (fst kv) && (from <=? key_number (fst kv)) && (key_number (fst kv) <? to).
Proof.
  intros Hs Hfrom Hto. destruct kv as [key v]. unfold counted, is_canonical_key. cbn [fst app].
  assert (Hnil : HasPrefix key [] = true) by (destruct key; reflexivity).
  rewrite Hnil. cbn [andb].
  destruct (len key =? len headerPrefix + 8 + 1) eqn:El;
    [|rewrite !andb_false_r; reflexivity].
  destruct (bytes_eqb (slice_from key (length key - 1)) headerHashSuffix) eqn:Esfx;
    [|rewrite !andb_false_r; reflexivity].
  cbn [andb]. rewrite !andb_true_r.
  destruct (HasPrefix key headerPrefix) eqn:Hp.
  - destruct (canonical_key_shape key Hs Hp El Esfx) as (e & Hkey & He).
    rewrite Hkey, !canonical_key_compare, key_number_split by assumption.
    cbn [andb].
    destruct (Z.compare_spec (be_decode e) from) as [E1|E1|E1];
      destruct (Z.compare_spec (be_decode e) to) as [E2|E2|E2]; cbn [andb];
      symmetry;
      repeat match goal with
             | |- _ && _ = true => apply andb_true_iff; split
             | |- _ && _ = false => apply andb_false_iff
             | |- (_ <=? _) = true => apply Z.leb_le; lia
             | |- (_ <? _) = true => apply Z.ltb_lt; lia
             | |- (_ <=? _) = false \/ _ => first [left; apply Z.leb_gt; lia | right]
             | |- (_ <? _) = false => apply Z.ltb_ge; lia
             end.
  - cbn [andb].
    destruct (bytes_compare key (headerHashKey from)) eqn:E1;
      destruct (bytes_compare key (headerHashKey to)) eqn:E2; try reflexivity;
      exfalso; unfold headerHashKey in E1, E2;
      assert (Hge : bytes_compare key (headerPrefix ++ encodeBlockNumber from
                                                    ++ headerHashSuffix) <> Lt)
        by congruence;
      pose proof (between_prefix _ _ _ key Hge E2); congruence.
Qed.

Lemma In_firstn {A : Type} (n : nat) (l : list A) (x : A) : In x (firstn n l) -> In x l.
Proof.
  intros H. rewrite <- (firstn_skipn n l). apply in_or_app. left. exact H.
Qed.

(** C7.  With limit 0 ReadAllCanonicalHashes returns the empty result without
    a single store call.  With a positive limit it returns, as two parallel
    lists, the first [limit] canonical-hash entries with from <= number < to:
    only keys with the length and suffix byte of a canonical-hash key count,
    the numbers are strictly ascending and start no lower than [from], and the
    scan stops as soon as [limit] entries are collected. *)
Theorem ReadAllCanonicalHashes_spec :
  (forall (bg : nat -> DB -> DB) (i : nat) (db : DB) (from to : Z),
     run bg i db (ReadAllCanonicalHashes from to 0) =
     {| outcome := Done ([], []); final := db; trace := [] |})
  /\ (forall (db : DB) (from to limit : Z),
        live_sorted db ->
        length headerHashSuffix = 1%nat ->
        0 <= from < 2 ^ 64 -> 0 <= to < 2 ^ 64 -> 0 < limit ->
        let entries := firstn (Z.to_nat limit)
                              (map canonical_entry (canonical_in_range from to db)) in
        result db (ReadAllCanonicalHashes from to limit) = Done (map fst entries, map snd entries)
        /\ StronglySorted Z.lt (map fst entries)
        /\ (forall n, In n (map fst entries) -> from <= n < to)
        /\ (length entries <= Z.to_nat limit)%nat).
Proof.
  split; [intros; reflexivity|].
  intros db from to limit Hsorted Hs Hfrom Hto Hlimit entries.
  assert (Hcanon : forall kv, In kv (canonical_in_range from to db) ->
             exists e, fst kv = headerPrefix ++ e ++ headerHashSuffix /\ length e = 8%nat
                       /\ from <= be_decode e < to).
  { intros [key v] Hin. apply filter_In in Hin. destruct Hin as [_ Hin]. cbn [fst] in *.
    apply andb_true_iff in Hin. destruct Hin as [Hin Hlt].
    apply andb_true_iff in Hin. destruct Hin as [Hk Hge].
    unfold is_canonical_key in Hk.
    apply andb_true_iff in Hk. destruct Hk as [Hk Hsfx].
    apply andb_true_iff in Hk. destruct Hk as [Hp Hl].
    destruct (canonical_key_shape key Hs Hp Hl Hsfx) as (e & Hkey & He).
    exists e. split; [exact Hkey|]. split; [exact He|].
    rewrite Hkey, key_number_split in Hge, Hlt by exact He.
    apply Z.leb_le in Hge. apply Z.ltb_lt in Hlt. lia. }
  split; [|split; [|split]].
  - unfold result, exec, ReadAllCanonicalHashes.
    assert (Hl0 : (limit =? 0) = false) by (apply Z.eqb_neq; lia).
    rewrite Hl0. cbn [bind newIterator run logged outcome]. unfold idle.
    rewrite canonicalHashes_loop_sorted
      by (try (apply sorted_filter; exact Hsorted); unfold len; cbn; lia).
    cbv zeta. cbn [length app]. rewrite Nat.sub_0_r.
    unfold db_NewIterator. rewrite filter_filter.
    rewrite (filter_ext _ _ (fun kv => counted_in_range from to kv Hs Hfrom Hto)).
    reflexivity.
  - subst entries. rewrite <- firstn_map. apply StronglySorted_firstn.
    rewrite map_map. cbn [fst canonical_entry].
    apply (sorted_map_in (fun x y => bytes_compare (fst x) (fst y) = Lt)).
    + intros kv1 kv2 H1 H2 Hlt.
      destruct (Hcanon kv1 H1) as (e1 & Hk1 & He1 & _).
      destruct (Hcanon kv2 H2) as (e2 & Hk2 & He2 & _).
      rewrite Hk1, Hk2 in *. rewrite !key_number_split by assumption.
      rewrite bytes_compare_app_prefix, bytes_compare_app_eqlen in Hlt by congruence.
      rewrite (bytes_compare_be e1 e2), bytes_compare_refl in Hlt by congruence.
      destruct (Z.compare_spec (be_decode e1) (be_decode e2)); try discriminate. lia.
    + apply sorted_filter. exact Hsorted.
  - intros n Hn. subst entries. rewrite <- firstn_map in Hn. apply In_firstn in Hn.
    rewrite map_map in Hn. apply in_map_iff in Hn.
    destruct Hn as (kv & Hkv & Hin). cbn [fst canonical_entry] in Hkv. subst n.
    destruct (Hcanon kv Hin) as (e & Hk & He & Hr).
    rewrite Hk, key_number_split by exact He. exact Hr.
  - subst entries. rewrite length_firstn. lia.
Qed.
End CanonicalRange.

Lemma db_chain_10_20_sorted : live_sorted db_chain_10_20.
Proof.
  unfold live_sorted, db_chain_10_20. cbn [live count_from flat_map app].
  repeat (constructor; try (vm_compute; reflexivity)).
Qed.

Lemma ReadAllCanonicalHashes_spec_witness :
  result db_chain_10_20 (ReadAllCanonicalHashes 10 20 5) =
    Done ([10; 11; 12; 13; 14],
          map (fun n => hash_of_byte (byte_of_Z n)) [10; 11; 12; 13; 14])
  /\ result db_chain_10_20 (ReadAllCanonicalHashes 10 20 0) = Done ([], []).
Proof.
  split.
  - destruct (proj2 (@ReadAllCanonicalHashes_spec geth_schema) db_chain_10_20 10 20 5
                db_chain_10_20_sorted eq_refl ltac:(lia) ltac:(lia) ltac:(lia)) as [H _].
    rewrite H. vm_compute. reflexivity.
  - unfold result, exec.
    rewrite (proj1 (@ReadAllCanonicalHashes_spec geth_schema)). reflexivity.
Defined.

(** ** Common ancestor *)

Section AncestorProps.
Context {schema : Schema} {types : Types}.

Lemma run_idle_index {A : Type} (p : Prog A) :
  forall (i j : nat) (db : DB), run idle i db p = run idle j db p.
Proof.
  induction p as [a | x | t n k IH | key k IH | key k IH | pr st k IH
                 | key v k IH | key k IH]; intros i j db; cbn; try reflexivity;
    unfold idle at 1 3; f_equal; apply IH.
Qed.

Lemma ReadHeader_idle (hash : Hash) (number : Z) (db : DB) :
  final (exec db (ReadHeader hash number)) = db /\
  exists r, result db (ReadHeader hash number) = Done r.
Proof.
  split.
  - unfold exec, ReadHeader. rewrite run_bind. cbv zeta.
    assert (Hf : final (run idle 0 db (ReadHeaderRLP hash number)) = db).
    { rewrite ReadHeaderRLP_three_probes. unfold three_probes_unverified, idle.
      destruct (_ >? 0); [reflexivity|]. destruct (_ >? 0); reflexivity. }
    destruct (outcome (run idle 0 db (ReadHeaderRLP hash number))) as [data|f];
      cbn [final]; [|exact Hf].
    destruct (len data =? 0); [exact Hf|].
    destruct (rlp_decode_Header data); exact Hf.
  - unfold result, exec. rewrite ReadHeader_outcome.
    destruct (ReadHeaderRLP_run hash number idle 0 db) as [data Hd]. rewrite Hd.
    eexists; reflexivity.
Qed.

Lemma result_bind_ReadParent {B : Type} (h : Header) (f : option Header -> Prog B) (db : DB) :
  result db (bind (ReadParent h) f) =
  match result db (ReadParent h) with
  | Done r => result db (f r)
  | Halted x => Halted x
  end.
Proof.
  unfold result, exec, ReadParent. rewrite outcome_bind.
  destruct (ReadHeader_idle (header_ParentHash h) (wrap64 (header_NumberU64 h - 1)) db)
    as [Hfin [r Hr]].
  unfold result, exec in Hfin, Hr. rewrite Hfin, Hr.
  apply (f_equal outcome). apply run_idle_index.
Qed.

Lemma ReadParent_done (h : Header) (db : DB) :
  exists r, result db (ReadParent h) = Done r.
Proof. apply ReadHeader_idle. Qed.

Lemma descends_height (db : DB) (a c : Header) (k : nat) :
  descends db a k c -> header_NumberU64 a = header_NumberU64 c + Z.of_nat k.
Proof.
  induction 1 as [a | a p c k Hp Hh Hd IH]; [lia | lia].
Qed.

Lemma descends_split (db : DB) (d k : nat) :
  forall a c, descends db a (d + k) c ->
              exists m, descends db a d m /\ descends db m k c.
Proof.
  induction d as [|d IH]; intros a c H.
  - exists a. split; [constructor | exact H].
  - cbn [Nat.add] in H. inversion H as [|a' p c' k' Hp Hh Hd]; subst.
    destruct (IH p c Hd) as (m & H1 & H2).
    exists m. split; [econstructor; eassumption | exact H2].
Qed.

Lemma descends_app (db : DB) (a m c : Header) (d k : nat) :
  descends db a d m -> descends db m k c -> descends db a (d + k) c.
Proof.
  induction 1 as [a | a p m d Hp Hh Hd IH]; intros H; [exact H|].
  cbn [Nat.add]. econstructor; [eassumption | assumption | apply IH; exact H].
Qed.

Lemma walk_down_noop (fuel : nat) (a : Header) (bn : Z) :
  header_NumberU64 a <= bn -> walk_down fuel a bn = Ret (Some (Some a)).
Proof.
  intros H. assert (E : (header_NumberU64 a >? bn) = false)
    by (rewrite Z.gtb_ltb; apply Z.ltb_ge; exact H).
  destruct fuel; cbn; rewrite E; reflexivity.
Qed.

Lemma walk_down_found (db : DB) (a c : Header) (k : nat) (bn : Z) :
  descends db a k c -> header_NumberU64 c = bn ->
  forall fuel, (k <= fuel)%nat ->
  result db (walk_down fuel a bn) = Done (Some (Some c)).
Proof.
  induction 1 as [a | a p c k Hp Hh Hd IH]; intros Hc fuel Hfuel.
  - rewrite walk_down_noop by lia. reflexivity.
  - pose proof (descends_height db p c k Hd) as Hpc.
    assert (E : (header_NumberU64 a >? bn) = true)
      by (rewrite Z.gtb_ltb; apply Z.ltb_lt; lia).
    destruct fuel as [|fuel]; [lia|].
    cbn [walk_down]. rewrite E, result_bind_ReadParent, Hp.
    apply IH; [exact Hc | lia].
Qed.

Lemma walk_down_gap (db : DB) (a x : Header) (k : nat) (bn : Z) :
  descends db a k x -> bn < header_NumberU64 x ->
  result db (ReadParent x) = Done None ->
  forall fuel, (k < fuel)%nat ->
  result db (walk_down fuel a bn) = Done (Some None).
Proof.
  induction 1 as [a | a p x k Hp Hh Hd IH]; intros Hx Hmiss fuel Hfuel.
  - assert (E : (header_NumberU64 a >? bn) = true)
      by (rewrite Z.gtb_ltb; apply Z.ltb_lt; lia).
    destruct fuel as [|fuel]; [lia|].
    cbn [walk_down]. rewrite E, result_bind_ReadParent, Hmiss. reflexivity.
  - pose proof (descends_height db p x k Hd) as Hpx.
    assert (E : (header_NumberU64 a >? bn) = true)
      by (rewrite Z.gtb_ltb; apply Z.ltb_lt; lia).
    destruct fuel as [|fuel]; [lia|].
    cbn [walk_down]. rewrite E, result_bind_ReadParent, Hp.
    apply IH; [exact Hx | exact Hmiss | lia].
Qed.

Lemma read_only_final {A : Type} (p : Prog A) :
  read_only p -> forall (i : nat) (db : DB), final (run idle i db p) = db.
Proof.
  induction p as [a | x | t n k IH | key k IH | key k IH | pr st k IH
                 | key v k IH | key k IH]; cbn; intros H i db;
    try reflexivity; try contradiction; unfold idle at 1 2; apply IH; apply H.
Qed.

Lemma read_only_bind {A B : Type} (p : Prog A) (f : A -> Prog B) :
  read_only p -> (forall a, read_only (f a)) -> read_only (bind p f).
Proof.
  induction p as [a | x | t n k IH | key k IH | key k IH | pr st k IH
                 | key v k IH | key k IH]; cbn; intros H Hf;
    try (intros r; apply IH; [apply H | exact Hf]); auto.
Qed.

Lemma result_bind {A B : Type} (p : Prog A) (f : A -> Prog B) (db : DB) :
  read_only p ->
  result db (bind p f) =
  match result db p with
  | Done a => result db (f a)
  | Halted x => Halted x
  end.
Proof.
  intros H. unfold result, exec. rewrite outcome_bind.
  rewrite (read_only_final p H).
  destruct (outcome (run idle 0 db p)); [|reflexivity].
  apply (f_equal outcome). apply run_idle_index.
Qed.

Lemma result_Ret {A : Type} (db : DB) (a : A) : result db (Ret a) = Done a.
Proof. reflexivity. Qed.

Lemma ReadParent_read_only (h : Header) : read_only (ReadParent h).
Proof.
  unfold ReadParent, ReadHeader. apply read_only_bind.
  - unfold ReadHeaderRLP. cbn. intros [d e]. destruct (len d >? 0); cbn; [exact I|].
    intros [d1 e1]. destruct (len d1 >? 0); cbn; [exact I|].
    intros [d2 e2]. destruct (len d2 >? 0); exact I.
  - intros data. destruct (len data =? 0); [exact I|].
    destruct (rlp_decode_Header data); exact I.
Qed.

Lemma walk_down_read_only (fuel : nat) :
  forall (a : Header) (bn : Z), read_only (walk_down fuel a bn).
Proof.
  induction fuel as [|fuel IH]; intros a bn; cbn [walk_down];
    destruct (header_NumberU64 a >? bn); try exact I.
  apply read_only_bind; [apply ReadParent_read_only|].
  intros [p|]; [apply IH | exact I].
Qed.

Lemma walk_both_found (db : DB) (k : nat) :
  forall (a b ca cb : Header) (fuel : nat),
  descends db a k ca -> descends db b k cb ->
  header_Hash ca = header_Hash cb ->
  (forall j x y, (j < k)%nat -> descends db a j x -> descends db b j y ->
                 header_Hash x <> header_Hash y) ->
  (k <= fuel)%nat ->
  result db (walk_both fuel a b) = Done (Some (Some ca)).
Proof.
  induction k as [|k IH]; intros a b ca cb fuel Ha Hb Heq Hne Hfuel.
  - inversion Ha; subst. inversion Hb; subst.
    assert (E : bytes_eqb (header_Hash ca) (header_Hash cb) = true)
      by (apply bytes_eqb_eq; exact Heq).
    destruct fuel; cbn [walk_both]; rewrite E; reflexivity.
  - inversion Ha as [|a' pa ca' k' Hpa Hha Hda]; subst.
    inversion Hb as [|b' pb cb' k' Hpb Hhb Hdb]; subst.
    assert (E : bytes_eqb (header_Hash a) (header_Hash b) = false).
    { destruct (bytes_eqb _ _) eqn:E; [|reflexivity].
      apply bytes_eqb_eq in E. exfalso.
      apply (Hne 0%nat a b); [lia | constructor | constructor | exact E]. }
    destruct fuel as [|fuel]; [lia|].
    cbn [walk_both]. rewrite E. cbn [negb].
    rewrite result_bind_ReadParent, Hpa, result_bind_ReadParent, Hpb.
    apply (IH pa pb ca cb fuel Hda Hdb Heq); [|lia].
    intros j x y Hj Hx Hy. apply (Hne (S j) x y); [lia | |];
      econstructor; eassumption.
Qed.

Lemma walk_both_gap (db : DB) (k : nat) :
  forall (a b xa xb : Header) (fuel : nat),
  descends db a k xa -> descends db b k xb ->
  (forall j x y, (j <= k)%nat -> descends db a j x -> descends db b j y ->
                 header_Hash x <> header_Hash y) ->
  (result db (ReadParent xa) = Done None \/ result db (ReadParent xb) = Done None) ->
  (k < fuel)%nat ->
  result db (walk_both fuel a b) = Done (Some None).
Proof.
  induction k as [|k IH]; intros a b xa xb fuel Ha Hb Hne Hmiss Hfuel;
    (assert (E : bytes_eqb (header_Hash a) (header_Hash b) = false);
     [destruct (bytes_eqb _ _) eqn:E; [|reflexivity];
      apply bytes_eqb_eq in E; exfalso;
      apply (Hne 0%nat a b); [lia | constructor | constructor | exact E] |]);
    (destruct fuel as [|fuel]; [lia|]);
    cbn [walk_both]; rewrite E; cbn [negb].
  - inversion Ha; subst. inversion Hb; subst.
    rewrite result_bind_ReadParent.
    destruct (ReadParent_done xa db) as [[pa|] Hra]; rewrite Hra; [|reflexivity].
    rewrite result_bind_ReadParent.
    destruct Hmiss as [Hm | Hm]; [congruence|]. rewrite Hm. reflexivity.
  - inversion Ha as [|a' pa ca' k' Hpa Hha Hda]; subst.
    inversion Hb as [|b' pb cb' k' Hpb Hhb Hdb]; subst.
    rewrite result_bind_ReadParent, Hpa, result_bind_ReadParent, Hpb.
    apply (IH pa pb xa xb fuel Hda Hdb); [| exact Hmiss | lia].
    intros j x y Hj Hx Hy. apply (Hne (S j) x y); [lia | |];
      econstructor; eassumption.
Qed.

(** Levelling: with both headers known down to a common height, the first
    two loops bring the higher one down to the height of the other. *)
Lemma level_heights (db : DB) (a b ca cb : Header) (ka kb fuel : nat) :
  descends db a ka ca -> descends db b kb cb ->
  header_NumberU64 ca = header_NumberU64 cb ->
  (Nat.max ka kb <= fuel)%nat ->
  exists a' b',
    descends db a (ka - Nat.min ka kb) a' /\ descends db a' (Nat.min ka kb) ca /\
    descends db b (kb - Nat.min ka kb) b' /\ descends db b' (Nat.min ka kb) cb /\
    result db (FindCommonAncestor fuel a b) = result db (walk_both fuel a' b').
Proof.
  intros Ha Hb Hc Hfuel.
  pose proof (descends_height db a ca ka Ha) as Hha.
  pose proof (descends_height db b cb kb Hb) as Hhb.
  unfold FindCommonAncestor.
  destruct (Nat.le_gt_cases kb ka) as [Hle | Hgt].
  - (* a is at least as high as b *)
    replace (Nat.min ka kb) with kb by lia.
    replace ka with ((ka - kb) + kb)%nat in Ha by lia.
    destruct (descends_split db (ka - kb) kb a ca Ha) as (a' & Ha1 & Ha2).
    pose proof (descends_height db a' ca kb Ha2) as Hha'.
    exists a', b. rewrite Nat.sub_diag.
    split; [exact Ha1|]. split; [exact Ha2|]. split; [constructor|]. split; [exact Hb|].
    rewrite result_bind by apply walk_down_read_only.
    rewrite (walk_down_found db a a' (ka - kb) _ Ha1) by lia. cbv beta iota.
    rewrite result_bind by apply walk_down_read_only.
    rewrite walk_down_noop by lia. rewrite result_Ret. reflexivity.
  - (* b is higher than a *)
    replace (Nat.min ka kb) with ka by lia.
    replace kb with ((kb - ka) + ka)%nat in Hb by lia.
    destruct (descends_split db (kb - ka) ka b cb Hb) as (b' & Hb1 & Hb2).
    pose proof (descends_height db b' cb ka Hb2) as Hhb'.
    exists a, b'. rewrite Nat.sub_diag.
    split; [constructor|]. split; [exact Ha|]. split; [exact Hb1|]. split; [exact Hb2|].
    rewrite result_bind by apply walk_down_read_only.
    rewrite walk_down_noop by lia. rewrite result_Ret. cbv beta iota.
    rewrite result_bind by apply walk_down_read_only.
    rewrite (walk_down_found db b b' (kb - ka) _ Hb1) by lia. reflexivity.
Qed.

Lemma descends_fun (db : DB) (a c c' : Header) (k : nat) :
  descends db a k c -> descends db a k c' -> c = c'.
Proof.
  intros H. revert c'. induction H as [a | a p c k Hp Hh Hd IH]; intros c' H'.
  - inversion H'. reflexivity.
  - inversion H' as [|a' p' c'' k' Hp' Hh' Hd']; subst.
    rewrite Hp in Hp'. inversion Hp'; subst. apply IH. exact Hd'.
Qed.

(** C8.  FindCommonAncestor first brings the higher header down to the height
    of the other, then walks both down together until their hashes agree.
    With both chains stored down to headers of equal height and hash, and no
    equal hashes at equal heights above them, it returns that header of a's
    chain: the common ancestor at the highest common height.  When a parent
    lookup misses before that, while levelling either header or while walking
    both, it returns nil.  (The loops carry a step budget; any budget of at
    least the number of steps gives the result.) *)
Theorem FindCommonAncestor_spec (db : DB) (a b : Header) :
  (forall (ka kb : nat) (ca cb : Header) (fuel : nat),
     descends db a ka ca -> descends db b kb cb ->
     header_Hash ca = header_Hash cb ->
     header_NumberU64 ca = header_NumberU64 cb ->
     distinct_above db a ka b kb ->
     (Nat.max ka kb <= fuel)%nat ->
     result db (FindCommonAncestor fuel a b) = Done (Some (Some ca)))
  /\ (forall (k : nat) (x : Header) (fuel : nat),
        descends db a k x -> header_NumberU64 b < header_NumberU64 x ->
        result db (ReadParent x) = Done None ->
        (k < fuel)%nat ->
        result db (FindCommonAncestor fuel a b) = Done (Some None))
  /\ (forall (k : nat) (y : Header) (fuel : nat),
        header_NumberU64 a <= header_NumberU64 b ->
        descends db b k y -> header_NumberU64 a < header_NumberU64 y ->
        result db (ReadParent y) = Done None ->
        (k < fuel)%nat ->
        result db (FindCommonAncestor fuel a b) = Done (Some None))
  /\ (forall (ka kb : nat) (xa xb : Header) (fuel : nat),
        descends db a ka xa -> descends db b kb xb ->
        header_NumberU64 xa = header_NumberU64 xb ->
        distinct_above db a (S ka) b (S kb) ->
        result db (ReadParent xa) = Done None \/ result db (ReadParent xb) = Done None ->
        (Nat.max ka kb < fuel)%nat ->
        result db (FindCommonAncestor fuel a b) = Done (Some None)).
Proof.
  split; [|split; [|split]].
  - intros ka kb ca cb fuel Ha Hb Heq Hh Hdist Hfuel.
    destruct (level_heights db a b ca cb ka kb fuel Ha Hb Hh Hfuel)
      as (a' & b' & Ha1 & Ha2 & Hb1 & Hb2 & Hres).
    rewrite Hres.
    apply (walk_both_found db (Nat.min ka kb) a' b' ca cb fuel Ha2 Hb2 Heq); [|lia].
    intros j x y Hj Hx Hy.
    pose proof (descends_height db a' ca _ Ha2) as E1.
    pose proof (descends_height db b' cb _ Hb2) as E2.
    pose proof (descends_height db a' x _ Hx) as E3.
    pose proof (descends_height db b' y _ Hy) as E4.
    apply (Hdist (ka - Nat.min ka kb + j)%nat (kb - Nat.min ka kb + j)%nat x y);
      [lia | lia | eapply descends_app; eassumption
       | eapply descends_app; eassumption | lia].
  - intros k x fuel Hd Hx Hmiss Hfuel. unfold FindCommonAncestor.
    rewrite result_bind by apply walk_down_read_only.
    rewrite (walk_down_gap db a x k _ Hd Hx Hmiss) by exact Hfuel. reflexivity.
  - intros k y fuel Hab Hd Hy Hmiss Hfuel. unfold FindCommonAncestor.
    rewrite result_bind by apply walk_down_read_only.
    rewrite walk_down_noop by exact Hab. rewrite result_Ret. cbv beta iota.
    rewrite result_bind by apply walk_down_read_only.
    rewrite (walk_down_gap db b y k _ Hd Hy Hmiss) by exact Hfuel. reflexivity.
  - intros ka kb xa xb fuel Ha Hb Hh Hdist Hmiss Hfuel.
    destruct (level_heights db a b xa xb ka kb fuel Ha Hb Hh ltac:(lia))
      as (a' & b' & Ha1 & Ha2 & Hb1 & Hb2 & Hres).
    rewrite Hres.
    apply (walk_both_gap db (Nat.min ka kb) a' b' xa xb fuel Ha2 Hb2); [| exact Hmiss | lia].
    intros j x y Hj Hx Hy.
    pose proof (descends_height db a' xa _ Ha2) as E1.
    pose proof (descends_height db b' xb _ Hb2) as E2.
    pose proof (descends_height db a' x _ Hx) as E3.
    pose proof (descends_height db b' y _ Hy) as E4.
    apply (Hdist (ka - Nat.min ka kb + j)%nat (kb - Nat.min ka kb + j)%nat x y);
      [lia | lia | eapply descends_app; eassumption
       | eapply descends_app; eassumption | lia].
Qed.
End AncestorProps.

(** Chain A of height 10 and chain B of height 7 diverge above height 5: the
    common ancestor is the header at height 5.  With heights 0 to 5 missing
    from the store the result is nil. *)
Example common_ancestor_chains :
  result db_two_chains
         (FindCommonAncestor 10 (toy_header 10 9 10) (toy_header 7 106 107)) =
    Done (Some (Some (toy_header 5 4 5)))
  /\ result db_two_chains
            (FindCommonAncestor 10 (toy_header 7 106 107) (toy_header 10 9 10)) =
     Done (Some (Some (toy_header 5 4 5)))
  /\ result db_two_chains_gap
            (FindCommonAncestor 10 (toy_header 10 9 10) (toy_header 7 106 107)) =
     Done (Some None).
Proof.
  vm_compute. repeat split; reflexivity.
Qed.

Ltac parent_step p :=
  apply (@descends_S geth_schema toy_types _ _ p);
  [vm_compute; reflexivity | vm_compute; reflexivity |].

Lemma chainA_descends :
  descends db_two_chains (toy_header 10 9 10) 0 (toy_header 10 9 10) /\
  descends db_two_chains (toy_header 10 9 10) 1 (toy_header 9 8 9) /\
  descends db_two_chains (toy_header 10 9 10) 2 (toy_header 8 7 8) /\
  descends db_two_chains (toy_header 10 9 10) 3 (toy_header 7 6 7) /\
  descends db_two_chains (toy_header 10 9 10) 4 (toy_header 6 5 6) /\
  descends db_two_chains (toy_header 10 9 10) 5 (toy_header 5 4 5).
Proof.
  repeat split.
  - constructor.
  - parent_step (toy_header 9 8 9). constructor.
  - parent_step (toy_header 9 8 9). parent_step (toy_header 8 7 8). constructor.
  - parent_step (toy_header 9 8 9). parent_step (toy_header 8 7 8).
    parent_step (toy_header 7 6 7). constructor.
  - parent_step (toy_header 9 8 9). parent_step (toy_header 8 7 8).
    parent_step (toy_header 7 6 7). parent_step (toy_header 6 5 6). constructor.
  - parent_step (toy_header 9 8 9). parent_step (toy_header 8 7 8).
    parent_step (toy_header 7 6 7). parent_step (toy_header 6 5 6).
    parent_step (toy_header 5 4 5). constructor.
Qed.

Lemma chainB_descends :
  descends db_two_chains (toy_header 7 106 107) 0 (toy_header 7 106 107) /\
  descends db_two_chains (toy_header 7 106 107) 1 (toy_header 6 5 106) /\
  descends db_two_chains (toy_header 7 106 107) 2 (toy_header 5 4 5).
Proof.
  repeat split.
  - constructor.
  - parent_step (toy_header 6 5 106). constructor.
  - parent_step (toy_header 6 5 106). parent_step (toy_header 5 4 5). constructor.
Qed.

Lemma chains_distinct_above :
  distinct_above db_two_chains (toy_header 10 9 10) 5 (toy_header 7 106 107) 2.
Proof.
  destruct chainA_descends as (A0 & A1 & A2 & A3 & A4 & _).
  destruct chainB_descends as (B0 & B1 & _).
  intros ja jb x y Hja Hjb Hx Hy Hh.
  destruct ja as [|[|[|[|[|ja]]]]]; try lia;
    destruct jb as [|[|jb]]; try lia;
    repeat match goal with
           | H1 : descends ?db ?a ?j ?x, H2 : descends ?db ?a ?j ?c |- _ =>
               is_var x;
               pose proof (@descends_fun geth_schema toy_types db a x c j H1 H2); subst x
           end;
    try (vm_compute in Hh; discriminate Hh);
    intros E; vm_compute in E; discriminate E.
Qed.

Lemma FindCommonAncestor_spec_witness :
  result db_two_chains
         (FindCommonAncestor 10 (toy_header 10 9 10) (toy_header 7 106 107)) =
  Done (Some (Some (toy_header 5 4 5))).
Proof.
  destruct chainA_descends as (_ & _ & _ & _ & _ & A5).
  destruct chainB_descends as (_ & _ & B2).
  apply (proj1 (@FindCommonAncestor_spec geth_schema toy_types db_two_chains
                  (toy_header 10 9 10) (toy_header 7 106 107))
               5%nat 2%nat (toy_header 5 4 5) (toy_header 5 4 5) 10%nat A5 B2).
  - reflexivity.
  - reflexivity.
  - exact chains_distinct_above.
  - cbn. lia.
Defined.

(** * Properties of the further accessors *)

(** ** The live store as a map *)

Lemma kv_get_put_other (l : list (bytes * bytes)) (key value k : bytes) :
  k <> key -> kv_get (kv_put l key value) k = kv_get l k.
Proof.
  intros Hk. induction l as [|[k0 v0] r IH]; cbn.
  - destruct (bytes_eqb key k) eqn:E; [|reflexivity].
    apply bytes_eqb_eq in E. congruence.
  - destruct (bytes_compare key k0) eqn:C; cbn.
    + apply bytes_compare_eq_iff in C. subst k0.
      destruct (bytes_eqb key k) eqn:E; [|reflexivity].
      apply bytes_eqb_eq in E. congruence.
    + destruct (bytes_eqb key k) eqn:E; [|reflexivity].
      apply bytes_eqb_eq in E. congruence.
    + rewrite IH. reflexivity.
Qed.

Lemma kv_get_delete_same (l : list (bytes * bytes)) (key : bytes) :
  kv_get (kv_delete l key) key = None.
Proof.
  unfold kv_delete. induction l as [|[k0 v0] r IH]; cbn; [reflexivity|].
  destruct (bytes_eqb k0 key) eqn:E; cbn; [exact IH|].
  rewrite E. exact IH.
Qed.

Lemma kv_get_delete_other (l : list (bytes * bytes)) (key k : bytes) :
  k <> key -> kv_get (kv_delete l key) k = kv_get l k.
Proof.
  intros Hk. unfold kv_delete. induction l as [|[k0 v0] r IH]; cbn; [reflexivity|].
  destruct (bytes_eqb k0 key) eqn:E; cbn.
  - apply bytes_eqb_eq in E. subst k0.
    destruct (bytes_eqb key k) eqn:E'; [|exact IH].
    apply bytes_eqb_eq in E'. congruence.
  - destruct (bytes_eqb k0 k); [reflexivity|exact IH].
Qed.

Lemma live_data_put_same (db : DB) (key value : bytes) :
  live_data (db_Put db key value) key = value.
Proof. unfold live_data, db_Get, db_Put; cbn. rewrite kv_get_put_same. reflexivity. Qed.

Lemma live_data_put_other (db : DB) (key value k : bytes) :
  k <> key -> live_data (db_Put db key value) k = live_data db k.
Proof.
  intros H. unfold live_data, db_Get, db_Put; cbn. rewrite kv_get_put_other by exact H.
  reflexivity.
Qed.

Lemma live_data_delete_same (db : DB) (key : bytes) :
  live_data (db_Delete db key) key = [].
Proof. unfold live_data, db_Get, db_Delete; cbn. rewrite kv_get_delete_same. reflexivity. Qed.

Lemma live_data_delete_other (db : DB) (key k : bytes) :
  k <> key -> live_data (db_Delete db key) k = live_data db k.
Proof.
  intros H. unfold live_data, db_Get, db_Delete; cbn. rewrite kv_get_delete_other by exact H.
  reflexivity.
Qed.

Lemma ancient_data_put (db : DB) (key value : bytes) (kind : Table) (number : Z) :
  ancient_data (db_Put db key value) kind number = ancient_data db kind number.
Proof. reflexivity. Qed.

Lemma ancient_data_delete (db : DB) (key : bytes) (kind : Table) (number : Z) :
  ancient_data (db_Delete db key) kind number = ancient_data db kind number.
Proof. reflexivity. Qed.

Lemma len_eqb_gtb {A : Type} (l : list A) : (len l =? 0) = negb (len l >? 0).
Proof.
  pose proof (Zle_0_nat (length l)). unfold len.
  destruct (Z.eqb_spec (Z.of_nat (length l)) 0), (Z.gtb_spec (Z.of_nat (length l)) 0);
    cbn; try reflexivity; lia.
Qed.

Lemma result_after {A B : Type} (p : Prog A) (f : A -> Prog B) (db : DB) :
  result db (bind p f) =
  match result db p with
  | Done a => result (after db p) (f a)
  | Halted x => Halted x
  end.
Proof.
  unfold result, after, exec. rewrite outcome_bind.
  destruct (outcome (run idle 0 db p)); [|reflexivity].
  apply (f_equal outcome). apply run_idle_index.
Qed.

Lemma after_bind {A B : Type} (p : Prog A) (f : A -> Prog B) (db : DB) :
  after db (bind p f) =
  match result db p with
  | Done a => after (after db p) (f a)
  | Halted _ => after db p
  end.
Proof.
  unfold result, after, exec. rewrite run_bind. cbv zeta.
  destruct (outcome (run idle 0 db p)); [|reflexivity].
  cbn [final]. apply (f_equal final). apply run_idle_index.
Qed.

(** ** The canonical hash *)

Section CanonicalHash.
Context {schema : Schema}.

Lemma ReadCanonicalHash_run (number : Z) (bg : nat -> DB -> DB) (i : nat) (db : DB) :
  outcome (run bg i db (ReadCanonicalHash number)) =
  match outcome (three_probes_unverified bg i db freezerHashTable
                                         (headerHashKey number) number) with
  | Done data => Done (if len data =? 0 then zeroHash else BytesToHash data)
  | Halted f => Halted f
  end.
Proof.
  unfold three_probes_unverified, ReadCanonicalHash, ancient_data, live_data.
  rewrite ?len_eqb_gtb.
  cbn -[db_Ancient db_Get len Z.gtb BytesToHash zeroHash].
  destruct (db_Ancient (bg i db) freezerHashTable number) as [d e].
  cbn -[db_Ancient db_Get len Z.gtb BytesToHash zeroHash].
  rewrite ?len_eqb_gtb.
  destruct (len d >? 0) eqn:E; cbn -[db_Ancient db_Get len Z.gtb BytesToHash zeroHash].
  { rewrite len_eqb_gtb, E. reflexivity. }
  destruct (db_Get _ _) as [d1 e1]. cbn -[db_Ancient db_Get len Z.gtb BytesToHash zeroHash].
  rewrite ?len_eqb_gtb.
  destruct (len d1 >? 0) eqn:E1; cbn -[db_Ancient db_Get len Z.gtb BytesToHash zeroHash].
  { rewrite len_eqb_gtb, E1. reflexivity. }
  destruct (db_Ancient _ _ _) as [d2 e2].
  cbn -[db_Ancient db_Get len Z.gtb BytesToHash zeroHash].
  rewrite ?len_eqb_gtb.
  destruct (len d2 >? 0) eqn:E2; cbn -[db_Ancient db_Get len Z.gtb BytesToHash zeroHash];
    rewrite ?len_eqb_gtb, ?E2; reflexivity.
Qed.

Lemma ReadCanonicalHash_result (number : Z) (db : DB) :
  result db (ReadCanonicalHash number) = Done (canonical_hash_value db number).
Proof.
  unfold result, exec. rewrite ReadCanonicalHash_run.
  unfold three_probes_unverified, canonical_hash_value, idle.
  destruct (len (ancient_data db freezerHashTable number) >? 0) eqn:E; cbn [outcome].
  { rewrite len_eqb_gtb, E. reflexivity. }
  destruct (len (live_data db (headerHashKey number)) >? 0) eqn:E1; cbn [outcome].
  { rewrite len_eqb_gtb, E1. reflexivity. }
  reflexivity.
Qed.

Lemma app_inv_length {A : Type} (a a' b b' : list A) :
  length a = length a' -> a ++ b = a' ++ b' -> a = a' /\ b = b'.
Proof.
  revert a'. induction a as [|x a IH]; intros [|x' a'] Hl H; cbn in *; try discriminate.
  - auto.
  - injection H as Hx H. injection Hl as Hl. destruct (IH a' Hl H) as [-> ->].
    subst x'. auto.
Qed.

Lemma encodeBlockNumber_inj (n n' : Z) :
  is_uint64 n -> is_uint64 n' -> encodeBlockNumber n = encodeBlockNumber n' -> n = n'.
Proof.
  intros Hn Hn' H. rewrite <- (decode_encodeBlockNumber n Hn).
  rewrite <- (decode_encodeBlockNumber n' Hn'). rewrite H. reflexivity.
Qed.

Lemma headerHashKey_inj (n n' : Z) :
  is_uint64 n -> is_uint64 n' -> headerHashKey n = headerHashKey n' -> n = n'.
Proof.
  intros Hn Hn' H. unfold headerHashKey in H. apply app_inv_head in H.
  apply app_inv_length in H; [|rewrite !encodeBlockNumber_length; reflexivity].
  apply encodeBlockNumber_inj; tauto.
Qed.

Lemma canonical_hash_value_put (db : DB) (key value : bytes) (number : Z) :
  key <> headerHashKey number ->
  canonical_hash_value (db_Put db key value) number = canonical_hash_value db number.
Proof.
  intros H. unfold canonical_hash_value. rewrite ancient_data_put.
  rewrite live_data_put_other by congruence. reflexivity.
Qed.

Lemma canonical_hash_value_delete (db : DB) (key : bytes) (number : Z) :
  key <> headerHashKey number ->
  canonical_hash_value (db_Delete db key) number = canonical_hash_value db number.
Proof.
  intros H. unfold canonical_hash_value. rewrite ancient_data_delete.
  rewrite live_data_delete_other by congruence. reflexivity.
Qed.

(** X1.  ReadCanonicalHash on a quiescent store returns the item of the
    ancient hash table when there is one, else the live mapping, else the
    zero hash.  While the freezer moves the mapping, a canonical hash that is
    held by one of the tiers at every moment (the ancient table being
    append-only) is returned, never the zero hash. *)
Theorem ReadCanonicalHash_two_tier (number : Z) (bg : nat -> DB -> DB) (i : nat) (db : DB) :
  result db (ReadCanonicalHash number) = Done (canonical_hash_value db number) /\
  (forall h : bytes,
     h <> [] ->
     (forall j s, hash_held s number h -> hash_held (bg j s) number h) ->
     append_only bg freezerHashTable number ->
     hash_held db number h ->
     outcome (run bg i db (ReadCanonicalHash number)) = Done (BytesToHash h)).
Proof.
  split; [apply ReadCanonicalHash_result|].
  intros h Hh Hkeep Happ H0. rewrite ReadCanonicalHash_run.
  unfold three_probes_unverified.
  assert (Hpos : forall d : bytes, d = h -> (len d >? 0) = true).
  { intros d ->. apply len_pos_nonempty. exact Hh. }
  assert (Hret : forall d : bytes, d = h ->
            (if len d =? 0 then zeroHash else BytesToHash d) = BytesToHash h).
  { intros d ->. rewrite len_eqb_gtb, (Hpos h eq_refl). reflexivity. }
  pose proof (Hkeep i db H0) as H1.
  destruct (len (ancient_data (bg i db) freezerHashTable number) >? 0) eqn:E1; cbn [outcome].
  { destruct H1 as (_ & [Ha|Ha] & _); [rewrite (Hret _ Ha); reflexivity|].
    rewrite Ha in E1. discriminate. }
  pose proof (Hkeep (S i) _ H1) as H2.
  destruct (len (live_data (bg (S i) (bg i db)) (headerHashKey number)) >? 0) eqn:E2;
    cbn [outcome].
  { destruct H2 as ([Hl|Hl] & _); [rewrite (Hret _ Hl); reflexivity|].
    rewrite Hl in E2. discriminate. }
  destruct H2 as (_ & _ & [Hl|Ha]).
  { rewrite (Hpos _ Hl) in E2. discriminate. }
  pose proof (Happ (S (S i)) _ h Hh Ha) as H3.
  rewrite (Hpos _ H3). rewrite (Hret _ H3). reflexivity.
Qed.

(** X2.  WriteCanonicalHash stores the mapping of [number] in the live store:
    a following ReadCanonicalHash returns the written hash unless the ancient
    hash table has an item at [number], which then still wins; the mapping of
    every other number is unchanged. *)
Theorem WriteCanonicalHash_read_back (db : DB) (hash : Hash) (number : Z) :
  length hash = 32%nat ->
  result db (WriteCanonicalHash hash number) = Done tt /\
  result (after db (WriteCanonicalHash hash number)) (ReadCanonicalHash number) =
    Done (if len (ancient_data db freezerHashTable number) >? 0
          then BytesToHash (ancient_data db freezerHashTable number)
          else hash) /\
  (forall number' : Z,
     is_uint64 number -> is_uint64 number' -> number' <> number ->
     result (after db (WriteCanonicalHash hash number)) (ReadCanonicalHash number') =
     result db (ReadCanonicalHash number')).
Proof.
  intros Hlen. split; [reflexivity|].
  change (after db (WriteCanonicalHash hash number))
    with (db_Put db (headerHashKey number) hash).
  split.
  - rewrite ReadCanonicalHash_result. unfold canonical_hash_value.
    rewrite ancient_data_put, live_data_put_same.
    destruct (len (ancient_data db freezerHashTable number) >? 0); [reflexivity|].
    assert (Hpos : (len hash >? 0) = true).
    { unfold len. rewrite Hlen. reflexivity. }
    rewrite Hpos, BytesToHash_id by exact Hlen. reflexivity.
  - intros number' Hn Hn' Hne. rewrite !ReadCanonicalHash_result.
    rewrite canonical_hash_value_put; [reflexivity|].
    intros H. apply Hne. symmetry. apply headerHashKey_inj; assumption.
Qed.

(** X3.  DeleteCanonicalHash removes the live mapping only: afterwards
    ReadCanonicalHash returns the item of the ancient hash table if there is
    one and the zero hash otherwise, and the mapping of every other number is
    unchanged. *)
Theorem DeleteCanonicalHash_read_back (db : DB) (number : Z) :
  result db (DeleteCanonicalHash number) = Done tt /\
  result (after db (DeleteCanonicalHash number)) (ReadCanonicalHash number) =
    Done (if len (ancient_data db freezerHashTable number) >? 0
          then BytesToHash (ancient_data db freezerHashTable number)
          else zeroHash) /\
  (forall number' : Z,
     is_uint64 number -> is_uint64 number' -> number' <> number ->
     result (after db (DeleteCanonicalHash number)) (ReadCanonicalHash number') =
     result db (ReadCanonicalHash number')).
Proof.
  split; [reflexivity|].
  change (after db (DeleteCanonicalHash number))
    with (db_Delete db (headerHashKey number)).
  split.
  - rewrite ReadCanonicalHash_result. unfold canonical_hash_value.
    rewrite ancient_data_delete, live_data_delete_same. reflexivity.
  - intros number' Hn Hn' Hne. rewrite !ReadCanonicalHash_result.
    rewrite canonical_hash_value_delete; [reflexivity|].
    intros H. apply Hne. symmetry. apply headerHashKey_inj; assumption.
Qed.
End CanonicalHash.

Lemma ReadCanonicalHash_two_tier_witness :
  outcome (run bg_freeze_hash0 0 db_canonical0 (@ReadCanonicalHash geth_schema 0)) =
  Done (BytesToHash hash1).
Proof.
  apply (proj2 (@ReadCanonicalHash_two_tier geth_schema 0 bg_freeze_hash0 0 db_canonical0)).
  - discriminate.
  - intros j s H. unfold bg_freeze_hash0.
    destruct ((j =? 1)%nat && _); [|exact H].
    split; [|split].
    + right. unfold live_data, db_Get. cbn [live]. rewrite kv_get_delete_same. reflexivity.
    + left. reflexivity.
    + right. reflexivity.
  - intros j s x Hx H. unfold bg_freeze_hash0.
    destruct (len (ancient_data s freezerHashTable 0) =? 0) eqn:E;
      [|rewrite andb_false_r; exact H].
    apply len_zero_nil in E. congruence.
  - vm_compute. auto.
Defined.

Lemma WriteCanonicalHash_read_back_witness :
  result (after db_empty (@WriteCanonicalHash geth_schema hash1 7))
         (@ReadCanonicalHash geth_schema 7) = Done hash1 /\
  result (after db_empty (@WriteCanonicalHash geth_schema hash1 7))
         (@ReadCanonicalHash geth_schema 8) =
  result db_empty (@ReadCanonicalHash geth_schema 8).
Proof.
  pose proof (@WriteCanonicalHash_read_back geth_schema db_empty hash1 7 eq_refl) as H.
  split.
  - exact (proj1 (proj2 H)).
  - apply (proj2 (proj2 H)); unfold is_uint64; lia.
Defined.

Lemma DeleteCanonicalHash_read_back_witness :
  result (after db_canonical0 (@DeleteCanonicalHash geth_schema 0))
         (@ReadCanonicalHash geth_schema 1) =
  result db_canonical0 (@ReadCanonicalHash geth_schema 1).
Proof.
  apply (proj2 (proj2 (@DeleteCanonicalHash_read_back geth_schema db_canonical0 0)));
    unfold is_uint64; lia.
Defined.

(** ** Numbers and hashes stored under a single key *)

Lemma be_decode_inj (a b : bytes) :
  length a = length b -> be_decode a = be_decode b -> a = b.
Proof.
  intros Hl H. apply bytes_compare_eq_iff. rewrite (bytes_compare_be a b Hl), H.
  apply Z.compare_refl.
Qed.

Lemma len_8_length (d : bytes) : (len d =? 8) = true <-> length d = 8%nat.
Proof. unfold len. rewrite Z.eqb_eq. lia. Qed.

Lemma uint64_read (d : bytes) (n : Z) :
  (if negb (len d =? 8) then None else Some (BigEndian_Uint64 d)) = Some n <->
  is_uint64 n /\ d = encodeBlockNumber n.
Proof.
  unfold is_uint64. split.
  - destruct (len d =? 8) eqn:E; cbn [negb]; [|discriminate].
    apply len_8_length in E. intros H. injection H as H.
    unfold BigEndian_Uint64 in H. rewrite firstn_all2 in H by lia.
    pose proof (be_decode_bound d) as Hb. unfold len in Hb. rewrite E in Hb.
    change (256 ^ Z.of_nat 8) with (2 ^ 64) in Hb. subst n. split; [exact Hb|].
    apply be_decode_inj; [rewrite encodeBlockNumber_length; exact E|].
    rewrite decode_encodeBlockNumber by exact Hb. reflexivity.
  - intros [Hn ->].
    assert (E : (len (encodeBlockNumber n) =? 8) = true).
    { apply len_8_length. apply encodeBlockNumber_length. }
    rewrite E. cbn [negb]. unfold BigEndian_Uint64.
    rewrite firstn_all2 by (rewrite encodeBlockNumber_length; lia).
    rewrite decode_encodeBlockNumber by exact Hn. reflexivity.
Qed.

Lemma kv_get_live_data (db : DB) (key v : bytes) :
  kv_get (live db) key = Some v -> live_data db key = v.
Proof. unfold live_data, db_Get. intros ->. reflexivity. Qed.

Lemma live_data_absent (db : DB) (key : bytes) :
  kv_get (live db) key = None -> live_data db key = [].
Proof. unfold live_data, db_Get. intros ->. reflexivity. Qed.

Section ScalarProps.
Context {schema : Schema} {keys : SchemaKeys}.

Lemma ReadHeaderNumber_result (db : DB) (hash : Hash) :
  result db (ReadHeaderNumber hash) =
  Done (let data := live_data db (headerNumberKey hash) in
        if negb (len data =? 8) then None else Some (BigEndian_Uint64 data)).
Proof.
  unfold result, exec, ReadHeaderNumber, live_data. cbn -[len BigEndian_Uint64 db_Get].
  unfold idle. destruct (db_Get db (headerNumberKey hash)) as [d e].
  cbn -[len BigEndian_Uint64]. destruct (len d =? 8); reflexivity.
Qed.

Lemma headerNumberKey_inj (h h' : Hash) : headerNumberKey h = headerNumberKey h' -> h = h'.
Proof. unfold headerNumberKey. apply app_inv_head. Qed.

(** X4.  ReadHeaderNumber returns [n] exactly when the live store holds the
    8-byte big-endian encoding of [n] under the hash's key: a missing entry
    and an entry of any other length both read as nil, and the number read is
    always a uint64. *)
Theorem ReadHeaderNumber_spec (db : DB) (hash : Hash) (n : Z) :
  (result db (ReadHeaderNumber hash) = Done (Some n) <->
   is_uint64 n /\ live_data db (headerNumberKey hash) = encodeBlockNumber n) /\
  (len (live_data db (headerNumberKey hash)) <> 8 ->
   result db (ReadHeaderNumber hash) = Done None).
Proof.
  rewrite ReadHeaderNumber_result. cbv zeta. split.
  - rewrite <- uint64_read. split; [intros H; injection H as H; exact H | congruence].
  - intros H. apply Z.eqb_neq in H. rewrite H. reflexivity.
Qed.

(** X5.  The hash-to-number index: after WriteHeaderNumber the number is read
    back under the hash, after DeleteHeaderNumber nothing is, and neither
    touches the entry of another hash. *)
Theorem WriteHeaderNumber_read_back (db : DB) (hash : Hash) (number : Z) :
  is_uint64 number ->
  result (after db (WriteHeaderNumber hash number)) (ReadHeaderNumber hash) =
    Done (Some number) /\
  result (after db (DeleteHeaderNumber hash)) (ReadHeaderNumber hash) = Done None /\
  (forall hash' : Hash, hash' <> hash ->
     result (after db (WriteHeaderNumber hash number)) (ReadHeaderNumber hash') =
       result db (ReadHeaderNumber hash') /\
     result (after db (DeleteHeaderNumber hash)) (ReadHeaderNumber hash') =
       result db (ReadHeaderNumber hash')).
Proof.
  intros Hn.
  change (after db (WriteHeaderNumber hash number))
    with (db_Put db (headerNumberKey hash) (encodeBlockNumber number)).
  change (after db (DeleteHeaderNumber hash)) with (db_Delete db (headerNumberKey hash)).
  rewrite !ReadHeaderNumber_result. cbv zeta. split; [|split].
  - rewrite live_data_put_same. f_equal. apply uint64_read. auto.
  - rewrite live_data_delete_same. reflexivity.
  - intros hash' Hne.
    assert (Hk : headerNumberKey hash' <> headerNumberKey hash).
    { intros H. apply Hne. apply headerNumberKey_inj. exact H. }
    rewrite !ReadHeaderNumber_result. cbv zeta.
    rewrite live_data_put_other, live_data_delete_other by exact Hk. auto.
Qed.

Lemma ReadTxIndexTail_result (db : DB) :
  result db ReadTxIndexTail =
  Done (let data := live_data db txIndexTailKey in
        if negb (len data =? 8) then None else Some (BigEndian_Uint64 data)).
Proof.
  unfold result, exec, ReadTxIndexTail, live_data. cbn -[len BigEndian_Uint64 db_Get].
  unfold idle. destruct (db_Get db txIndexTailKey) as [d e].
  cbn -[len BigEndian_Uint64]. destruct (len d =? 8); reflexivity.
Qed.

Lemma ReadFastTxLookupLimit_result (db : DB) :
  result db ReadFastTxLookupLimit =
  Done (let data := live_data db fastTxLookupLimitKey in
        if negb (len data =? 8) then None else Some (BigEndian_Uint64 data)).
Proof.
  unfold result, exec, ReadFastTxLookupLimit, live_data.
  cbn -[len BigEndian_Uint64 db_Get].
  unfold idle. destruct (db_Get db fastTxLookupLimitKey) as [d e].
  cbn -[len BigEndian_Uint64]. destruct (len d =? 8); reflexivity.
Qed.

(** X6.  The transaction-index tail and the fast-sync lookup limit: a written
    number is read back, a store without the entry reads as nil, and a write
    of one marker leaves the other as it was when their keys differ. *)
Theorem index_markers_read_back (db : DB) (number : Z) :
  is_uint64 number ->
  result (after db (WriteTxIndexTail number)) ReadTxIndexTail = Done (Some number) /\
  result (after db (WriteFastTxLookupLimit number)) ReadFastTxLookupLimit =
    Done (Some number) /\
  (kv_get (live db) txIndexTailKey = None -> result db ReadTxIndexTail = Done None) /\
  (kv_get (live db) fastTxLookupLimitKey = None ->
   result db ReadFastTxLookupLimit = Done None) /\
  (txIndexTailKey <> fastTxLookupLimitKey ->
   result (after db (WriteTxIndexTail number)) ReadFastTxLookupLimit =
     result db ReadFastTxLookupLimit /\
   result (after db (WriteFastTxLookupLimit number)) ReadTxIndexTail =
     result db ReadTxIndexTail).
Proof.
  intros Hn.
  change (after db (WriteTxIndexTail number))
    with (db_Put db txIndexTailKey (encodeBlockNumber number)).
  change (after db (WriteFastTxLookupLimit number))
    with (db_Put db fastTxLookupLimitKey (encodeBlockNumber number)).
  rewrite !ReadTxIndexTail_result, !ReadFastTxLookupLimit_result. cbv zeta.
  rewrite !live_data_put_same.
  assert (Hr : (if negb (len (encodeBlockNumber number) =? 8) then None
                else Some (BigEndian_Uint64 (encodeBlockNumber number))) = Some number).
  { apply uint64_read. auto. }
  rewrite Hr. split; [reflexivity|]. split; [reflexivity|]. split; [|split].
  - intros H. rewrite (live_data_absent _ _ H). reflexivity.
  - intros H. rewrite (live_data_absent _ _ H). reflexivity.
  - intros Hk. rewrite !live_data_put_other by congruence. auto.
Qed.

Lemma be_decode_drop_zeros (l : bytes) : be_decode (drop_zeros l) = be_decode l.
Proof.
  induction l as [|x l IH]; cbn [drop_zeros]; [reflexivity|].
  destruct (Z_of_byte x =? 0) eqn:E; [|reflexivity].
  apply Z.eqb_eq in E. rewrite IH, be_decode_cons, E. lia.
Qed.

Lemma ReadFastTrieProgress_result (db : DB) :
  result db ReadFastTrieProgress =
  Done (let data := live_data db fastTrieProgressKey in
        if len data =? 0 then 0 else big_SetBytes_Uint64 data).
Proof.
  unfold result, exec, ReadFastTrieProgress, live_data.
  cbn -[len big_SetBytes_Uint64 db_Get].
  unfold idle. destruct (db_Get db fastTrieProgressKey) as [d e].
  cbn -[len big_SetBytes_Uint64]. destruct (len d =? 0); reflexivity.
Qed.

(** X7.  The fast-sync trie counter: WriteFastTrieProgress stores the count
    without leading zero bytes (nothing at all for 0), and
    ReadFastTrieProgress reads every uint64 count back, 0 included; a store
    without the entry reads as 0. *)
Theorem FastTrieProgress_read_back (db : DB) (count : Z) :
  is_uint64 count ->
  result (after db (WriteFastTrieProgress count)) ReadFastTrieProgress = Done count /\
  (kv_get (live db) fastTrieProgressKey = None -> result db ReadFastTrieProgress = Done 0).
Proof.
  intros Hc.
  change (after db (WriteFastTrieProgress count))
    with (db_Put db fastTrieProgressKey (big_SetUint64_Bytes count)).
  rewrite !ReadFastTrieProgress_result. cbv zeta. split.
  - rewrite live_data_put_same. f_equal.
    assert (Hd : be_decode (big_SetUint64_Bytes count) = count).
    { unfold big_SetUint64_Bytes. rewrite be_decode_drop_zeros.
      apply (decode_encodeBlockNumber count Hc). }
    destruct (len (big_SetUint64_Bytes count) =? 0) eqn:E.
    + apply len_zero_nil in E. rewrite E in Hd. cbn in Hd. exact Hd.
    + unfold big_SetBytes_Uint64, big_Uint64. rewrite Hd.
      unfold is_uint64 in Hc. rewrite Z.abs_eq by lia. apply Z.mod_small. exact Hc.
  - intros H. rewrite (live_data_absent _ _ H). reflexivity.
Qed.

Lemma ReadHeadHeaderHash_result (db : DB) :
  result db ReadHeadHeaderHash =
  Done (let data := live_data db headHeaderKey in
        if len data =? 0 then zeroHash else BytesToHash data).
Proof.
  unfold result, exec, ReadHeadHeaderHash, live_data.
  cbn -[len BytesToHash zeroHash db_Get].
  unfold idle. destruct (db_Get db headHeaderKey) as [d e].
  cbn -[len BytesToHash zeroHash]. destruct (len d =? 0); reflexivity.
Qed.

Lemma ReadHeadBlockHash_result (db : DB) :
  result db ReadHeadBlockHash =
  Done (let data := live_data db headBlockKey in
        if len data =? 0 then zeroHash else BytesToHash data).
Proof.
  unfold result, exec, ReadHeadBlockHash, live_data.
  cbn -[len BytesToHash zeroHash db_Get].
  unfold idle. destruct (db_Get db headBlockKey) as [d e].
  cbn -[len BytesToHash zeroHash]. destruct (len d =? 0); reflexivity.
Qed.

Lemma ReadHeadFastBlockHash_result (db : DB) :
  result db ReadHeadFastBlockHash =
  Done (let data := live_data db headFastBlockKey in
        if len data =? 0 then zeroHash else BytesToHash data).
Proof.
  unfold result, exec, ReadHeadFastBlockHash, live_data.
  cbn -[len BytesToHash zeroHash db_Get].
  unfold idle. destruct (db_Get db headFastBlockKey) as [d e].
  cbn -[len BytesToHash zeroHash]. destruct (len d =? 0); reflexivity.
Qed.

Lemma hash_value_read (h : Hash) :
  length h = 32%nat -> (if len h =? 0 then zeroHash else BytesToHash h) = h.
Proof.
  intros H. unfold len. rewrite H. cbn [Z.of_nat Z.eqb Pos.of_succ_nat].
  apply BytesToHash_id. exact H.
Qed.

(** X8.  The three head pointers (head header, head block, head fast block):
    a written hash is read back, and a store without the entry reads as the
    zero hash. *)
Theorem head_hashes_read_back (db : DB) (hash : Hash) :
  length hash = 32%nat ->
  result (after db (WriteHeadHeaderHash hash)) ReadHeadHeaderHash = Done hash /\
  result (after db (WriteHeadBlockHash hash)) ReadHeadBlockHash = Done hash /\
  result (after db (WriteHeadFastBlockHash hash)) ReadHeadFastBlockHash = Done hash /\
  (kv_get (live db) headHeaderKey = None -> result db ReadHeadHeaderHash = Done zeroHash) /\
  (kv_get (live db) headBlockKey = None -> result db ReadHeadBlockHash = Done zeroHash) /\
  (kv_get (live db) headFastBlockKey = None ->
   result db ReadHeadFastBlockHash = Done zeroHash).
Proof.
  intros Hl.
  change (after db (WriteHeadHeaderHash hash)) with (db_Put db headHeaderKey hash).
  change (after db (WriteHeadBlockHash hash)) with (db_Put db headBlockKey hash).
  change (after db (WriteHeadFastBlockHash hash)) with (db_Put db headFastBlockKey hash).
  rewrite !ReadHeadHeaderHash_result, !ReadHeadBlockHash_result,
    !ReadHeadFastBlockHash_result. cbv zeta.
  rewrite !live_data_put_same, (hash_value_read hash Hl).
  split; [reflexivity|]. split; [reflexivity|]. split; [reflexivity|].
  split; [|split]; intros H; rewrite (live_data_absent _ _ H); reflexivity.
Qed.
End ScalarProps.

Lemma WriteHeaderNumber_read_back_witness :
  result (after db_empty (@WriteHeaderNumber geth_schema hash1 7))
         (@ReadHeaderNumber geth_schema hash1) = Done (Some 7) /\
  result (after db_empty (@WriteHeaderNumber geth_schema hash1 7))
         (@ReadHeaderNumber geth_schema hash2) =
  result db_empty (@ReadHeaderNumber geth_schema hash2).
Proof.
  assert (H7 : is_uint64 7) by (unfold is_uint64; lia).
  pose proof (@WriteHeaderNumber_read_back geth_schema db_empty hash1 7 H7) as H.
  split.
  - exact (proj1 H).
  - apply (proj2 (proj2 H)). vm_compute. discriminate.
Defined.

Lemma index_markers_read_back_witness :
  result (after db_empty (@WriteTxIndexTail geth_keys 7)) (@ReadTxIndexTail geth_keys) =
  Done (Some 7) /\
  result db_empty (@ReadFastTxLookupLimit geth_keys) = Done None /\
  result (after db_empty (@WriteTxIndexTail geth_keys 7)) (@ReadFastTxLookupLimit geth_keys) =
  result db_empty (@ReadFastTxLookupLimit geth_keys).
Proof.
  assert (H7 : is_uint64 7) by (unfold is_uint64; lia).
  pose proof (@index_markers_read_back geth_keys db_empty 7 H7) as H.
  split; [|split].
  - exact (proj1 H).
  - apply (proj1 (proj2 (proj2 (proj2 H)))). reflexivity.
  - apply (proj2 (proj2 (proj2 (proj2 H)))). vm_compute. discriminate.
Defined.

Lemma FastTrieProgress_read_back_witness :
  result (after db_empty (@WriteFastTrieProgress geth_keys 0)) (@ReadFastTrieProgress geth_keys) =
  Done 0 /\
  result db_empty (@ReadFastTrieProgress geth_keys) = Done 0.
Proof.
  assert (H0 : is_uint64 0) by (unfold is_uint64; lia).
  pose proof (@FastTrieProgress_read_back geth_keys db_empty 0 H0) as H.
  split.
  - exact (proj1 H).
  - apply (proj2 H). reflexivity.
Defined.

Lemma head_hashes_read_back_witness :
  result (after db_empty (@WriteHeadBlockHash geth_keys hash1)) (@ReadHeadBlockHash geth_keys) =
  Done hash1 /\
  result db_empty (@ReadHeadHeaderHash geth_keys) = Done zeroHash.
Proof.
  pose proof (@head_hashes_read_back geth_keys db_empty hash1 eq_refl) as H.
  split.
  - exact (proj1 (proj2 H)).
  - apply (proj1 (proj2 (proj2 (proj2 H)))). reflexivity.
Defined.

(** ** Headers, bodies, total difficulties and receipts *)

Section RecordProps.
Context {schema : Schema} {types : Types} {enc : RlpEncode}.

Lemma read_record_result (k : RecordKind) (hash : Hash) (number : Z) (db : DB) :
  result db (read_record k hash number) =
  Done (two_tier_value db (record_table k) (record_key k number hash) hash number).
Proof. unfold result, exec. rewrite read_record_three_probes. apply three_probes_idle. Qed.

Lemma ReadHeaderRLP_result (hash : Hash) (number : Z) (db : DB) :
  result db (ReadHeaderRLP hash number) =
  Done (unverified_value db freezerHeaderTable (headerKey number hash) number).
Proof.
  unfold result, exec. rewrite ReadHeaderRLP_three_probes.
  unfold three_probes_unverified, unverified_value, idle. cbv zeta.
  destruct (len (ancient_data db freezerHeaderTable number) >? 0) eqn:E; [reflexivity|].
  destruct (len (live_data db (headerKey number hash)) >? 0); [reflexivity|].
  cbn [outcome]. reflexivity.
Qed.

Lemma ReadHeader_result (hash : Hash) (number : Z) (db : DB) :
  result db (ReadHeader hash number) =
  Done (let data := unverified_value db freezerHeaderTable (headerKey number hash) number in
        if len data =? 0 then None else rlp_decode_Header data).
Proof.
  unfold result, exec. rewrite ReadHeader_outcome.
  pose proof (ReadHeaderRLP_result hash number db) as H. unfold result, exec in H.
  rewrite H. reflexivity.
Qed.

Lemma ReadBody_result (hash : Hash) (number : Z) (db : DB) :
  result db (ReadBody hash number) =
  Done (let data := two_tier_value db freezerBodiesTable (blockBodyKey number hash)
                                   hash number in
        if len data =? 0 then None else rlp_decode_Body data).
Proof.
  unfold result, exec. rewrite ReadBody_outcome.
  pose proof (read_record_result BodyRecord hash number db) as H.
  unfold result, exec in H. cbn [read_record] in H. rewrite H. reflexivity.
Qed.

Lemma ReadTd_result (hash : Hash) (number : Z) (db : DB) :
  result db (ReadTd hash number) =
  Done (let data := two_tier_value db freezerDifficultyTable (headerTDKey number hash)
                                   hash number in
        if len data =? 0 then None else rlp_decode_Td data).
Proof.
  unfold result, exec. rewrite ReadTd_outcome.
  pose proof (read_record_result TdRecord hash number db) as H.
  unfold result, exec in H. cbn [read_record] in H. rewrite H. reflexivity.
Qed.

Lemma ReadRawReceipts_result (hash : Hash) (number : Z) (db : DB) :
  result db (ReadRawReceipts hash number) =
  Done (let data := two_tier_value db freezerReceiptTable (blockReceiptsKey number hash)
                                   hash number in
        if len data =? 0 then None else rlp_decode_storageReceipts data).
Proof.
  unfold result, exec. rewrite ReadRawReceipts_outcome.
  pose proof (read_record_result ReceiptsRecord hash number db) as H.
  unfold result, exec in H. cbn [read_record] in H. rewrite H. reflexivity.
Qed.

Lemma not_frozen_value (db : DB) (kind : Table) (key : bytes) (hash : Hash) (number : Z) :
  not_frozen db kind hash number ->
  two_tier_value db kind key hash number =
  if len (live_data db key) >? 0 then live_data db key else [].
Proof.
  intros H. unfold two_tier_value.
  destruct (len (ancient_data db kind number) >? 0) eqn:E; [|reflexivity].
  destruct (bytes_eqb _ hash) eqn:Eh; [|reflexivity].
  exfalso. apply bytes_eqb_eq in Eh. destruct H as [H|H]; [|contradiction].
  rewrite H in E. discriminate.
Qed.

Lemma two_tier_value_put_same (db : DB) (kind : Table) (key value : bytes) (hash : Hash)
      (number : Z) :
  value <> [] ->
  two_tier_value (db_Put db key value) kind key hash number =
  if (len (ancient_data db kind number) >? 0)
     && bytes_eqb (BytesToHash (ancient_data db freezerHashTable number)) hash
  then ancient_data db kind number else value.
Proof.
  intros Hv. unfold two_tier_value. rewrite !ancient_data_put, live_data_put_same.
  apply len_pos_nonempty in Hv. rewrite Hv. reflexivity.
Qed.

Lemma two_tier_value_delete_same (db : DB) (kind : Table) (key : bytes) (hash : Hash)
      (number : Z) :
  two_tier_value (db_Delete db key) kind key hash number =
  if (len (ancient_data db kind number) >? 0)
     && bytes_eqb (BytesToHash (ancient_data db freezerHashTable number)) hash
  then ancient_data db kind number else [].
Proof.
  unfold two_tier_value. rewrite !ancient_data_delete, live_data_delete_same. reflexivity.
Qed.

Lemma two_tier_value_put_other (db : DB) (kind : Table) (key k value : bytes) (hash : Hash)
      (number : Z) :
  key <> k ->
  two_tier_value (db_Put db k value) kind key hash number =
  two_tier_value db kind key hash number.
Proof.
  intros H. unfold two_tier_value.
  rewrite !ancient_data_put, live_data_put_other by exact H. reflexivity.
Qed.

Lemma two_tier_value_delete_other (db : DB) (kind : Table) (key k : bytes) (hash : Hash)
      (number : Z) :
  key <> k ->
  two_tier_value (db_Delete db k) kind key hash number =
  two_tier_value db kind key hash number.
Proof.
  intros H. unfold two_tier_value.
  rewrite !ancient_data_delete, live_data_delete_other by exact H. reflexivity.
Qed.

Lemma unverified_value_put_same (db : DB) (kind : Table) (key value : bytes) (number : Z) :
  value <> [] ->
  unverified_value (db_Put db key value) kind key number =
  if len (ancient_data db kind number) >? 0 then ancient_data db kind number else value.
Proof.
  intros Hv. unfold unverified_value. rewrite !ancient_data_put, live_data_put_same.
  apply len_pos_nonempty in Hv. rewrite Hv. reflexivity.
Qed.

Lemma unverified_value_put_other (db : DB) (kind : Table) (key k value : bytes) (number : Z) :
  key <> k ->
  unverified_value (db_Put db k value) kind key number = unverified_value db kind key number.
Proof.
  intros H. unfold unverified_value.
  rewrite !ancient_data_put, live_data_put_other by exact H. reflexivity.
Qed.

Lemma unverified_value_delete_same (db : DB) (kind : Table) (key : bytes) (number : Z) :
  unverified_value (db_Delete db key) kind key number =
  if len (ancient_data db kind number) >? 0 then ancient_data db kind number else [].
Proof.
  unfold unverified_value. rewrite !ancient_data_delete, live_data_delete_same. reflexivity.
Qed.

Lemma unverified_value_delete_other (db : DB) (kind : Table) (key k : bytes) (number : Z) :
  key <> k ->
  unverified_value (db_Delete db k) kind key number = unverified_value db kind key number.
Proof.
  intros H. unfold unverified_value.
  rewrite !ancient_data_delete, live_data_delete_other by exact H. reflexivity.
Qed.

Lemma nonempty_len_eqb (d : bytes) : d <> [] -> (len d =? 0) = false.
Proof.
  intros H. rewrite len_eqb_gtb. apply len_pos_nonempty in H. rewrite H. reflexivity.
Qed.

Lemma WriteHeader_exec (db : DB) (header : Header) :
  let hash := header_Hash header in
  let number := big_Uint64 (header_Number header) in
  let db1 := db_Put db (headerNumberKey hash) (encodeBlockNumber number) in
  exec db (WriteHeader header) =
  match EncodeToBytes_Header header with
  | None => {| outcome := Halted (LogCrit "Failed to RLP encode header"); final := db1;
               trace := [CallPut (headerNumberKey hash) (encodeBlockNumber number)] |}
  | Some data => {| outcome := Done tt; final := db_Put db1 (headerKey number hash) data;
                    trace := [CallPut (headerNumberKey hash) (encodeBlockNumber number);
                              CallPut (headerKey number hash) data] |}
  end.
Proof.
  cbv zeta. unfold exec, WriteHeader. cbn -[encodeBlockNumber].
  destruct (EncodeToBytes_Header header); reflexivity.
Qed.

(** X9.  WriteHeader stores the header under (number, hash) and the
    hash-to-number mapping: when the ancient header table has no item at the
    number, ReadHeader returns the header written, and ReadHeaderNumber the
    header's number. *)
Theorem WriteHeader_read_back (db : DB) (header : Header) (data : bytes) :
  let hash := header_Hash header in
  let number := big_Uint64 (header_Number header) in
  EncodeToBytes_Header header = Some data ->
  data <> [] ->
  rlp_decode_Header data = Some header ->
  result db (WriteHeader header) = Done tt /\
  (ancient_data db freezerHeaderTable number = [] ->
   result (after db (WriteHeader header)) (ReadHeader hash number) = Done (Some header)) /\
  (headerNumberKey hash <> headerKey number hash ->
   result (after db (WriteHeader header)) (ReadHeaderNumber hash) = Done (Some number)).
Proof.
  cbv zeta. intros Henc Hne Hdec.
  pose proof (WriteHeader_exec db header) as Hx. cbv zeta in Hx. rewrite Henc in Hx.
  unfold result, after. rewrite Hx. cbn [outcome final]. split; [reflexivity|]. split.
  - intros Hanc. fold (result (db_Put (db_Put db (headerNumberKey (header_Hash header))
      (encodeBlockNumber (big_Uint64 (header_Number header))))
      (headerKey (big_Uint64 (header_Number header)) (header_Hash header)) data)
      (ReadHeader (header_Hash header) (big_Uint64 (header_Number header)))).
    rewrite ReadHeader_result. cbv zeta.
    rewrite unverified_value_put_same by exact Hne. rewrite ancient_data_put, Hanc.
    cbn [len length Z.of_nat Z.gtb Z.compare]. rewrite (nonempty_len_eqb data Hne).
    rewrite Hdec. reflexivity.
  - intros Hk. fold (result (db_Put (db_Put db (headerNumberKey (header_Hash header))
      (encodeBlockNumber (big_Uint64 (header_Number header))))
      (headerKey (big_Uint64 (header_Number header)) (header_Hash header)) data)
      (ReadHeaderNumber (header_Hash header))).
    rewrite ReadHeaderNumber_result. cbv zeta.
    rewrite live_data_put_other by exact Hk. rewrite live_data_put_same. f_equal.
    apply uint64_read. split; [|reflexivity].
    unfold is_uint64, big_Uint64. apply Z.mod_pos_bound. lia.
Qed.

Lemma WriteBody_exec (db : DB) (hash : Hash) (number : Z) (body : Body) :
  exec db (WriteBody hash number body) =
  match EncodeToBytes_Body body with
  | None => {| outcome := Halted (LogCrit "Failed to RLP encode body"); final := db;
               trace := [] |}
  | Some data => {| outcome := Done tt; final := db_Put db (blockBodyKey number hash) data;
                    trace := [CallPut (blockBodyKey number hash) data] |}
  end.
Proof. unfold exec, WriteBody. destruct (EncodeToBytes_Body body); reflexivity. Qed.

Lemma WriteTd_exec (db : DB) (hash : Hash) (number : Z) (td : Z) :
  exec db (WriteTd hash number td) =
  match EncodeToBytes_Td td with
  | None => {| outcome := Halted (LogCrit "Failed to RLP encode block total difficulty");
               final := db; trace := [] |}
  | Some data => {| outcome := Done tt; final := db_Put db (headerTDKey number hash) data;
                    trace := [CallPut (headerTDKey number hash) data] |}
  end.
Proof. unfold exec, WriteTd. destruct (EncodeToBytes_Td td); reflexivity. Qed.

Lemma WriteReceipts_exec (db : DB) (hash : Hash) (number : Z) (receipts : list Receipt) :
  exec db (WriteReceipts hash number receipts) =
  match EncodeToBytes_storageReceipts receipts with
  | None => {| outcome := Halted (LogCrit "Failed to encode block receipts");
               final := db; trace := [] |}
  | Some data => {| outcome := Done tt;
                    final := db_Put db (blockReceiptsKey number hash) data;
                    trace := [CallPut (blockReceiptsKey number hash) data] |}
  end.
Proof.
  unfold exec, WriteReceipts. rewrite map_id.
  destruct (EncodeToBytes_storageReceipts receipts); reflexivity.
Qed.

(** X10.  When rlp.EncodeToBytes fails, WriteBody, WriteTd and WriteReceipts
    stop with the critical error before any store call, so the store is as it
    was; WriteHeader stops as well, but has by then stored the hash-to-number
    mapping, which ReadHeaderNumber returns although no header is stored. *)
Theorem writers_on_encode_failure (db : DB) (hash : Hash) (number : Z) (header : Header)
        (body : Body) (td : Z) (receipts : list Receipt) :
  (EncodeToBytes_Body body = None ->
   result db (WriteBody hash number body) = Halted (LogCrit "Failed to RLP encode body") /\
   after db (WriteBody hash number body) = db) /\
  (EncodeToBytes_Td td = None ->
   result db (WriteTd hash number td) =
     Halted (LogCrit "Failed to RLP encode block total difficulty") /\
   after db (WriteTd hash number td) = db) /\
  (EncodeToBytes_storageReceipts receipts = None ->
   result db (WriteReceipts hash number receipts) =
     Halted (LogCrit "Failed to encode block receipts") /\
   after db (WriteReceipts hash number receipts) = db) /\
  (EncodeToBytes_Header header = None ->
   result db (WriteHeader header) = Halted (LogCrit "Failed to RLP encode header") /\
   result (after db (WriteHeader header)) (ReadHeaderNumber (header_Hash header)) =
     Done (Some (big_Uint64 (header_Number header))) /\
   (headerKey (big_Uint64 (header_Number header)) (header_Hash header) <>
    headerNumberKey (header_Hash header) ->
    result (after db (WriteHeader header))
           (ReadHeader (header_Hash header) (big_Uint64 (header_Number header))) =
    result db (ReadHeader (header_Hash header) (big_Uint64 (header_Number header))))).
Proof.
  split; [|split; [|split]]; intros H.
  - unfold result, after. rewrite WriteBody_exec, H. auto.
  - unfold result, after. rewrite WriteTd_exec, H. auto.
  - unfold result, after. rewrite WriteReceipts_exec, H. auto.
  - pose proof (WriteHeader_exec db header) as Hx. cbv zeta in Hx. rewrite H in Hx.
    unfold after. unfold result at 1. rewrite Hx. cbn [outcome final].
    split; [reflexivity|]. split.
    + rewrite ReadHeaderNumber_result. cbv zeta. rewrite live_data_put_same. f_equal.
      apply uint64_read. split; [|reflexivity].
      unfold is_uint64, big_Uint64. apply Z.mod_pos_bound. lia.
    + intros E. rewrite !ReadHeader_result. cbv zeta.
      rewrite unverified_value_put_other by exact E. reflexivity.
Qed.

(** X11.  WriteBodyRLP and WriteBody store the body under (number, hash): a
    following ReadBodyRLP returns the bytes written, unless the ancient store
    holds a body at the number under the same canonical hash, which wins; when
    it does not, ReadBody returns the body written. *)
Theorem WriteBody_read_back (db : DB) (hash : Hash) (number : Z) (body : Body)
        (data : bytes) :
  data <> [] ->
  result (after db (WriteBodyRLP hash number data)) (ReadBodyRLP hash number) =
    Done (if (len (ancient_data db freezerBodiesTable number) >? 0)
             && bytes_eqb (BytesToHash (ancient_data db freezerHashTable number)) hash
          then ancient_data db freezerBodiesTable number else data) /\
  (EncodeToBytes_Body body = Some data ->
   rlp_decode_Body data = Some body ->
   not_frozen db freezerBodiesTable hash number ->
   result db (WriteBody hash number body) = Done tt /\
   result (after db (WriteBody hash number body)) (ReadBody hash number) =
     Done (Some body)).
Proof.
  intros Hne. split.
  - change (after db (WriteBodyRLP hash number data))
      with (db_Put db (blockBodyKey number hash) data).
    change (ReadBodyRLP hash number) with (read_record BodyRecord hash number).
    rewrite read_record_result. cbn [record_table record_key].
    apply f_equal. apply two_tier_value_put_same. exact Hne.
  - intros Henc Hdec Hnf. unfold after. unfold result at 1.
    rewrite WriteBody_exec, Henc. cbn [outcome final]. split; [reflexivity|].
    rewrite ReadBody_result. cbv zeta.
    rewrite not_frozen_value by exact Hnf. rewrite live_data_put_same.
    apply len_pos_nonempty in Hne as Hpos. rewrite Hpos.
    rewrite (nonempty_len_eqb data Hne), Hdec. reflexivity.
Qed.

(** X12.  WriteTd and WriteReceipts store the total difficulty and the
    receipts under (number, hash): for a block the ancient store does not hold
    under that hash, ReadTd and ReadRawReceipts return what was written. *)
Theorem WriteTd_WriteReceipts_read_back (db : DB) (hash : Hash) (number : Z) (td : Z)
        (receipts : list Receipt) :
  (forall data : bytes,
     data <> [] ->
     EncodeToBytes_Td td = Some data ->
     rlp_decode_Td data = Some td ->
     not_frozen db freezerDifficultyTable hash number ->
     result db (WriteTd hash number td) = Done tt /\
     result (after db (WriteTd hash number td)) (ReadTd hash number) = Done (Some td)) /\
  (forall data : bytes,
     data <> [] ->
     EncodeToBytes_storageReceipts receipts = Some data ->
     rlp_decode_storageReceipts data = Some receipts ->
     not_frozen db freezerReceiptTable hash number ->
     result db (WriteReceipts hash number receipts) = Done tt /\
     result (after db (WriteReceipts hash number receipts)) (ReadRawReceipts hash number) =
       Done (Some receipts)).
Proof.
  split; intros data Hne Henc Hdec Hnf; apply len_pos_nonempty in Hne as Hpos.
  - unfold after. unfold result at 1. rewrite WriteTd_exec, Henc. cbn [outcome final].
    split; [reflexivity|]. rewrite ReadTd_result. cbv zeta.
    rewrite not_frozen_value by exact Hnf. rewrite live_data_put_same, Hpos.
    rewrite (nonempty_len_eqb data Hne), Hdec. reflexivity.
  - unfold after. unfold result at 1. rewrite WriteReceipts_exec, Henc.
    cbn [outcome final]. split; [reflexivity|]. rewrite ReadRawReceipts_result. cbv zeta.
    rewrite not_frozen_value by exact Hnf. rewrite live_data_put_same, Hpos.
    rewrite (nonempty_len_eqb data Hne), Hdec. reflexivity.
Qed.

Lemma numbered_key_inj (p : bytes) (n n' : Z) (h h' : bytes) :
  is_uint64 n -> is_uint64 n' ->
  p ++ encodeBlockNumber n ++ h = p ++ encodeBlockNumber n' ++ h' -> n = n' /\ h = h'.
Proof.
  intros Hn Hn' H. apply app_inv_head in H.
  apply app_inv_length in H; [|rewrite !encodeBlockNumber_length; reflexivity].
  destruct H as [H1 H2]. split; [apply encodeBlockNumber_inj; assumption|exact H2].
Qed.

Lemma record_key_inj (k : RecordKind) (n n' : Z) (h h' : Hash) :
  is_uint64 n -> is_uint64 n' ->
  record_key k n h = record_key k n' h' -> n = n' /\ h = h'.
Proof.
  intros Hn Hn' H. destruct k; cbn [record_key] in H.
  - apply (numbered_key_inj blockBodyPrefix); assumption.
  - apply (numbered_key_inj blockReceiptsPrefix); assumption.
  - unfold headerTDKey in H. apply app_inv_tail in H.
    apply (numbered_key_inj headerPrefix); assumption.
Qed.

Lemma delete_record_after (k : RecordKind) (db : DB) (hash : Hash) (number : Z) :
  after db (delete_record k hash number) = db_Delete db (record_key k number hash).
Proof. destruct k; reflexivity. Qed.

(** X13.  DeleteBody, DeleteTd and DeleteReceipts remove the live record of
    the block only: afterwards the read returns the ancient item if the
    ancient store holds the block under that hash and nothing otherwise, and
    the record of every other block, a sibling at the same number included,
    is unchanged. *)
Theorem delete_record_spec (k : RecordKind) (db : DB) (hash : Hash) (number : Z) :
  result db (delete_record k hash number) = Done tt /\
  result (after db (delete_record k hash number)) (read_record k hash number) =
    Done (if (len (ancient_data db (record_table k) number) >? 0)
             && bytes_eqb (BytesToHash (ancient_data db freezerHashTable number)) hash
          then ancient_data db (record_table k) number else []) /\
  (forall (hash' : Hash) (number' : Z),
     is_uint64 number -> is_uint64 number' ->
     hash' <> hash \/ number' <> number ->
     result (after db (delete_record k hash number)) (read_record k hash' number') =
     result db (read_record k hash' number')).
Proof.
  split; [destruct k; reflexivity|]. rewrite delete_record_after. split.
  - rewrite read_record_result. apply f_equal. apply two_tier_value_delete_same.
  - intros hash' number' Hn Hn' Hne. rewrite !read_record_result. apply f_equal.
    apply two_tier_value_delete_other. intros E.
    apply record_key_inj in E; [|assumption|assumption]. destruct E as [-> ->].
    destruct Hne as [Hne|Hne]; apply Hne; reflexivity.
Qed.

(** X14.  DeleteHeader removes the live header and the hash-to-number
    mapping; deleteHeaderWithoutNumber removes the header and keeps the
    mapping.  After either, ReadHeaderRLP returns the item of the ancient
    header table if there is one and nothing otherwise. *)
Theorem DeleteHeader_spec (db : DB) (hash : Hash) (number : Z) :
  result (after db (DeleteHeader hash number)) (ReadHeaderRLP hash number) =
    Done (if len (ancient_data db freezerHeaderTable number) >? 0
          then ancient_data db freezerHeaderTable number else []) /\
  result (after db (DeleteHeader hash number)) (ReadHeaderNumber hash) = Done None /\
  result (after db (deleteHeaderWithoutNumber hash number)) (ReadHeaderRLP hash number) =
    Done (if len (ancient_data db freezerHeaderTable number) >? 0
          then ancient_data db freezerHeaderTable number else []) /\
  (headerNumberKey hash <> headerKey number hash ->
   result (after db (deleteHeaderWithoutNumber hash number)) (ReadHeaderNumber hash) =
   result db (ReadHeaderNumber hash)).
Proof.
  change (after db (DeleteHeader hash number))
    with (db_Delete (db_Delete db (headerKey number hash)) (headerNumberKey hash)).
  change (after db (deleteHeaderWithoutNumber hash number))
    with (db_Delete db (headerKey number hash)).
  rewrite !ReadHeaderRLP_result, !ReadHeaderNumber_result. cbv zeta.
  split; [|split; [|split]].
  - apply f_equal.
    destruct (bytes_eq_dec (headerKey number hash) (headerNumberKey hash)) as [E|E].
    + rewrite <- E. rewrite unverified_value_delete_same, ancient_data_delete.
      reflexivity.
    + rewrite unverified_value_delete_other by exact E.
      apply unverified_value_delete_same.
  - rewrite live_data_delete_same. reflexivity.
  - apply f_equal. apply unverified_value_delete_same.
  - intros E. rewrite live_data_delete_other by exact E. reflexivity.
Qed.
End RecordProps.

Lemma WriteHeader_read_back_witness :
  let header := toy_header 5 4 9 in
  let db := after db_empty (@WriteHeader geth_schema toy_types toy_encode header) in
  result db (@ReadHeader geth_schema toy_types (@header_Hash toy_types header)
                         (big_Uint64 (@header_Number toy_types header))) =
  Done (Some header) /\
  result db (@ReadHeaderNumber geth_schema (@header_Hash toy_types header)) =
  Done (Some (big_Uint64 (@header_Number toy_types header))).
Proof.
  cbv zeta.
  assert (Hne : [byte_of_Z 5; byte_of_Z 4; byte_of_Z 9] <> []) by discriminate.
  pose proof (@WriteHeader_read_back geth_schema toy_types toy_encode db_empty
                (toy_header 5 4 9) [byte_of_Z 5; byte_of_Z 4; byte_of_Z 9]
                eq_refl Hne eq_refl) as H.
  cbv zeta in H. split.
  - apply (proj1 (proj2 H)). reflexivity.
  - apply (proj2 (proj2 H)). vm_compute. discriminate.
Defined.

Lemma writers_on_encode_failure_witness :
  after db_empty (@WriteBody geth_schema toy_types failing_encode hash1 5 []) = db_empty /\
  after db_empty (@WriteTd geth_schema toy_types failing_encode hash1 5 0) = db_empty /\
  after db_empty (@WriteReceipts geth_schema toy_types failing_encode hash1 5 []) =
  db_empty /\
  result db_empty (@WriteHeader geth_schema toy_types failing_encode (toy_header 5 4 9)) =
  Halted (LogCrit "Failed to RLP encode header") /\
  result (after db_empty (@WriteHeader geth_schema toy_types failing_encode
                                       (toy_header 5 4 9)))
         (@ReadHeaderNumber geth_schema (@header_Hash toy_types (toy_header 5 4 9))) =
  Done (Some (big_Uint64 (@header_Number toy_types (toy_header 5 4 9)))).
Proof.
  pose proof (@writers_on_encode_failure geth_schema toy_types failing_encode db_empty
                hash1 5 (toy_header 5 4 9) [] 0 []) as H.
  split; [|split; [|split; [|split]]].
  - apply (proj1 H). reflexivity.
  - apply (proj1 (proj2 H)). reflexivity.
  - apply (proj1 (proj2 (proj2 H))). reflexivity.
  - apply (proj2 (proj2 (proj2 H))). reflexivity.
  - apply (proj2 (proj2 (proj2 H))). reflexivity.
Defined.

Lemma WriteBody_read_back_witness :
  result (after db_empty (@WriteBody geth_schema toy_types toy_encode hash1 5
                                     ["007"%byte]))
         (@ReadBody geth_schema toy_types hash1 5) = Done (Some ["007"%byte]).
Proof.
  assert (Hne : ["192"%byte; "007"%byte] <> []) by discriminate.
  apply (proj2 (@WriteBody_read_back geth_schema toy_types toy_encode db_empty hash1 5
                  ["007"%byte] ["192"%byte; "007"%byte] Hne)).
  - reflexivity.
  - reflexivity.
  - left. reflexivity.
Defined.

Lemma WriteTd_WriteReceipts_read_back_witness :
  result (after db_empty (@WriteTd geth_schema toy_types toy_encode hash1 5 9))
         (@ReadTd geth_schema toy_types hash1 5) = Done (Some 9) /\
  result (after db_empty (@WriteReceipts geth_schema toy_types toy_encode hash1 5
                                         ["007"%byte]))
         (@ReadRawReceipts geth_schema toy_types hash1 5) = Done (Some ["007"%byte]).
Proof.
  assert (Hne : ["192"%byte; "007"%byte] <> []) by discriminate.
  assert (Hne' : [byte_of_Z 9] <> []) by discriminate.
  pose proof (@WriteTd_WriteReceipts_read_back geth_schema toy_types toy_encode db_empty
                hash1 5 9 ["007"%byte]) as H.
  split.
  - apply (proj1 H [byte_of_Z 9] Hne'); [reflexivity|reflexivity|left; reflexivity].
  - apply (proj2 H ["192"%byte; "007"%byte] Hne); [reflexivity|reflexivity|left; reflexivity].
Defined.

Lemma delete_record_spec_witness :
  result (after db_live_block0 (@delete_record geth_schema BodyRecord hash2 0))
         (@read_record geth_schema BodyRecord hash1 0) =
  result db_live_block0 (@read_record geth_schema BodyRecord hash1 0).
Proof.
  apply (proj2 (proj2 (@delete_record_spec geth_schema BodyRecord db_live_block0 hash2 0))).
  - unfold is_uint64. lia.
  - unfold is_uint64. lia.
  - left. vm_compute. discriminate.
Defined.

Lemma DeleteHeader_spec_witness :
  result (after db_live_block0 (@deleteHeaderWithoutNumber geth_schema hash1 0))
         (@ReadHeaderNumber geth_schema hash1) =
  result db_live_block0 (@ReadHeaderNumber geth_schema hash1).
Proof.
  apply (proj2 (proj2 (proj2 (@DeleteHeader_spec geth_schema db_live_block0 hash1 0)))).
  vm_compute. discriminate.
Defined.

(** ** Blocks *)

Section BlockProps.
Context {schema : Schema} {keys : SchemaKeys} {types : Types} {enc : RlpEncode}.

Lemma ReadHeaderRLP_read_only (hash : Hash) (number : Z) :
  read_only (ReadHeaderRLP hash number).
Proof.
  unfold ReadHeaderRLP. cbn. intros [d e]. destruct (len d >? 0); cbn; [exact I|].
  intros [d1 e1]. destruct (len d1 >? 0); cbn; [exact I|].
  intros [d2 e2]. destruct (len d2 >? 0); exact I.
Qed.

Lemma read_record_read_only (k : RecordKind) (hash : Hash) (number : Z) :
  read_only (read_record k hash number).
Proof.
  destruct k; cbn -[BytesToHash len];
    repeat (first [ exact I
                  | intros [? ?]
                  | match goal with
                    | |- context [if ?c then _ else _] => destruct c
                    end ]; cbn -[BytesToHash len]).
Qed.

Lemma ReadHeader_read_only (hash : Hash) (number : Z) : read_only (ReadHeader hash number).
Proof.
  unfold ReadHeader. apply read_only_bind; [apply ReadHeaderRLP_read_only|].
  intros data. destruct (len data =? 0); [exact I|].
  destruct (rlp_decode_Header data); exact I.
Qed.

Lemma ReadBody_read_only (hash : Hash) (number : Z) : read_only (ReadBody hash number).
Proof.
  unfold ReadBody. apply read_only_bind; [apply (read_record_read_only BodyRecord)|].
  intros data. destruct (len data =? 0); [exact I|].
  destruct (rlp_decode_Body data); exact I.
Qed.

Lemma ReadRawReceipts_read_only (hash : Hash) (number : Z) :
  read_only (ReadRawReceipts hash number).
Proof.
  unfold ReadRawReceipts.
  apply read_only_bind; [apply (read_record_read_only ReceiptsRecord)|].
  intros data. destruct (len data =? 0); [exact I|].
  destruct (rlp_decode_storageReceipts data); exact I.
Qed.

Lemma ReadBlock_result (hash : Hash) (number : Z) (db : DB) :
  result db (ReadBlock hash number) =
  match result db (ReadHeader hash number) with
  | Done (Some header) =>
      match result db (ReadBody hash number) with
      | Done (Some body) => Done (Some (NewBlockWithBody header body))
      | Done None => Done None
      | Halted f => Halted f
      end
  | Done None => Done None
  | Halted f => Halted f
  end.
Proof.
  unfold ReadBlock. rewrite result_bind by apply ReadHeader_read_only.
  destruct (result db (ReadHeader hash number)) as [[header|]|f]; try reflexivity.
  rewrite result_bind by apply ReadBody_read_only.
  destruct (result db (ReadBody hash number)) as [[body|]|f]; reflexivity.
Qed.

Lemma ReadReceipts_result (hash : Hash) (number : Z) (config : ChainConfig) (db : DB) :
  result db (ReadReceipts hash number config) =
  match result db (ReadRawReceipts hash number) with
  | Done (Some receipts) =>
      match result db (ReadBody hash number) with
      | Done (Some body) =>
          Done (Receipts_DeriveFields receipts config hash number (body_Transactions body))
      | Done None => Done None
      | Halted f => Halted f
      end
  | Done None => Done None
  | Halted f => Halted f
  end.
Proof.
  unfold ReadReceipts. rewrite result_bind by apply ReadRawReceipts_read_only.
  destruct (result db (ReadRawReceipts hash number)) as [[receipts|]|f]; try reflexivity.
  rewrite result_bind by apply ReadBody_read_only.
  destruct (result db (ReadBody hash number)) as [[body|]|f]; try reflexivity.
  destruct (Receipts_DeriveFields _ _ _ _ _); reflexivity.
Qed.

Lemma WriteBlock_exec (db : DB) (block : Block) (hdata bdata : bytes) :
  let hash := Block_Hash block in
  let number := Block_NumberU64 block in
  EncodeToBytes_Header (Block_Header block) = Some hdata ->
  EncodeToBytes_Body (Block_Body block) = Some bdata ->
  result db (WriteBlock block) = Done tt /\
  after db (WriteBlock block) =
  db_Put (db_Put (db_Put db (blockBodyKey number hash) bdata)
                 (headerNumberKey hash) (encodeBlockNumber number))
         (headerKey number hash) hdata.
Proof.
  cbv zeta. intros Hh Hb. unfold WriteBlock. rewrite result_after, after_bind.
  unfold result, after. rewrite WriteBody_exec, Hb. cbn [outcome final].
  pose proof (WriteHeader_exec (db_Put db (blockBodyKey (Block_NumberU64 block)
                (Block_Hash block)) bdata) (Block_Header block)) as Hx.
  cbv zeta in Hx. rewrite Hh in Hx. rewrite Hx. split; reflexivity.
Qed.

(** X15.  WriteBlock stores body and header so that ReadBlock returns the
    block: for a block the ancient store does not hold, whose header and body
    encode to non-empty bytes that decode back, and whose body key differs
    from its header key and its hash-to-number key. *)
Theorem WriteBlock_read_back (db : DB) (block : Block) (hdata bdata : bytes) :
  let hash := Block_Hash block in
  let number := Block_NumberU64 block in
  EncodeToBytes_Header (Block_Header block) = Some hdata ->
  hdata <> [] ->
  rlp_decode_Header hdata = Some (Block_Header block) ->
  EncodeToBytes_Body (Block_Body block) = Some bdata ->
  bdata <> [] ->
  rlp_decode_Body bdata = Some (Block_Body block) ->
  ancient_data db freezerHeaderTable number = [] ->
  not_frozen db freezerBodiesTable hash number ->
  blockBodyKey number hash <> headerKey number hash ->
  blockBodyKey number hash <> headerNumberKey hash ->
  result db (WriteBlock block) = Done tt /\
  result (after db (WriteBlock block)) (ReadBlock hash number) = Done (Some block).
Proof.
  cbv zeta. intros Hh Hhne Hhdec Hb Hbne Hbdec Hanc Hnf Hk1 Hk2.
  destruct (WriteBlock_exec db block hdata bdata Hh Hb) as [Hr Ha]. cbv zeta in Ha.
  split; [exact Hr|]. rewrite Ha, ReadBlock_result, ReadHeader_result, ReadBody_result.
  cbv zeta. rewrite unverified_value_put_same by exact Hhne.
  rewrite !ancient_data_put, Hanc. cbn [len length Z.of_nat Z.gtb Z.compare].
  rewrite (nonempty_len_eqb hdata Hhne), Hhdec.
  rewrite !two_tier_value_put_other by assumption.
  rewrite two_tier_value_put_same by exact Hbne.
  assert (Hsel : (len (ancient_data db freezerBodiesTable (Block_NumberU64 block)) >? 0)
                 && bytes_eqb (BytesToHash (ancient_data db freezerHashTable
                                 (Block_NumberU64 block))) (Block_Hash block) = false).
  { destruct Hnf as [Hnf|Hnf].
    - rewrite Hnf. reflexivity.
    - apply andb_false_iff. right. destruct (bytes_eqb _ _) eqn:E; [|reflexivity].
      apply bytes_eqb_eq in E. contradiction. }
  rewrite Hsel, (nonempty_len_eqb bdata Hbne), Hbdec.
  destruct block; reflexivity.
Qed.

Lemma live_data_delete_empty (db : DB) (key k : bytes) :
  live_data db k = [] -> live_data (db_Delete db key) k = [].
Proof.
  intros H. destruct (bytes_eq_dec k key) as [->|E].
  - apply live_data_delete_same.
  - rewrite live_data_delete_other by exact E. exact H.
Qed.

Lemma DeleteBlock_after (db : DB) (hash : Hash) (number : Z) :
  after db (DeleteBlock hash number) =
  db_Delete (db_Delete (db_Delete (db_Delete (db_Delete db
    (blockReceiptsKey number hash)) (headerKey number hash)) (headerNumberKey hash))
    (blockBodyKey number hash)) (headerTDKey number hash).
Proof. reflexivity. Qed.

Lemma DeleteBlockWithoutNumber_after (db : DB) (hash : Hash) (number : Z) :
  after db (DeleteBlockWithoutNumber hash number) =
  db_Delete (db_Delete (db_Delete (db_Delete db
    (blockReceiptsKey number hash)) (headerKey number hash))
    (blockBodyKey number hash)) (headerTDKey number hash).
Proof. reflexivity. Qed.

Lemma unverified_value_absent (db : DB) (kind : Table) (key : bytes) (number : Z) :
  ancient_data db kind number = [] -> live_data db key = [] ->
  unverified_value db kind key number = [].
Proof. intros Ha Hl. unfold unverified_value. rewrite Ha, Hl. reflexivity. Qed.

Lemma two_tier_value_absent (db : DB) (kind : Table) (key : bytes) (hash : Hash)
      (number : Z) :
  not_frozen db kind hash number -> live_data db key = [] ->
  two_tier_value db kind key hash number = [].
Proof. intros Hnf Hl. rewrite not_frozen_value by exact Hnf. rewrite Hl. reflexivity. Qed.

Lemma block_reads_absent (db : DB) (hash : Hash) (number : Z) :
  not_in_ancient db hash number ->
  live_data db (headerKey number hash) = [] ->
  live_data db (blockBodyKey number hash) = [] ->
  live_data db (headerTDKey number hash) = [] ->
  live_data db (blockReceiptsKey number hash) = [] ->
  result db (ReadHeader hash number) = Done None /\
  result db (ReadBody hash number) = Done None /\
  result db (ReadTd hash number) = Done None /\
  result db (ReadRawReceipts hash number) = Done None /\
  result db (ReadBlock hash number) = Done None.
Proof.
  intros [Hanc Hnf] Hh Hb Ht Hr.
  assert (H1 : result db (ReadHeader hash number) = Done None).
  { rewrite ReadHeader_result. cbv zeta.
    rewrite unverified_value_absent by assumption. reflexivity. }
  rewrite ReadBlock_result, H1, ReadBody_result, ReadTd_result, ReadRawReceipts_result.
  cbv zeta.
  pose proof (Hnf BodyRecord) as HB. pose proof (Hnf TdRecord) as HT.
  pose proof (Hnf ReceiptsRecord) as HR. cbn [record_table] in HB, HT, HR.
  rewrite (two_tier_value_absent db _ _ hash number HB Hb).
  rewrite (two_tier_value_absent db _ _ hash number HT Ht).
  rewrite (two_tier_value_absent db _ _ hash number HR Hr).
  repeat split; reflexivity.
Qed.

(** X16.  DeleteBlock removes header, body, receipts, total difficulty and
    the hash-to-number mapping of a block: when the ancient store does not
    hold the block, no read by (hash, number) returns anything afterwards and
    the number of the hash is unknown. *)
Theorem DeleteBlock_removes_all (db : DB) (hash : Hash) (number : Z) :
  not_in_ancient db hash number ->
  let db' := after db (DeleteBlock hash number) in
  result db (DeleteBlock hash number) = Done tt /\
  result db' (ReadHeader hash number) = Done None /\
  result db' (ReadBody hash number) = Done None /\
  result db' (ReadTd hash number) = Done None /\
  result db' (ReadRawReceipts hash number) = Done None /\
  result db' (ReadBlock hash number) = Done None /\
  result db' (ReadHeaderNumber hash) = Done None.
Proof.
  intros Hna. cbv zeta. rewrite DeleteBlock_after. split; [reflexivity|].
  rewrite <- !and_assoc. split.
  - rewrite !and_assoc. apply block_reads_absent.
    + exact Hna.
    + do 3 apply live_data_delete_empty. apply live_data_delete_same.
    + do 1 apply live_data_delete_empty. apply live_data_delete_same.
    + apply live_data_delete_same.
    + do 4 apply live_data_delete_empty. apply live_data_delete_same.
  - rewrite ReadHeaderNumber_result. cbv zeta.
    rewrite (live_data_delete_empty _ _ _
               (live_data_delete_empty _ _ _ (live_data_delete_same _ _))).
    reflexivity.
Qed.

(** X17.  DeleteBlockWithoutNumber removes header, body, receipts and total
    difficulty of a block the ancient store does not hold, so that no read by
    (hash, number) returns anything, but keeps the hash-to-number mapping when
    its key is none of the four keys deleted. *)
Theorem DeleteBlockWithoutNumber_keeps_number (db : DB) (hash : Hash) (number : Z) :
  not_in_ancient db hash number ->
  let db' := after db (DeleteBlockWithoutNumber hash number) in
  result db (DeleteBlockWithoutNumber hash number) = Done tt /\
  result db' (ReadHeader hash number) = Done None /\
  result db' (ReadBody hash number) = Done None /\
  result db' (ReadTd hash number) = Done None /\
  result db' (ReadRawReceipts hash number) = Done None /\
  result db' (ReadBlock hash number) = Done None /\
  (headerNumberKey hash <> headerKey number hash ->
   headerNumberKey hash <> blockBodyKey number hash ->
   headerNumberKey hash <> headerTDKey number hash ->
   headerNumberKey hash <> blockReceiptsKey number hash ->
   result db' (ReadHeaderNumber hash) = result db (ReadHeaderNumber hash)).
Proof.
  intros Hna. cbv zeta. rewrite DeleteBlockWithoutNumber_after. split; [reflexivity|].
  rewrite <- !and_assoc. split.
  - rewrite !and_assoc. apply block_reads_absent.
    + exact Hna.
    + do 2 apply live_data_delete_empty. apply live_data_delete_same.
    + do 1 apply live_data_delete_empty. apply live_data_delete_same.
    + apply live_data_delete_same.
    + do 3 apply live_data_delete_empty. apply live_data_delete_same.
  - intros H1 H2 H3 H4. rewrite !ReadHeaderNumber_result. cbv zeta.
    rewrite !live_data_delete_other by assumption. reflexivity.
Qed.

(** X18.  A block whose body cannot be read is not returned by ReadBlock, and
    its receipts are not returned by ReadReceipts, whatever else is stored;
    this is the state DeleteBody leaves for a block that the ancient store
    does not hold. *)
Theorem body_missing (db : DB) (hash : Hash) (number : Z) :
  (result db (ReadBody hash number) = Done None ->
   result db (ReadBlock hash number) = Done None /\
   forall config : ChainConfig, result db (ReadReceipts hash number config) = Done None) /\
  (not_frozen db freezerBodiesTable hash number ->
   result (after db (DeleteBody hash number)) (ReadBody hash number) = Done None).
Proof.
  split.
  - intros H. split.
    + rewrite ReadBlock_result, H.
      destruct (result db (ReadHeader hash number)) as [[header|]|f] eqn:E; try reflexivity.
      destruct (ReadHeader_idle hash number db) as [_ [r Hr]]. congruence.
    + intros config. rewrite ReadReceipts_result, H.
      destruct (result db (ReadRawReceipts hash number)) as [[rs|]|f] eqn:E;
        try reflexivity.
      rewrite ReadRawReceipts_result in E. discriminate.
  - intros Hnf. change (after db (DeleteBody hash number))
      with (db_Delete db (blockBodyKey number hash)).
    rewrite ReadBody_result. cbv zeta. rewrite two_tier_value_delete_same.
    destruct Hnf as [Hnf|Hnf].
    + rewrite Hnf. reflexivity.
    + destruct (bytes_eqb _ hash) eqn:E; [apply bytes_eqb_eq in E; contradiction|].
      rewrite andb_false_r. reflexivity.
Qed.

Lemma ReadHeadHeaderHash_read_only : read_only ReadHeadHeaderHash.
Proof. cbn. intros [d e]. destruct (len d =? 0); exact I. Qed.

Lemma ReadHeadBlockHash_read_only : read_only ReadHeadBlockHash.
Proof. cbn. intros [d e]. destruct (len d =? 0); exact I. Qed.

Lemma ReadHeaderNumber_read_only (hash : Hash) : read_only (ReadHeaderNumber hash).
Proof. cbn. intros [d e]. destruct (len d =? 8); exact I. Qed.

Lemma ReadHeadHeader_result (db : DB) :
  result db ReadHeadHeader =
  match result db ReadHeadHeaderHash with
  | Done h =>
      if bytes_eqb h zeroHash then Done None else
      match result db (ReadHeaderNumber h) with
      | Done (Some number) => result db (ReadHeader h number)
      | Done None => Done None
      | Halted f => Halted f
      end
  | Halted f => Halted f
  end.
Proof.
  unfold ReadHeadHeader. rewrite result_bind by apply ReadHeadHeaderHash_read_only.
  destruct (result db ReadHeadHeaderHash) as [h|f]; [|reflexivity].
  destruct (bytes_eqb h zeroHash); [reflexivity|].
  rewrite result_bind by apply ReadHeaderNumber_read_only.
  destruct (result db (ReadHeaderNumber h)) as [[n|]|f]; reflexivity.
Qed.

Lemma ReadHeadBlock_result (db : DB) :
  result db ReadHeadBlock =
  match result db ReadHeadBlockHash with
  | Done h =>
      if bytes_eqb h zeroHash then Done None else
      match result db (ReadHeaderNumber h) with
      | Done (Some number) => result db (ReadBlock h number)
      | Done None => Done None
      | Halted f => Halted f
      end
  | Halted f => Halted f
  end.
Proof.
  unfold ReadHeadBlock. rewrite result_bind by apply ReadHeadBlockHash_read_only.
  destruct (result db ReadHeadBlockHash) as [h|f]; [|reflexivity].
  destruct (bytes_eqb h zeroHash); [reflexivity|].
  rewrite result_bind by apply ReadHeaderNumber_read_only.
  destruct (result db (ReadHeaderNumber h)) as [[n|]|f]; reflexivity.
Qed.

Lemma bytes_eqb_neq (a b : bytes) : a <> b -> bytes_eqb a b = false.
Proof.
  intros H. destruct (bytes_eqb a b) eqn:E; [|reflexivity].
  apply bytes_eqb_eq in E. contradiction.
Qed.

(** X19.  ReadHeadHeader follows the head-header pointer: once
    WriteHeadHeaderHash has set the pointer to a non-zero hash whose number is
    indexed, it returns what ReadHeader returns for that hash and number;
    it returns nil when the pointer is missing and when the hash has no
    number. *)
Theorem ReadHeadHeader_spec (db : DB) (hash : Hash) (number : Z) :
  (kv_get (live db) headHeaderKey = None -> result db ReadHeadHeader = Done None) /\
  (length hash = 32%nat ->
   hash <> zeroHash ->
   headerNumberKey hash <> headHeaderKey ->
   (result db (ReadHeaderNumber hash) = Done None ->
    result (after db (WriteHeadHeaderHash hash)) ReadHeadHeader = Done None) /\
   (result db (ReadHeaderNumber hash) = Done (Some number) ->
    headerKey number hash <> headHeaderKey ->
    result (after db (WriteHeadHeaderHash hash)) ReadHeadHeader =
    result db (ReadHeader hash number))).
Proof.
  split.
  - intros H. rewrite ReadHeadHeader_result, ReadHeadHeaderHash_result. cbv zeta.
    rewrite (live_data_absent _ _ H). reflexivity.
  - intros Hl Hz Hk.
    change (after db (WriteHeadHeaderHash hash)) with (db_Put db headHeaderKey hash).
    rewrite ReadHeadHeader_result, ReadHeadHeaderHash_result. cbv zeta.
    rewrite live_data_put_same, (hash_value_read hash Hl), (bytes_eqb_neq _ _ Hz).
    rewrite !ReadHeaderNumber_result. cbv zeta.
    rewrite live_data_put_other by exact Hk. split.
    + intros H. injection H as H. rewrite H. reflexivity.
    + intros H Hk'. injection H as H. rewrite H, !ReadHeader_result. cbv zeta.
      rewrite unverified_value_put_other by exact Hk'. reflexivity.
Qed.

(** X20.  ReadHeadBlock follows the head-block pointer: once
    WriteHeadBlockHash has set the pointer to a non-zero hash whose number is
    indexed, it returns what ReadBlock returns for that hash and number; it
    returns nil when the pointer is missing and when the hash has no
    number. *)
Theorem ReadHeadBlock_spec (db : DB) (hash : Hash) (number : Z) :
  (kv_get (live db) headBlockKey = None -> result db ReadHeadBlock = Done None) /\
  (length hash = 32%nat ->
   hash <> zeroHash ->
   headerNumberKey hash <> headBlockKey ->
   (result db (ReadHeaderNumber hash) = Done None ->
    result (after db (WriteHeadBlockHash hash)) ReadHeadBlock = Done None) /\
   (result db (ReadHeaderNumber hash) = Done (Some number) ->
    headerKey number hash <> headBlockKey ->
    blockBodyKey number hash <> headBlockKey ->
    result (after db (WriteHeadBlockHash hash)) ReadHeadBlock =
    result db (ReadBlock hash number))).
Proof.
  split.
  - intros H. rewrite ReadHeadBlock_result, ReadHeadBlockHash_result. cbv zeta.
    rewrite (live_data_absent _ _ H). reflexivity.
  - intros Hl Hz Hk.
    change (after db (WriteHeadBlockHash hash)) with (db_Put db headBlockKey hash).
    rewrite ReadHeadBlock_result, ReadHeadBlockHash_result. cbv zeta.
    rewrite live_data_put_same, (hash_value_read hash Hl), (bytes_eqb_neq _ _ Hz).
    rewrite !ReadHeaderNumber_result. cbv zeta.
    rewrite live_data_put_other by exact Hk. split.
    + intros H. injection H as H. rewrite H. reflexivity.
    + intros H Hk1 Hk2. injection H as H. rewrite H, !ReadBlock_result, !ReadHeader_result, !ReadBody_result.
      cbv zeta. rewrite unverified_value_put_other by exact Hk1.
      rewrite two_tier_value_put_other by exact Hk2. reflexivity.
Qed.

Lemma result_Ancient {A : Type} (t : Table) (n : Z) (k : bytes * error -> Prog A) (db : DB) :
  result db (Ancient t n k) = result db (k (db_Ancient db t n)).
Proof. unfold result, exec. cbn. apply (f_equal outcome). apply run_idle_index. Qed.

Lemma result_Get {A : Type} (key : bytes) (k : bytes * error -> Prog A) (db : DB) :
  result db (Get key k) = result db (k (db_Get db key)).
Proof. unfold result, exec. cbn. apply (f_equal outcome). apply run_idle_index. Qed.

Lemma ReadCanonicalHash_read_only (number : Z) : read_only (ReadCanonicalHash number).
Proof.
  unfold ReadCanonicalHash. cbn -[BytesToHash zeroHash len]. intros [d e].
  destruct (len d =? 0); cbn -[BytesToHash zeroHash len].
  - intros [d1 e1]. destruct (len d1 =? 0) eqn:E1; cbn -[BytesToHash zeroHash len].
    + intros [d2 e2]. cbn -[BytesToHash zeroHash len]. destruct (len d2 =? 0); exact I.
    + rewrite E1. exact I.
  - destruct (len d =? 0); exact I.
Qed.

(** X21.  ReadCanonicalBodyRLP returns, on a quiescent store whose ancient
    hash table has an item wherever the ancient body table has one, what
    ReadBodyRLP returns for the canonical hash of the number. *)
Theorem ReadCanonicalBodyRLP_spec (db : DB) (number : Z) :
  (ancient_data db freezerBodiesTable number <> [] ->
   ancient_data db freezerHashTable number <> []) ->
  result db (ReadCanonicalBodyRLP number) =
  match result db (ReadCanonicalHash number) with
  | Done hash => result db (ReadBodyRLP hash number)
  | Halted f => Halted f
  end.
Proof.
  intros Hpar. rewrite ReadCanonicalHash_result.
  change (ReadBodyRLP (canonical_hash_value db number) number)
    with (read_record BodyRecord (canonical_hash_value db number) number).
  rewrite read_record_result. cbn [record_table record_key].
  unfold ReadCanonicalBodyRLP. unfold ancient at 1. cbn [bind]. rewrite result_Ancient.
  unfold two_tier_value.
  destruct (db_Ancient db freezerBodiesTable number) as [d e] eqn:Ed.
  assert (Hd : ancient_data db freezerBodiesTable number = d).
  { unfold ancient_data. rewrite Ed. reflexivity. }
  rewrite Hd in *. cbn [bind]. rewrite len_eqb_gtb.
  destruct (len d >? 0) eqn:E; cbn [negb andb].
  - assert (Hh : bytes_eqb (BytesToHash (ancient_data db freezerHashTable number))
                           (canonical_hash_value db number) = true).
    { apply bytes_eqb_eq. unfold canonical_hash_value.
      assert (Hne : ancient_data db freezerHashTable number <> []).
      { apply Hpar. apply len_pos_nonempty. exact E. }
      apply len_pos_nonempty in Hne. rewrite Hne. reflexivity. }
    rewrite Hh. reflexivity.
  - rewrite result_bind by apply ReadCanonicalHash_read_only.
    rewrite ReadCanonicalHash_result. unfold get. cbn [bind]. rewrite result_Get.
    destruct (db_Get db (blockBodyKey number (canonical_hash_value db number)))
      as [d1 e1] eqn:Eg.
    assert (Hl : live_data db (blockBodyKey number (canonical_hash_value db number)) = d1).
    { unfold live_data. rewrite Eg. reflexivity. }
    rewrite Hl. cbn [bind]. rewrite len_eqb_gtb.
    destruct (len d1 >? 0) eqn:E1; cbn [negb]; [reflexivity|].
    unfold ancient. cbn [bind]. rewrite result_Ancient, Ed. cbn [bind].
    apply len_pos_false in E1. apply len_pos_false in E. subst.
    rewrite result_Ret, E. reflexivity.
Qed.

Lemma has_record_result (k : HasKind) (hash : Hash) (number : Z) (db : DB) :
  result db (has_record k hash number) =
  Done (if has_ancient db hash number then true
        else fst (db_Has db (has_key k number hash))).
Proof.
  unfold result, exec. rewrite has_record_run. cbv zeta. unfold idle.
  destruct (has_ancient db hash number); reflexivity.
Qed.

Lemma db_Has_live_data (db : DB) (key : bytes) :
  live_data db key <> [] -> fst (db_Has db key) = true.
Proof.
  unfold live_data, db_Get, db_Has. destruct (kv_get (live db) key); [reflexivity|].
  intros H. exfalso. apply H. reflexivity.
Qed.

Lemma BytesToHash_nil : BytesToHash [] = zeroHash.
Proof. reflexivity. Qed.

Lemma has_ancient_match (db : DB) (hash : Hash) (number : Z) :
  hash <> zeroHash ->
  bytes_eqb (BytesToHash (ancient_data db freezerHashTable number)) hash = true ->
  has_ancient db hash number = true.
Proof.
  intros Hz H. unfold has_ancient. unfold ancient_data in H.
  destruct (db_Ancient db freezerHashTable number) as [h [e|]] eqn:E; [|exact H].
  exfalso. unfold db_Ancient in E.
  destruct (nth_error _ _); [destruct (0 <=? number)|]; try discriminate;
    injection E as <- _; cbn [fst] in H; apply bytes_eqb_eq in H; auto.
Qed.

(** X22.  On a quiescent store the existence checks agree with the reads for
    every non-zero hash: when ReadBodyRLP or ReadReceiptsRLP returns data,
    HasBody or HasReceipts answers true.  The converse fails for an entry
    stored with empty data, which HasBody reports and ReadBodyRLP does not
    return. *)
Theorem read_implies_has (db : DB) (hash : Hash) (number : Z) (data : bytes) :
  hash <> zeroHash ->
  data <> [] ->
  (result db (ReadBodyRLP hash number) = Done data ->
   result db (HasBody hash number) = Done true) /\
  (result db (ReadReceiptsRLP hash number) = Done data ->
   result db (HasReceipts hash number) = Done true) /\
  (has_ancient db hash number = false ->
   result (after db (WriteBodyRLP hash number [])) (HasBody hash number) = Done true /\
   result (after db (WriteBodyRLP hash number [])) (ReadBodyRLP hash number) = Done []).
Proof.
  intros Hz Hne.
  assert (Hgen : forall kind key,
            two_tier_value db kind key hash number = data ->
            (if has_ancient db hash number then true else fst (db_Has db key)) = true).
  { intros kind key H. unfold two_tier_value in H.
    destruct (len (ancient_data db kind number) >? 0); cbn [andb] in H.
    - destruct (bytes_eqb _ hash) eqn:Eh.
      + rewrite (has_ancient_match db hash number Hz Eh). reflexivity.
      + destruct (has_ancient db hash number); [reflexivity|].
        apply db_Has_live_data. destruct (len (live_data db key) >? 0); congruence.
    - destruct (has_ancient db hash number); [reflexivity|].
      apply db_Has_live_data. destruct (len (live_data db key) >? 0); congruence. }
  split; [|split].
  - change (ReadBodyRLP hash number) with (read_record BodyRecord hash number).
    change (HasBody hash number) with (has_record BodyExists hash number).
    rewrite read_record_result, has_record_result. intros H. injection H as H.
    f_equal. apply (Hgen _ _ H).
  - change (ReadReceiptsRLP hash number) with (read_record ReceiptsRecord hash number).
    change (HasReceipts hash number) with (has_record ReceiptsExist hash number).
    rewrite read_record_result, has_record_result. intros H. injection H as H.
    f_equal. apply (Hgen _ _ H).
  - intros Hna.
    change (after db (WriteBodyRLP hash number []))
      with (db_Put db (blockBodyKey number hash) []).
    change (ReadBodyRLP hash number) with (read_record BodyRecord hash number).
    change (HasBody hash number) with (has_record BodyExists hash number).
    rewrite read_record_result, has_record_result. cbn [has_key record_table record_key].
    change (has_ancient (db_Put db (blockBodyKey number hash) []) hash number)
      with (has_ancient db hash number).
    rewrite Hna. split.
    + unfold db_Has, db_Put. cbn [live]. rewrite kv_get_put_same. reflexivity.
    + f_equal. unfold two_tier_value. rewrite !ancient_data_put, live_data_put_same.
      cbn [len length Z.of_nat Z.gtb Z.compare].
      destruct (len (ancient_data db freezerBodiesTable number) >? 0) eqn:E;
        [|reflexivity].
      destruct (bytes_eqb _ hash) eqn:Eh; [|reflexivity].
      rewrite (has_ancient_match db hash number Hz Eh) in Hna. discriminate.
Qed.
End BlockProps.

Lemma db_empty_not_in_ancient (hash : Hash) (number : Z) :
  not_in_ancient db_empty hash number.
Proof.
  split; [apply ancient_data_empty|]. intros k. left. apply ancient_data_empty.
Qed.

Lemma db_live_block0_not_in_ancient (hash : Hash) (number : Z) :
  not_in_ancient db_live_block0 hash number.
Proof.
  assert (H : forall kind, ancient_data db_live_block0 kind number = []).
  { intros kind. unfold ancient_data, db_Ancient. cbn [ancients db_live_block0].
    unfold empty_tables. destruct (Z.to_nat number); reflexivity. }
  split; [apply H|]. intros k. left. apply H.
Qed.

Lemma WriteBlock_read_back_witness :
  let block := toy_block 5 in
  result (after db_empty (@WriteBlock geth_schema toy_types toy_encode block))
         (@ReadBlock geth_schema toy_types (@Block_Hash toy_types block)
                     (@Block_NumberU64 toy_types block)) = Done (Some block).
Proof.
  cbv zeta.
  assert (Hh : [byte_of_Z 5; "000"%byte; byte_of_Z 5] <> []) by discriminate.
  assert (Hb : ["192"%byte] <> []) by discriminate.
  apply (@WriteBlock_read_back geth_schema toy_types toy_encode db_empty (toy_block 5)
           [byte_of_Z 5; "000"%byte; byte_of_Z 5] ["192"%byte]
           eq_refl Hh eq_refl eq_refl Hb eq_refl).
  - reflexivity.
  - left. reflexivity.
  - vm_compute. discriminate.
  - vm_compute. discriminate.
Defined.

Lemma DeleteBlock_removes_all_witness :
  result (after db_live_block0 (@DeleteBlock geth_schema hash1 0))
         (@ReadBody geth_schema toy_types hash1 0) = Done None /\
  result db_live_block0 (@ReadBody geth_schema toy_types hash1 0) = Done (Some ["007"%byte]).
Proof.
  split; [|reflexivity].
  apply (@DeleteBlock_removes_all geth_schema toy_types db_live_block0 hash1 0
           (db_live_block0_not_in_ancient hash1 0)).
Defined.

Lemma DeleteBlockWithoutNumber_keeps_number_witness :
  let db := after db_live_block0 (@WriteHeaderNumber geth_schema hash1 0) in
  result (after db (@DeleteBlockWithoutNumber geth_schema hash1 0))
         (@ReadHeaderNumber geth_schema hash1) = Done (Some 0) /\
  result (after db (@DeleteBlockWithoutNumber geth_schema hash1 0))
         (@ReadHeader geth_schema toy_types hash1 0) = Done None.
Proof.
  cbv zeta.
  assert (Hna : not_in_ancient
                  (after db_live_block0 (@WriteHeaderNumber geth_schema hash1 0)) hash1 0).
  { apply (db_live_block0_not_in_ancient hash1 0). }
  pose proof (@DeleteBlockWithoutNumber_keeps_number geth_schema toy_types _ hash1 0 Hna)
    as H.
  cbv zeta in H. split.
  - transitivity (result (after db_live_block0 (@WriteHeaderNumber geth_schema hash1 0))
                         (@ReadHeaderNumber geth_schema hash1)); [|reflexivity].
    apply (proj2 (proj2 (proj2 (proj2 (proj2 (proj2 H)))))); vm_compute; discriminate.
  - exact (proj1 (proj2 H)).
Defined.

Lemma body_missing_witness :
  let db := after db_live_block0 (@DeleteBody geth_schema hash1 0) in
  result db (@ReadBody geth_schema toy_types hash1 0) = Done None /\
  result db (@ReadBlock geth_schema toy_types hash1 0) = Done None /\
  result db (@ReadReceipts geth_schema toy_types hash1 0 tt) = Done None.
Proof.
  cbv zeta.
  assert (Hb : result (after db_live_block0 (@DeleteBody geth_schema hash1 0))
                      (@ReadBody geth_schema toy_types hash1 0) = Done None).
  { apply (proj2 (@body_missing geth_schema toy_types db_live_block0 hash1 0)).
    left. reflexivity. }
  pose proof (proj1 (@body_missing geth_schema toy_types
                       (after db_live_block0 (@DeleteBody geth_schema hash1 0)) hash1 0) Hb)
    as H.
  split; [exact Hb|]. split; [exact (proj1 H)|exact (proj2 H tt)].
Defined.

Lemma ReadHeadHeader_spec_witness :
  let header := toy_header 5 4 9 in
  let hash := @header_Hash toy_types header in
  let db := after db_empty (@WriteHeader geth_schema toy_types toy_encode header) in
  result db_empty (@ReadHeadHeader geth_schema geth_keys toy_types) = Done None /\
  result (after db (@WriteHeadHeaderHash geth_keys hash))
         (@ReadHeadHeader geth_schema geth_keys toy_types) = Done (Some header).
Proof.
  cbv zeta. split.
  - apply (proj1 (@ReadHeadHeader_spec geth_schema geth_keys toy_types db_empty hash1 0)).
    reflexivity.
  - transitivity
      (result (after db_empty (@WriteHeader geth_schema toy_types toy_encode
                                            (toy_header 5 4 9)))
              (@ReadHeader geth_schema toy_types (@header_Hash toy_types (toy_header 5 4 9))
                           5)); [|reflexivity].
    apply (proj2 (@ReadHeadHeader_spec geth_schema geth_keys toy_types _ _ 5)).
    + reflexivity.
    + vm_compute. discriminate.
    + vm_compute. discriminate.
    + reflexivity.
    + vm_compute. discriminate.
Defined.

Lemma ReadHeadBlock_spec_witness :
  let block := toy_block 5 in
  let hash := @Block_Hash toy_types block in
  let db := after db_empty (@WriteBlock geth_schema toy_types toy_encode block) in
  result db_empty (@ReadHeadBlock geth_schema geth_keys toy_types) = Done None /\
  result (after db (@WriteHeadBlockHash geth_keys hash))
         (@ReadHeadBlock geth_schema geth_keys toy_types) = Done (Some block).
Proof.
  cbv zeta. split.
  - apply (proj1 (@ReadHeadBlock_spec geth_schema geth_keys toy_types db_empty hash1 0)).
    reflexivity.
  - transitivity
      (result (after db_empty (@WriteBlock geth_schema toy_types toy_encode (toy_block 5)))
              (@ReadBlock geth_schema toy_types (@Block_Hash toy_types (toy_block 5)) 5));
      [|reflexivity].
    apply (proj2 (@ReadHeadBlock_spec geth_schema geth_keys toy_types _ _ 5)).
    + reflexivity.
    + vm_compute. discriminate.
    + vm_compute. discriminate.
    + reflexivity.
    + vm_compute. discriminate.
    + vm_compute. discriminate.
Defined.

Lemma ReadCanonicalBodyRLP_spec_witness :
  result db_live_block0 (@ReadCanonicalBodyRLP geth_schema 0) =
  Done ["192"%byte; "007"%byte].
Proof.
  transitivity
    (match result db_live_block0 (@ReadCanonicalHash geth_schema 0) with
     | Done hash => result db_live_block0 (@ReadBodyRLP geth_schema hash 0)
     | Halted f => Halted f
     end); [|reflexivity].
  apply (@ReadCanonicalBodyRLP_spec geth_schema db_live_block0 0).
  intros H. exfalso. apply H. reflexivity.
Defined.

Lemma read_implies_has_witness :
  result db_live_block0 (@HasBody geth_schema hash1 0) = Done true /\
  result (after db_live_block0 (@WriteBodyRLP geth_schema hash1 0 []))
         (@HasBody geth_schema hash1 0) = Done true /\
  result (after db_live_block0 (@WriteBodyRLP geth_schema hash1 0 []))
         (@ReadBodyRLP geth_schema hash1 0) = Done [].
Proof.
  assert (Hz : hash1 <> zeroHash) by (vm_compute; discriminate).
  assert (Hne : ["192"%byte; "007"%byte] <> []) by discriminate.
  pose proof (@read_implies_has geth_schema db_live_block0 hash1 0
                ["192"%byte; "007"%byte] Hz Hne) as H.
  split.
  - apply (proj1 H). reflexivity.
  - apply (proj2 (proj2 H)). reflexivity.
Defined.

(** ** Uptime records, the pivot number and the randomness cache *)

Section CacheProps.
Context {schema : Schema} {keys : SchemaKeys} {types : Types} {enc : RlpEncode}.

Lemma uptimeKey_inj (e e' : Z) :
  is_uint64 e -> is_uint64 e' -> uptimeKey e = uptimeKey e' -> e = e'.
Proof.
  intros He He' H. unfold uptimeKey in H. apply app_inv_head in H.
  apply encodeBlockNumber_inj; assumption.
Qed.

Lemma ReadAccumulatedEpochUptime_result (db : DB) (epoch : Z) :
  result db (ReadAccumulatedEpochUptime epoch) =
  Done (let data := live_data db (uptimeKey epoch) in
        if len data =? 0 then None else rlp_decode_Uptime data).
Proof.
  unfold result, exec, ReadAccumulatedEpochUptime, live_data. cbn -[len db_Get uptimeKey].
  unfold idle. destruct (db_Get db (uptimeKey epoch)) as [d e].
  cbn -[len]. destruct (len d =? 0); [reflexivity|].
  destruct (rlp_decode_Uptime d); reflexivity.
Qed.

Lemma WriteAccumulatedEpochUptime_exec (db : DB) (epoch : Z) (uptime : Uptime) :
  exec db (WriteAccumulatedEpochUptime epoch uptime) =
  match EncodeToBytes_Uptime uptime with
  | None => {| outcome := Halted (LogCrit "Failed to RLP encode updated uptime");
               final := db; trace := [] |}
  | Some data => {| outcome := Done tt; final := db_Put db (uptimeKey epoch) data;
                    trace := [CallPut (uptimeKey epoch) data] |}
  end.
Proof.
  unfold exec, WriteAccumulatedEpochUptime.
  destruct (EncodeToBytes_Uptime uptime); reflexivity.
Qed.

(** X23.  The accumulated uptime of an epoch: WriteAccumulatedEpochUptime
    followed by ReadAccumulatedEpochUptime for the same epoch returns the
    record written, the record of every other epoch is unchanged, and an
    epoch without an entry reads as nil. *)
Theorem uptime_read_back (db : DB) (epoch : Z) (uptime : Uptime) (data : bytes) :
  is_uint64 epoch ->
  EncodeToBytes_Uptime uptime = Some data ->
  data <> [] ->
  rlp_decode_Uptime data = Some uptime ->
  let db' := after db (WriteAccumulatedEpochUptime epoch uptime) in
  result db (WriteAccumulatedEpochUptime epoch uptime) = Done tt /\
  result db' (ReadAccumulatedEpochUptime epoch) = Done (Some uptime) /\
  (forall epoch' : Z, is_uint64 epoch' -> epoch' <> epoch ->
     result db' (ReadAccumulatedEpochUptime epoch') =
     result db (ReadAccumulatedEpochUptime epoch')) /\
  (kv_get (live db) (uptimeKey epoch) = None ->
   result db (ReadAccumulatedEpochUptime epoch) = Done None).
Proof.
  intros He Henc Hne Hdec. cbv zeta. unfold after. unfold result at 1.
  rewrite WriteAccumulatedEpochUptime_exec, Henc. cbn [outcome final].
  split; [reflexivity|]. rewrite !ReadAccumulatedEpochUptime_result. cbv zeta.
  split; [|split].
  - rewrite live_data_put_same, (nonempty_len_eqb data Hne), Hdec. reflexivity.
  - intros epoch' He' Hneq. rewrite !ReadAccumulatedEpochUptime_result. cbv zeta.
    rewrite live_data_put_other; [reflexivity|].
    intros H. apply Hneq. apply uptimeKey_inj; assumption.
  - intros H. rewrite (live_data_absent _ _ H). reflexivity.
Qed.

Lemma ReadLastPivotNumber_result (db : DB) :
  result db ReadLastPivotNumber =
  Done (let data := live_data db lastPivotKey in
        if len data =? 0 then None else rlp_decode_uint64 data).
Proof.
  unfold result, exec, ReadLastPivotNumber, live_data. cbn -[len db_Get].
  unfold idle. destruct (db_Get db lastPivotKey) as [d e].
  cbn -[len]. destruct (len d =? 0); [reflexivity|].
  destruct (rlp_decode_uint64 d); reflexivity.
Qed.

Lemma WriteLastPivotNumber_exec (db : DB) (pivot : Z) :
  exec db (WriteLastPivotNumber pivot) =
  match EncodeToBytes_uint64 pivot with
  | None => {| outcome := Halted (LogCrit "Failed to encode pivot block number");
               final := db; trace := [] |}
  | Some data => {| outcome := Done tt; final := db_Put db lastPivotKey data;
                    trace := [CallPut lastPivotKey data] |}
  end.
Proof.
  unfold exec, WriteLastPivotNumber. destruct (EncodeToBytes_uint64 pivot); reflexivity.
Qed.

(** X24.  The last pivot number: WriteLastPivotNumber followed by
    ReadLastPivotNumber returns the number written; a store without the entry
    and a store whose entry does not decode both read as nil. *)
Theorem LastPivotNumber_read_back (db : DB) (pivot : Z) (data : bytes) :
  (EncodeToBytes_uint64 pivot = Some data ->
   data <> [] ->
   rlp_decode_uint64 data = Some pivot ->
   result db (WriteLastPivotNumber pivot) = Done tt /\
   result (after db (WriteLastPivotNumber pivot)) ReadLastPivotNumber =
     Done (Some pivot)) /\
  (kv_get (live db) lastPivotKey = None -> result db ReadLastPivotNumber = Done None) /\
  (rlp_decode_uint64 (live_data db lastPivotKey) = None ->
   result db ReadLastPivotNumber = Done None).
Proof.
  split; [|split].
  - intros Henc Hne Hdec. unfold after. unfold result at 1.
    rewrite WriteLastPivotNumber_exec, Henc. cbn [outcome final].
    split; [reflexivity|]. rewrite ReadLastPivotNumber_result. cbv zeta.
    rewrite live_data_put_same, (nonempty_len_eqb data Hne), Hdec. reflexivity.
  - intros H. rewrite ReadLastPivotNumber_result. cbv zeta.
    rewrite (live_data_absent _ _ H). reflexivity.
  - intros H. rewrite ReadLastPivotNumber_result. cbv zeta. rewrite H.
    destruct (len _ =? 0); reflexivity.
Qed.

Lemma ReadRandomCommitmentCache_result (db : DB) (commitment : Hash) :
  result db (ReadRandomCommitmentCache commitment) =
  Done (match kv_get (live db) (RandomnessCommitmentDBLocation commitment) with
        | Some parentHash => BytesToHash parentHash
        | None => zeroHash
        end).
Proof.
  unfold result, exec, ReadRandomCommitmentCache. cbn -[BytesToHash zeroHash].
  unfold idle, db_Get. destruct (kv_get _ _); reflexivity.
Qed.

(** X25.  The randomness commitment cache: WriteRandomCommitmentCache followed
    by ReadRandomCommitmentCache for the same commitment returns the parent
    hash written; a commitment without an entry reads as the zero hash; an
    entry stored under another location is unchanged. *)
Theorem RandomCommitmentCache_read_back (db : DB) (commitment parentHash : Hash) :
  length parentHash = 32%nat ->
  let db' := after db (WriteRandomCommitmentCache commitment parentHash) in
  result db' (ReadRandomCommitmentCache commitment) = Done parentHash /\
  (kv_get (live db) (RandomnessCommitmentDBLocation commitment) = None ->
   result db (ReadRandomCommitmentCache commitment) = Done zeroHash) /\
  (forall commitment' : Hash,
     RandomnessCommitmentDBLocation commitment' <>
     RandomnessCommitmentDBLocation commitment ->
     result db' (ReadRandomCommitmentCache commitment') =
     result db (ReadRandomCommitmentCache commitment')).
Proof.
  intros Hl. cbv zeta.
  change (after db (WriteRandomCommitmentCache commitment parentHash))
    with (db_Put db (RandomnessCommitmentDBLocation commitment) parentHash).
  rewrite !ReadRandomCommitmentCache_result. split; [|split].
  - unfold db_Put. cbn [live]. rewrite kv_get_put_same, BytesToHash_id by exact Hl.
    reflexivity.
  - intros H. rewrite H. reflexivity.
  - intros commitment' Hk. rewrite !ReadRandomCommitmentCache_result.
    unfold db_Put. cbn [live]. rewrite kv_get_put_other by exact Hk. reflexivity.
Qed.
End CacheProps.

Lemma uptime_read_back_witness :
  let db := after db_empty (@WriteAccumulatedEpochUptime toy_types toy_encode 3
                                                        ["007"%byte]) in
  result db (@ReadAccumulatedEpochUptime toy_types toy_encode 3) = Done (Some ["007"%byte]) /\
  result db (@ReadAccumulatedEpochUptime toy_types toy_encode 4) = Done None.
Proof.
  cbv zeta.
  assert (H3 : is_uint64 3) by (unfold is_uint64; lia).
  assert (H4 : is_uint64 4) by (unfold is_uint64; lia).
  assert (Hne : ["192"%byte; "007"%byte] <> []) by discriminate.
  pose proof (@uptime_read_back toy_types toy_encode db_empty 3 ["007"%byte]
                ["192"%byte; "007"%byte] H3 eq_refl Hne eq_refl) as H.
  cbv zeta in H. split.
  - exact (proj1 (proj2 H)).
  - transitivity (result db_empty (@ReadAccumulatedEpochUptime toy_types toy_encode 4));
      [|reflexivity].
    apply (proj1 (proj2 (proj2 H)) 4 H4). lia.
Defined.

Lemma LastPivotNumber_read_back_witness :
  result (after db_empty (@WriteLastPivotNumber geth_keys toy_types toy_encode 7))
         (@ReadLastPivotNumber geth_keys toy_types toy_encode) = Done (Some 7) /\
  result db_empty (@ReadLastPivotNumber geth_keys toy_types toy_encode) = Done None.
Proof.
  pose proof (@LastPivotNumber_read_back geth_keys toy_types toy_encode db_empty 7
                ("136"%byte :: be_encode 8 7)) as H.
  split.
  - apply (proj1 H); [reflexivity|discriminate|reflexivity].
  - apply (proj1 (proj2 H)). reflexivity.
Defined.

Lemma RandomCommitmentCache_read_back_witness :
  let db := after db_empty (@WriteRandomCommitmentCache toy_types toy_encode hash1 hash2) in
  result db (@ReadRandomCommitmentCache toy_types toy_encode hash1) = Done hash2 /\
  result db (@ReadRandomCommitmentCache toy_types toy_encode hash2) = Done zeroHash.
Proof.
  cbv zeta.
  pose proof (@RandomCommitmentCache_read_back toy_types toy_encode db_empty hash1 hash2
                eq_refl) as H.
  cbv zeta in H. split.
  - exact (proj1 H).
  - transitivity (result db_empty (@ReadRandomCommitmentCache toy_types toy_encode hash2));
      [|reflexivity].
    apply (proj2 (proj2 H)). vm_compute. discriminate.
Defined.

(** ** All hashes at one height *)

Lemma kv_get_In (l : list (bytes * bytes)) (key : bytes) :
  kv_get l key <> None <-> exists v, In (key, v) l.
Proof.
  induction l as [|[k v] r IH]; cbn.
  - split; [intros H; contradiction | intros [v []]].
  - destruct (bytes_eqb k key) eqn:E.
    + apply bytes_eqb_eq in E. subst k. split; [|discriminate].
      intros _. exists v. left. reflexivity.
    + rewrite IH. split.
      * intros [v' H]. exists v'. right. exact H.
      * intros [v' [H|H]]; [|exists v'; exact H].
        injection H as H _. subst k. rewrite bytes_eqb_refl in E. discriminate.
Qed.

Section AllHashes.
Context {schema : Schema}.

Lemma headerKey_prefix (number : Z) (h : Hash) :
  headerKey number h = headerKeyPrefix number ++ h.
Proof. unfold headerKey, headerKeyPrefix. rewrite app_assoc. reflexivity. Qed.

Lemma hash_of_key (p h : bytes) :
  length h = 32%nat ->
  BytesToHash (slice_from (p ++ h) (length (p ++ h) - 32)) = h.
Proof.
  intros H. unfold slice_from. rewrite length_app, H.
  replace (length p + 32 - 32)%nat with (length p + 0)%nat by lia.
  rewrite skipn_app, Nat.add_0_r, skipn_all.
  replace (length p - length p)%nat with 0%nat by lia.
  cbn [skipn app]. apply BytesToHash_id. exact H.
Qed.

(** X26.  ReadAllHashes returns 32-byte hashes, and a 32-byte hash is among
    them exactly when the live store has an entry under the header key of
    (number, hash): the canonical header and the headers of reorg forks at the
    height alike. *)
Theorem ReadAllHashes_spec (db : DB) (number : Z) :
  exists hashes : list Hash,
    result db (ReadAllHashes number) = Done hashes /\
    (forall h, In h hashes -> length h = 32%nat) /\
    (forall h, length h = 32%nat ->
               (In h hashes <-> kv_get (live db) (headerKey number h) <> None)).
Proof.
  eexists. split; [reflexivity|].
  assert (Hshape : forall kv : bytes * bytes,
            In kv (filter (fun kv : bytes * bytes =>
                             len (fst kv) =? len (headerKeyPrefix number) + 32)
                          (db_NewIterator db (headerKeyPrefix number) [])) ->
            In kv (live db) /\
            exists h, length h = 32%nat /\ fst kv = headerKeyPrefix number ++ h).
  { intros kv H. apply filter_In in H. destruct H as [H Hlen].
    unfold db_NewIterator in H. apply filter_In in H. destruct H as [Hin Hp].
    apply andb_true_iff in Hp. destruct Hp as [Hp _]. split; [exact Hin|].
    apply HasPrefix_split in Hp. exists (skipn (length (headerKeyPrefix number)) (fst kv)).
    split; [|exact Hp]. apply Z.eqb_eq in Hlen. unfold len in Hlen.
    rewrite length_skipn. lia. }
  split.
  - intros h H. apply in_map_iff in H. destruct H as ([k v] & <- & Hkv).
    destruct (Hshape _ Hkv) as (_ & h' & Hl & Hk). cbn [fst] in Hk |- *. rewrite Hk.
    rewrite hash_of_key by exact Hl. exact Hl.
  - intros h Hl. rewrite kv_get_In, headerKey_prefix. split.
    + intros H. apply in_map_iff in H. destruct H as ([k v] & Hh & Hkv).
      destruct (Hshape _ Hkv) as (Hin & h' & Hl' & Hk). cbn [fst] in Hh, Hk.
      rewrite Hk, hash_of_key in Hh by exact Hl'. subst h' k. exists v. exact Hin.
    + intros [v Hin]. apply in_map_iff. exists (headerKeyPrefix number ++ h, v).
      cbn [fst]. split; [apply hash_of_key; exact Hl|].
      apply filter_In. split.
      * unfold db_NewIterator. apply filter_In. split; [exact Hin|]. cbn [fst].
        rewrite HasPrefix_app, bytes_compare_app_prefix. destruct h; reflexivity.
      * cbn [fst]. apply Z.eqb_eq. rewrite len_app. unfold len at 2. rewrite Hl. lia.
Qed.
End AllHashes.

Lemma ReadAllHashes_spec_witness :
  exists hashes : list Hash,
    result db_fork (@ReadAllHashes geth_schema 5) = Done hashes /\
    In hash1 hashes /\ In hash2 hashes.
Proof.
  destruct (@ReadAllHashes_spec geth_schema db_fork 5) as (hashes & Hr & _ & H).
  exists hashes. split; [exact Hr|]. split.
  - apply (H hash1 eq_refl). vm_compute. discriminate.
  - apply (H hash2 eq_refl). vm_compute. discriminate.
Defined.

(** ** Bad blocks *)

Lemma StronglySorted_middle {A : Type} (R : A -> A -> Prop) (s1 s2 : list A) (b : A) :
  StronglySorted R (s1 ++ b :: s2) -> Forall (fun x => R x b) s1 /\ Forall (R b) s2.
Proof.
  induction s1 as [|x s1 IH]; cbn; intros H.
  - apply StronglySorted_inv in H. split; [constructor|apply H].
  - apply StronglySorted_inv in H. destruct H as [Hs Hx].
    destruct (IH Hs) as [H1 H2]. split; [|exact H2].
    constructor; [|exact H1].
    rewrite Forall_forall in Hx. apply Hx. apply in_or_app. right. left. reflexivity.
Qed.

Section BadBlockReadProps.
Context {schema : Schema} {types : Types} {gosort : GoSort}.

Lemma sorted_cut (l s : badBlockList) (b : badBlock Header Body) :
  Permutation s (l ++ [b]) ->
  StronglySorted descending s ->
  (length l <= 10)%nat ->
  ((length l < 10)%nat \/ (exists e, In e l /\ bb_number e < bb_number b) ->
   In b (firstn 10 s)) /\
  (length l = 10%nat ->
   (forall e, In e l -> bb_number b < bb_number e) ->
   ~ In b (firstn 10 s) /\ Permutation (firstn 10 s) l).
Proof.
  intros Hperm Hsorted Hlen.
  assert (Hin : In b s).
  { apply (Permutation_in b (Permutation_sym Hperm)). apply in_or_app. right. left.
    reflexivity. }
  apply in_split in Hin. destruct Hin as (s1 & s2 & ->).
  assert (Hrest : Permutation (s1 ++ s2) l).
  { apply (Permutation_cons_inv (a := b)).
    apply (Permutation_trans (Permutation_middle s1 s2 b)).
    apply (Permutation_trans Hperm). apply Permutation_sym. apply Permutation_cons_append. }
  pose proof (Permutation_length Hrest) as Hl. rewrite length_app in Hl.
  destruct (StronglySorted_middle _ _ _ _ Hsorted) as [Hbefore Hafter].
  rewrite Forall_forall in Hbefore, Hafter. unfold descending in Hbefore, Hafter.
  split.
  - intros Hcase. rewrite firstn_app. apply in_or_app.
    destruct (Nat.lt_ge_cases (length s1) 10) as [Hs1|Hs1].
    + right. destruct (10 - length s1)%nat eqn:E; [lia|]. left. reflexivity.
    + exfalso. destruct Hcase as [Hc|(e & He & Hlt)]; [lia|].
      assert (Hs2 : s2 = []) by (destruct s2; [reflexivity|cbn in Hl; lia]).
      subst s2. rewrite app_nil_r in Hrest.
      apply (Permutation_in e (Permutation_sym Hrest)) in He.
      specialize (Hbefore e He). lia.
  - intros Hten Hall.
    assert (Hs2 : s2 = []).
    { destruct s2 as [|y s2]; [reflexivity|]. exfalso.
      assert (Hy : In y l).
      { apply (Permutation_in y Hrest). apply in_or_app. right. left. reflexivity. }
      specialize (Hall y Hy). specialize (Hafter y (or_introl eq_refl)). lia. }
    subst s2. rewrite app_nil_r in Hrest. cbn [length] in Hl.
    rewrite firstn_app. replace (10 - length s1)%nat with 0%nat by lia.
    rewrite firstn_O, app_nil_r, firstn_all2 by lia. split; [|exact Hrest].
    intros Hb. apply (Permutation_in b Hrest) in Hb. specialize (Hall b Hb). lia.
Qed.

Lemma WriteBadBlock_stored (db : DB) (block : Block) (l : badBlockList) (data : bytes) :
  stored_badBlocks db = Some l ->
  ~ In (bb_key (new_badBlock block)) (map bb_key l) ->
  rlp_encode_badBlocks
    (firstn 10 (sort_Sort _ (sort_Reverse badBlockList_Less) (l ++ [new_badBlock block]))) =
  Some data ->
  result db (WriteBadBlock block) = Done tt /\
  after db (WriteBadBlock block) = db_Put db badBlockKey data.
Proof.
  intros Hl Hnew Henc. unfold result, after. rewrite (WriteBadBlock_exec db block l Hl).
  destruct (existsb _ l) eqn:E; [apply dup_check_In in E; contradiction|].
  rewrite Henc. split; reflexivity.
Qed.

(** X27.  Which bad blocks WriteBadBlock keeps.  For a stored list of at most
    ten entries and a block not yet in it: the block is kept when there is
    room or when some stored entry has a lower number; when ten entries are
    stored and all have a higher number, the block is not recorded and the
    stored entries stay the same. *)
Theorem WriteBadBlock_retention :
  sort_law -> codec_law ->
  forall (db : DB) (block : Block) (l : badBlockList) (data : bytes),
    stored_badBlocks db = Some l ->
    (length l <= 10)%nat ->
    ~ In (bb_key (new_badBlock block)) (map bb_key l) ->
    let l' := firstn 10 (sort_Sort _ (sort_Reverse badBlockList_Less)
                                   (l ++ [new_badBlock block])) in
    rlp_encode_badBlocks l' = Some data ->
    stored_badBlocks (after db (WriteBadBlock block)) = Some l' /\
    ((length l < 10)%nat \/
     (exists e, In e l /\ bb_number e < bb_number (new_badBlock block)) ->
     In (new_badBlock block) l') /\
    (length l = 10%nat ->
     (forall e, In e l -> bb_number (new_badBlock block) < bb_number e) ->
     ~ In (new_badBlock block) l' /\ Permutation l' l).
Proof.
  intros Hsort Hcodec db block l data Hl Hlen Hnew l' Henc.
  destruct (WriteBadBlock_stored db block l data Hl Hnew Henc) as [_ Ha].
  rewrite Ha. split; [apply stored_after_put; assumption|].
  destruct (Hsort (l ++ [new_badBlock block])) as [Hperm Hsorted].
  apply (sorted_cut l _ (new_badBlock block) Hperm Hsorted Hlen).
Qed.

Lemma bad_block_reads (db : DB) (l : badBlockList) (data : bytes) (hash : Hash) :
  codec_law ->
  rlp_encode_badBlocks l = Some data ->
  result (db_Put db badBlockKey data) ReadAllBadBlocks = Done (map block_of_badBlock l) /\
  result (db_Put db badBlockKey data) (ReadBadBlock hash) =
  Done (option_map block_of_badBlock
          (find (fun bad => bytes_eqb (header_Hash (bb_Header bad)) hash) l)).
Proof.
  intros Hcodec Henc. destruct (Hcodec l data Henc) as [_ Hdec].
  unfold result, exec, ReadAllBadBlocks, ReadBadBlock. cbn -[db_Get].
  unfold idle, db_Get, db_Put. cbn [live]. rewrite kv_get_put_same, Hdec. split.
  - reflexivity.
  - destruct (find _ l); reflexivity.
Qed.

(** X28.  A bad block is read back: after WriteBadBlock of a block not yet
    stored, ReadAllBadBlocks returns the blocks of the new list, in its
    (descending) order, ReadBadBlock returns the first stored block with the
    requested header hash, which has the written block's hash when that block
    was kept, and nil for a hash no stored block has. *)
Theorem WriteBadBlock_read_back :
  codec_law ->
  forall (db : DB) (block : Block) (l : badBlockList) (data : bytes),
    stored_badBlocks db = Some l ->
    ~ In (bb_key (new_badBlock block)) (map bb_key l) ->
    let l' := firstn 10 (sort_Sort _ (sort_Reverse badBlockList_Less)
                                   (l ++ [new_badBlock block])) in
    rlp_encode_badBlocks l' = Some data ->
    let db' := after db (WriteBadBlock block) in
    result db' ReadAllBadBlocks = Done (map block_of_badBlock l') /\
    (In (new_badBlock block) l' ->
     exists b, result db' (ReadBadBlock (Block_Hash block)) = Done (Some b) /\
               Block_Hash b = Block_Hash block) /\
    (forall hash : Hash,
       (forall e, In e l' -> header_Hash (bb_Header e) <> hash) ->
       result db' (ReadBadBlock hash) = Done None).
Proof.
  intros Hcodec db block l data Hl Hnew l' Henc db'. subst db'.
  destruct (WriteBadBlock_stored db block l data Hl Hnew Henc) as [_ Ha]. rewrite Ha.
  split; [apply (bad_block_reads db l' data [] Hcodec Henc)|]. split.
  - intros Hin.
    rewrite (proj2 (bad_block_reads db l' data (Block_Hash block) Hcodec Henc)).
    destruct (find _ l') as [bad|] eqn:Ef.
    + exists (block_of_badBlock bad). split; [reflexivity|].
      apply find_some in Ef. destruct Ef as [_ Ef]. apply bytes_eqb_eq in Ef. exact Ef.
    + exfalso. apply (find_none _ _ Ef) in Hin. cbn in Hin.
      rewrite bytes_eqb_refl in Hin. discriminate.
  - intros hash Hnone. rewrite (proj2 (bad_block_reads db l' data hash Hcodec Henc)).
    destruct (find _ l') as [bad|] eqn:Ef; [|reflexivity].
    apply find_some in Ef. destruct Ef as [Hin Ef]. apply bytes_eqb_eq in Ef.
    exfalso. apply (Hnone bad Hin Ef).
Qed.

(** X29.  DeleteBadBlocks empties the bad-block store: afterwards
    ReadAllBadBlocks returns nothing and ReadBadBlock nil for every hash, and
    a following WriteBadBlock stores the written block alone. *)
Theorem DeleteBadBlocks_clears (db : DB) :
  let db' := after db DeleteBadBlocks in
  result db DeleteBadBlocks = Done tt /\
  result db' ReadAllBadBlocks = Done [] /\
  (forall hash : Hash, result db' (ReadBadBlock hash) = Done None) /\
  (sort_law -> codec_law ->
   forall (block : Block) (data : bytes),
     rlp_encode_badBlocks [new_badBlock block] = Some data ->
     result (after db' (WriteBadBlock block)) ReadAllBadBlocks = Done [block]).
Proof.
  cbv zeta. change (after db DeleteBadBlocks) with (db_Delete db badBlockKey).
  split; [reflexivity|].
  assert (Hget : db_Get (db_Delete db badBlockKey) badBlockKey = ([], Some "not found"%string)).
  { unfold db_Get, db_Delete. cbn [live]. rewrite kv_get_delete_same. reflexivity. }
  split; [|split].
  - unfold result, exec, ReadAllBadBlocks. cbn -[db_Get db_Delete]. unfold idle.
    rewrite Hget. reflexivity.
  - intros hash. unfold result, exec, ReadBadBlock. cbn -[db_Get db_Delete]. unfold idle.
    rewrite Hget. reflexivity.
  - intros Hsort Hcodec block data Henc.
    assert (Hl : stored_badBlocks (db_Delete db badBlockKey) = Some []).
    { unfold stored_badBlocks. rewrite live_data_delete_same. reflexivity. }
    assert (Hs : sort_Sort _ (sort_Reverse badBlockList_Less) ([] ++ [new_badBlock block]) =
                 [new_badBlock block]).
    { destruct (Hsort ([] ++ [new_badBlock block])) as [Hperm _].
      apply Permutation_sym, Permutation_length_1_inv in Hperm. exact Hperm. }
    assert (Henc' : rlp_encode_badBlocks
                      (firstn 10 (sort_Sort _ (sort_Reverse badBlockList_Less)
                                            ([] ++ [new_badBlock block]))) = Some data).
    { rewrite Hs. exact Henc. }
    destruct (WriteBadBlock_stored _ block [] data Hl (fun H => H) Henc') as [_ Ha].
    rewrite Ha. rewrite (proj1 (bad_block_reads _ [new_badBlock block] data [] Hcodec Henc)).
    destruct block; reflexivity.
Qed.
End BadBlockReadProps.

Lemma db_ten_bad_stored : @stored_badBlocks geth_schema toy_types db_ten_bad = Some ten_bad.
Proof. vm_compute. reflexivity. Qed.

Lemma WriteBadBlock_retention_witness :
  In (@new_badBlock toy_types (toy_block 5))
     (firstn 10 (insertion_sort (sort_Reverse (@badBlockList_Less toy_types))
                                ([] ++ [@new_badBlock toy_types (toy_block 5)]))) /\
  ~ In (@new_badBlock toy_types (toy_block 1))
       (firstn 10 (insertion_sort (sort_Reverse (@badBlockList_Less toy_types))
                                  (ten_bad ++ [@new_badBlock toy_types (toy_block 1)]))).
Proof.
  split.
  - assert (Hl : @stored_badBlocks geth_schema toy_types db_empty = Some [])
      by reflexivity.
    assert (Hlen : (@length (badBlock toy_Header bytes) [] <= 10)%nat) by (cbn; lia).
    apply (proj1 (proj2 (@WriteBadBlock_retention geth_schema toy_types insertion_GoSort
             insertion_sort_law toy_codec_law db_empty (toy_block 5) []
             (toy_bad_data [@new_badBlock toy_types (toy_block 5)])
             Hl Hlen (fun H => H) eq_refl))).
    left. cbn. lia.
  - assert (Hlen : (length ten_bad <= 10)%nat) by (cbn; lia).
    assert (Hnew : ~ In (@bb_key toy_types (@new_badBlock toy_types (toy_block 1)))
                        (map (@bb_key toy_types) ten_bad)).
    { vm_compute. intros H.
      repeat (destruct H as [H|H]; [discriminate|]). exact H. }
    assert (Henc : @rlp_encode_badBlocks toy_types
              (firstn 10 (insertion_sort (sort_Reverse (@badBlockList_Less toy_types))
                            (ten_bad ++ [@new_badBlock toy_types (toy_block 1)]))) =
              Some (toy_bad_data ten_bad)) by (vm_compute; reflexivity).
    apply (proj2 (proj2 (@WriteBadBlock_retention geth_schema toy_types insertion_GoSort
             insertion_sort_law toy_codec_law db_ten_bad (toy_block 1) ten_bad
             (toy_bad_data ten_bad) db_ten_bad_stored Hlen Hnew Henc))).
    + reflexivity.
    + intros e He. vm_compute in He.
      repeat (destruct He as [<-|He]; [vm_compute; reflexivity|]). contradiction.
Defined.

Lemma WriteBadBlock_read_back_witness :
  result (after db_empty (@WriteBadBlock geth_schema toy_types insertion_GoSort
                                         (toy_block 5)))
         (@ReadAllBadBlocks geth_schema toy_types) = Done [toy_block 5].
Proof.
  assert (Hl : @stored_badBlocks geth_schema toy_types db_empty = Some [])
    by reflexivity.
  apply (@WriteBadBlock_read_back geth_schema toy_types insertion_GoSort toy_codec_law
           db_empty (toy_block 5) []
           (toy_bad_data [@new_badBlock toy_types (toy_block 5)])
           Hl (fun H => H) eq_refl).
Defined.

Lemma DeleteBadBlocks_clears_witness :
  result (after (after db_ten_bad (@DeleteBadBlocks geth_schema))
                (@WriteBadBlock geth_schema toy_types insertion_GoSort (toy_block 5)))
         (@ReadAllBadBlocks geth_schema toy_types) = Done [toy_block 5].
Proof.
  apply (proj2 (proj2 (proj2 (@DeleteBadBlocks_clears geth_schema toy_types
                                insertion_GoSort db_ten_bad)))
           insertion_sort_law toy_codec_law (toy_block 5)
           (toy_bad_data [@new_badBlock toy_types (toy_block 5)]) eq_refl).
Defined.

(** ** Range bounds *)

Section RangeBounds.
Context {schema : Schema}.

Lemma filter_none {A : Type} (f : A -> bool) (l : list A) :
  (forall x, f x = false) -> filter f l = [].
Proof.
  intros H. induction l as [|x l IH]; cbn; [reflexivity|]. rewrite H. exact IH.
Qed.

(** X30.  ReadAllHashesInRange outside first <= last.  With first = last + 1
    the range is empty and so is the result.  With first further above last,
    and with a span of 2^45 numbers or more (short of the whole uint64 range,
    where the capacity wraps to 0), the capacity 1+last-first of the result
    slice, computed in uint64, exceeds what can be allocated: the call panics
    before it touches the store. *)
Theorem ReadAllHashesInRange_bounds (db : DB) (first last : Z) :
  is_uint64 first -> is_uint64 last ->
  (first = last + 1 -> live_sorted db ->
   result db (ReadAllHashesInRange first last) = Done []) /\
  ((last + 1 < first /\ first - last <= 2 ^ 64 - 2 ^ 45) \/
   (first <= last /\ 2 ^ 45 <= last - first < 2 ^ 64 - 1) ->
   forall (bg : nat -> DB -> DB) (i : nat),
     run bg i db (ReadAllHashesInRange first last) =
     {| outcome := Halted (RuntimePanic "makeslice: cap out of range");
        final := db; trace := [] |}).
Proof.
  unfold is_uint64. intros Hf Hl. split.
  - intros Heq Hsorted.
    assert (Hiter_sorted :
              StronglySorted (fun x y => bytes_compare (fst x) (fst y) = Lt)
                             (db_NewIterator db headerPrefix (encodeBlockNumber first)))
      by (apply sorted_filter; exact Hsorted).
    assert (Hiter_pre :
              Forall (fun kv => HasPrefix (fst kv) headerPrefix = true)
                     (db_NewIterator db headerPrefix (encodeBlockNumber first))).
    { apply Forall_forall. intros kv Hin. apply filter_In in Hin.
      destruct Hin as [_ Hin]. apply andb_true_iff in Hin. tauto. }
    unfold result, exec, ReadAllHashesInRange.
    assert (Hcap : makeslice_ok (wrap64 (1 + last - first)) = true).
    { replace (1 + last - first) with 0 by lia. reflexivity. }
    rewrite Hcap. cbn [negb]. cbn [bind newIterator run logged outcome].
    unfold idle. rewrite (hashesInRange_loop_sorted last _ Hiter_sorted Hiter_pre).
    rewrite iterator_header_keys by lia.
    unfold headers_in_range. rewrite filter_none; [reflexivity|].
    intros kv. destruct (is_header_key (fst kv)); [|reflexivity]. cbn [andb].
    destruct (Z.leb_spec first (key_number (fst kv))); [|reflexivity].
    destruct (Z.leb_spec (key_number (fst kv)) last); [lia|reflexivity].
  - intros Hcase bg i. unfold ReadAllHashesInRange.
    assert (Hcap : makeslice_ok (wrap64 (1 + last - first)) = false).
    { unfold makeslice_ok, wrap64, ptrSize, maxAlloc. apply Z.leb_gt.
      destruct Hcase as [[H1 H2]|[H1 H2]].
      - replace (1 + last - first) with ((1 + last - first + 2 ^ 64) + (-1) * 2 ^ 64)
          by ring.
        rewrite Z.mod_add by lia. rewrite Z.mod_small by lia. lia.
      - rewrite Z.mod_small by lia. lia. }
    rewrite Hcap. reflexivity.
Qed.
End RangeBounds.

Lemma ReadAllHashesInRange_bounds_witness :
  result db_fork (@ReadAllHashesInRange geth_schema 6 5) = Done [] /\
  result db_fork (@ReadAllHashesInRange geth_schema 7 5) =
  Halted (RuntimePanic "makeslice: cap out of range").
Proof.
  assert (H5 : is_uint64 5) by (unfold is_uint64; lia).
  assert (H6 : is_uint64 6) by (unfold is_uint64; lia).
  assert (H7 : is_uint64 7) by (unfold is_uint64; lia).
  split.
  - apply (proj1 (@ReadAllHashesInRange_bounds geth_schema db_fork 6 5 H6 H5)).
    + reflexivity.
    + exact db_fork_sorted.
  - unfold result, exec.
    rewrite (proj2 (@ReadAllHashesInRange_bounds geth_schema db_fork 7 5 H7 H5)).
    + reflexivity.
    + left. lia.
Defined.

Lemma ReadHeaderNumber_spec_witness :
  result db_empty (@ReadHeaderNumber geth_schema hash1) = Done None /\
  result (db_Put db_empty (@headerNumberKey geth_schema hash1) (encodeBlockNumber 7))
         (@ReadHeaderNumber geth_schema hash1) = Done (Some 7).
Proof.
  split.
  - apply (proj2 (@ReadHeaderNumber_spec geth_schema db_empty hash1 0)).
    vm_compute. discriminate.
  - apply (proj1 (@ReadHeaderNumber_spec geth_schema _ hash1 7)). split.
    + unfold is_uint64. lia.
    + reflexivity.
Defined.
